(** * SearchYAML: the store engine and its index subsystem

    A shallow embedding of the Go package [storage] (trigram, vector and
    ordered indexes, the index manager, the memory-mapped store and the
    search planner), followed by the properties of its specification.

    Conventions of the embedding.
    - Go [int]/[int64] values are [Z]; 64-bit wrap-around is written out
      with [wrap64] where the source does arithmetic on them.
    - Go maps are [gmap]s, Go sets ([map[string]struct{}]) are [gset]s.  Go
      leaves the iteration order of a map unspecified; the embedding iterates
      in the order of [map_to_list] / [elements].
    - [sort.Slice] is not stable; the embedding uses [merge_sort], one of the
      admissible results.
    - The [float32] components of vectors and the [float64] scores are
      idealised as rationals ([Q]); the square root used by vector
      normalisation is a parameter ([Sqrt]).  The [float64] arithmetic of
      [time.Duration.Seconds] is modelled with its rounding ([float64]).
    - [strings.ToLower] is modelled on ASCII bytes: on a text with a byte
      above 127 the embedding leaves that byte alone, where Go maps the
      upper-case letters of Unicode.
    - [time.Now()] is read anew by every call that needs it: a call takes
      the reading as an argument, and [sync], which calls itself through
      [growFile] and [resize], takes the sequence of its readings.
    - A call either returns, panics, blocks forever on a mutex or runs
      forever: see [outcome].  A Go [error] result is an [option string].
    - The store's reader/writer lock is part of the state, because [resize]
      takes it inside [sync].  The locks of the index manager, of the indexes
      and of the statistics are never taken twice in one call and are left
      out, as are [BatchSearch] (one goroutine per query) and the unsigned
      wrap-around of the statistics counters. *)

From Stdlib Require Import ZArith QArith Qround String Ascii Lia Lqa.
From Stdlib.Strings Require Import Byte.
From stdpp Require Import base gmap strings list sorting pretty.

#[local] Set Warnings "-register-all,-clear-no-such-hyp".
#[local] Open Scope Z_scope.

(** ** Outcomes of a call *)

Inductive outcome (A : Type) : Type :=
| Ret (a : A)            (* the call returns [a] *)
| Panic (msg : string)   (* a run-time panic unwinds the call *)
| Block                  (* the goroutine blocks forever on a held mutex *)
| Spin.                  (* the call does not terminate *)
Arguments Ret {A} a.
Arguments Panic {A} msg.
Arguments Block {A}.
Arguments Spin {A}.

Definition obind {A B} (f : A -> outcome B) (m : outcome A) : outcome B :=
  match m with
  | Ret a => f a
  | Panic msg => Panic msg
  | Block => Block
  | Spin => Spin
  end.

#[global] Instance outcome_ret : MRet outcome := fun _ a => Ret a.
#[global] Instance outcome_bind : MBind outcome := fun _ _ f m => obind f m.

(** [for _, x := range l { body }] over a body that may panic. *)
Fixpoint forM {A S} (body : A -> S -> outcome S) (l : list A) (s : S) : outcome S :=
  match l with
  | [] => Ret s
  | x :: l' => s' ← body x s; forM body l' s'
  end.

(** A Go [error]: [None] is [nil]. *)
Definition error : Type := option string.

(** ** Machine integers *)

Definition wrap64 (z : Z) : Z := (z + 2 ^ 63) mod 2 ^ 64 - 2 ^ 63.

Definition len {A} (l : list A) : Z := Z.of_nat (length l).

(** [l[:k]] for [0 <= k <= len l]. *)
Definition slice_to {A} (k : Z) (l : list A) : list A := take (Z.to_nat k) l.

(** [if maxResults > 0 && len(results) > maxResults { results = results[:maxResults] }] *)
Definition truncate {A} (maxResults : Z) (results : list A) : list A :=
  if (0 <? maxResults) && (maxResults <? len results)
  then slice_to maxResults results else results.

(** ** Document values: the dynamic types an [interface{}] holds here *)

Inductive Value : Type :=
| VNil                               (* the nil interface *)
| VBool (b : bool)
| VInt (n : Z)                       (* int *)
| VFloat (x : Q)                     (* float64 *)
| VString (s : string)
| VFloat32s (v : list Q)             (* []float32 *)
| VSlice (l : list Value)            (* []interface{} *)
| VMap (m : gmap string Value).      (* map[string]interface{} *)

(** ** Entries ([Entry] in the store) *)

Record Entry : Type := mkEntry {
  EValue : Value;
  Timestamp : Z;
  TTL : Z;
}.

(** [entry.TTL > 0 && now > entry.Timestamp+entry.TTL] *)
Definition expired (now : Z) (e : Entry) : bool :=
  (0 <? TTL e) && (wrap64 (Timestamp e + TTL e) <? now).

(** [entry.TTL == 0 || now <= entry.Timestamp+entry.TTL] (the test of sync) *)
Definition live_at_sync (now : Z) (e : Entry) : bool :=
  (TTL e =? 0) || (now <=? wrap64 (Timestamp e + TTL e)).

(** Wall clock in nanoseconds; [time.Now().Unix()] is its whole seconds. *)
Definition Unix (clock : Z) : Z := clock / 1000000000.

(** *** [float64] arithmetic *)

(** The nearest integer, ties to the even one. *)
Definition round_half_even (x : Q) : Z :=
  let n := Qfloor x in
  match (x - inject_Z n ?= 1 # 2)%Q with
  | Lt => n
  | Gt => n + 1
  | Eq => if Z.even n then n else n + 1
  end.

(** [floor (log2 x)] for a positive [x]. *)
Definition binary_exponent (x : Q) : Z :=
  if Qle_bool 1 x then Z.log2 (Qfloor x) else - Z.log2_up (Qceiling (/ x)).

(** [x * 2^k] *)
Definition scale2 (x : Q) (k : Z) : Q :=
  if 0 <=? k then (x * inject_Z (2 ^ k))%Q else (x / inject_Z (2 ^ (- k)))%Q.

(** The [float64] nearest to a positive real [x]: 53 significant bits, ties
    to even, with the fixed spacing of the subnormal numbers below 2^-1022.
    Overflow is left out: no value below comes near 2^1024. *)
Definition nearest_float64 (x : Q) : Q :=
  let e := Z.max (binary_exponent x) (-1022) in
  scale2 (inject_Z (round_half_even (scale2 x (52 - e)))) (e - 52).

(** The rounding of every [float64] operation and conversion. *)
Definition float64 (x : Q) : Q :=
  match (x ?= 0)%Q with
  | Eq => 0%Q
  | Gt => nearest_float64 x
  | Lt => (- nearest_float64 (- x))%Q
  end.

(** [int64(x)] for a [float64] within the range of [int64]: the fraction is
    dropped. *)
Definition Qtruncate (x : Q) : Z := if Qle_bool 0 x then Qfloor x else Qceiling x.

(** [int64(ttl.Seconds())] for a [time.Duration] of [d] nanoseconds.
    [Seconds] computes [float64(sec) + float64(nsec)/1e9] for
    [sec := d / Second] and [nsec := d % Second], and every operation
    rounds. *)
Definition seconds_of (sec nsec : Z) : Z :=
  Qtruncate (float64 (float64 (inject_Z sec)
                      + float64 (float64 (inject_Z nsec) / inject_Z 1000000000))).

Definition Seconds (d : Z) : Z :=
  seconds_of (Z.quot d 1000000000) (Z.rem d 1000000000).

#[global] Arguments float64 : simpl never.
#[global] Arguments seconds_of : simpl never.
#[global] Arguments Seconds : simpl never.

(** ** Trigram index (storage/trigram.go) *)

Module TrigramIndex.

Record t : Type := mk {
  trigrams : gmap string (gset string);   (* trigram -> document keys *)
  docs : gmap string string;              (* document key -> original text *)
}.

Record TextSearchResult : Type := mkResult {
  Key : string;
  Score : Q;
  Text : string;
}.

Definition NewTrigramIndex : t := {| trigrams := ∅; docs := ∅ |}.

(** [strings.ToLower] on the bytes of an ASCII string. *)
Definition lower_ascii (c : ascii) : ascii :=
  let n := nat_of_ascii c in
  if ((65 <=? n) && (n <=? 90))%nat then ascii_of_nat (n + 32) else c.

Fixpoint ToLower (s : string) : string :=
  match s with
  | EmptyString => EmptyString
  | String c s' => String (lower_ascii c) (ToLower s')
  end.

Definition generateTrigrams (text : string) : list string :=
  let text := ToLower text in
  if (String.length text <? 3)%nat then [text]
  else (fun i => substring i 3 text) <$> seq 0 (String.length text - 2).

Definition removeDocumentTrigrams (key text : string)
    (tg : gmap string (gset string)) : gmap string (gset string) :=
  foldl (fun tg trigram =>
           match tg !! trigram with
           | Some ds =>
               let ds' := ds ∖ {[key]} in
               if decide (size ds' = 0%nat) then delete trigram tg
               else <[trigram := ds']> tg
           | None => tg
           end) tg (generateTrigrams text).

Definition Update (key text : string) (ti : t) : t :=
  let tg := match docs ti !! key with
            | Some oldText => removeDocumentTrigrams key oldText (trigrams ti)
            | None => trigrams ti
            end in
  {| trigrams :=
       foldl (fun tg trigram =>
                <[trigram := {[key]} ∪ default ∅ (tg !! trigram)]> tg)
             tg (generateTrigrams text);
     docs := <[key := text]> (docs ti) |}.

Definition Remove (key : string) (ti : t) : t :=
  match docs ti !! key with
  | Some text =>
      {| trigrams := removeDocumentTrigrams key text (trigrams ti);
         docs := delete key (docs ti) |}
  | None => ti
  end.

(** [scores[doc]++] *)
Definition bump (sc : gmap string Z) (doc : string) : gmap string Z :=
  <[doc := default 0 (sc !! doc) + 1]> sc.

Definition count_matches (ti : t) (queryTrigrams : list string) : gmap string Z :=
  foldl (fun sc trigram =>
           match trigrams ti !! trigram with
           | Some ds => foldl bump sc (elements ds)
           | None => sc
           end) ∅ queryTrigrams.

(** The order [sort.Slice] establishes with [less i j := Score i > Score j]:
    no element is followed by one of strictly greater score. *)
Definition by_score (a b : TextSearchResult) : Prop :=
  Qle_bool (Score b) (Score a).

#[global] Instance by_score_dec a b : Decision (by_score a b) := _.

Definition Search (query : string) (maxResults : Z) (ti : t) : list TextSearchResult :=
  let queryTrigrams := generateTrigrams query in
  let scores := count_matches ti queryTrigrams in
  let maxQueryTrigrams := len queryTrigrams in
  let results :=
    (fun '(doc, matches) =>
       {| Key := doc;
          Score := inject_Z matches / inject_Z maxQueryTrigrams;
          Text := default EmptyString (docs ti !! doc) |})
      <$> map_to_list scores in
  truncate maxResults (merge_sort by_score results).

Definition FuzzySearch (query : string) (minScore : Q) (maxResults : Z) (ti : t)
    : list TextSearchResult :=
  let results := Search query 0 ti in
  let filtered := filter (fun r => Qle_bool minScore (Score r)) results in
  truncate maxResults filtered.

End TrigramIndex.

(** ** Vector index (VectorIndex) *)

(** [float32(math.Sqrt(float64(x)))], the one operation of the vector code
    with no rational counterpart. *)
Class Sqrt : Type := sqrt32 : Q -> Q.

Module VectorIndex.

Record t : Type := mk {
  vectors : gmap string (list Q);
  dim : Z;
}.

Record VectorSearchResult : Type := mkResult {
  Key : string;
  Score : Q;
}.

Definition NewVectorIndex (dimensions : Z) : t :=
  {| vectors := ∅; dim := dimensions |}.

Definition normalizeVector {root : Sqrt} (vec : list Q) : list Q :=
  let sum := foldl (fun sum v => sum + v * v)%Q 0%Q vec in
  let magnitude := sqrt32 sum in
  if negb (Qle_bool magnitude 0) then (fun v => v / magnitude)%Q <$> vec else vec.

(** [for i := range a { dotProduct += a[i] * b[i] }]: indexing [b] past its
    end panics. *)
Fixpoint cosineSimilarity (a b : list Q) (dotProduct : Q) : outcome Q :=
  match a, b with
  | [], _ => Ret dotProduct
  | _ :: _, [] => Panic "index out of range"
  | x :: a', y :: b' => cosineSimilarity a' b' (dotProduct + x * y)%Q
  end.

Definition mismatch (what : string) (expected got : Z) : string :=
  what +:+ " dimension mismatch: expected " +:+ pretty expected
       +:+ ", got " +:+ pretty got.

Definition Update {root : Sqrt} (key : string) (vector : list Q) (vi : t) : t * error :=
  if negb (len vector =? dim vi)
  then (vi, Some (mismatch "vector" (dim vi) (len vector)))
  else ({| vectors := <[key := normalizeVector vector]> (vectors vi);
           dim := dim vi |}, None).

Definition Remove (key : string) (vi : t) : t :=
  {| vectors := delete key (vectors vi); dim := dim vi |}.

Definition by_score (a b : VectorSearchResult) : Prop :=
  Qle_bool (Score b) (Score a).

#[global] Instance by_score_dec a b : Decision (by_score a b) := _.

Definition Search {root : Sqrt} (query : list Q) (k : Z) (vi : t)
    : outcome (list VectorSearchResult * error) :=
  if negb (len query =? dim vi)
  then Ret ([], Some (mismatch "query" (dim vi) (len query)))
  else
    let normalized := normalizeVector query in
    results ← forM (fun '(key, vec) results =>
                      similarity ← cosineSimilarity normalized vec 0%Q;
                      Ret (results ++ [{| Key := key; Score := similarity |}]))
                   (map_to_list (vectors vi)) [];
    let results := merge_sort by_score results in
    let k := if len results <? k then len results else k in
    if k <? 0 then Panic "slice bounds out of range"
    else Ret (slice_to k results, None).

End VectorIndex.

(** ** Ordered index

    The ordered indexes are trees of [github.com/google/btree], created with
    degree 32.  The embedding keeps the items of the root node in ascending
    order and follows that library's [items.find], [ReplaceOrInsert],
    [Delete] and [AscendGreaterOrEqual] on a root that is a leaf (up to 63
    items).  All comparisons go through [indexItem.Less] of this package,
    whose type assertions may panic. *)

Module BTree.

Record indexItem : Type := mkItem {
  key : string;
  value : Value;
}.

Definition conversion_panic : string :=
  "interface conversion: interface {} has another dynamic type".

(** [indexItem.Less]: the switch is on the dynamic type of the receiver's
    value; the argument's value is asserted to have the same type. *)
Definition Less (i than : indexItem) : outcome bool :=
  match value i with
  | VString v =>
      match value than with
      | VString w => Ret (String.ltb v w)
      | _ => Panic conversion_panic
      end
  | VInt v =>
      match value than with
      | VInt w => Ret (v <? w)
      | _ => Panic conversion_panic
      end
  | VFloat v =>
      match value than with
      | VFloat w => Ret (negb (Qle_bool w v))
      | _ => Panic conversion_panic
      end
  | _ => Ret false
  end.

(** The tree, as the ascending list of its items. *)
Abbreviation t := (list indexItem).

Definition New : t := [].

Definition Len (tr : t) : Z := len tr.

(** [sort.Search]: binary search for the least index in [i, j) at which
    [f] holds.  [fuel] is [j - i], which every iteration decreases, so the
    loop condition [i < j] is false when it reaches 0. *)
Fixpoint search_loop (fuel : nat) (f : nat -> outcome bool) (i j : nat) : outcome nat :=
  match fuel with
  | O => Ret i
  | S fuel' =>
      if (i <? j)%nat then
        let h := ((i + j) / 2)%nat in
        b ← f h;
        if negb b then search_loop fuel' f (h + 1)%nat j
        else search_loop fuel' f i h
      else Ret i
  end.

Definition sort_Search (n : nat) (f : nat -> outcome bool) : outcome nat :=
  search_loop n f 0%nat n.

(** [items.find] *)
Definition find (item : indexItem) (s : t) : outcome (nat * bool) :=
  i ← sort_Search (length s)
        (fun h => match s !! h with
                  | Some x => Less item x
                  | None => Panic "index out of range"
                  end);
  match i with
  | S i' =>
      match s !! i' with
      | Some x =>
          b ← Less x item;
          if negb b then Ret (i', true) else Ret (i, false)
      | None => Panic "index out of range"
      end
  | O => Ret (i, false)
  end.

Definition ReplaceOrInsert (item : indexItem) (tr : t) : outcome t :=
  match tr with
  | [] => Ret [item]
  | _ =>
      '(i, found) ← find item tr;
      if found : bool then Ret (<[i := item]> tr)
      else Ret (take i tr ++ item :: drop i tr)
  end.

Definition Delete (item : indexItem) (tr : t) : outcome t :=
  match tr with
  | [] => Ret tr
  | _ =>
      '(i, found) ← find item tr;
      if found : bool then Ret (delete i tr) else Ret tr
  end.

(** [AscendGreaterOrEqual pivot iterator] with an iterator that always
    continues: the items visited, in order. *)
Definition AscendGreaterOrEqual (pivot : indexItem) (tr : t) : outcome (list indexItem) :=
  '(index, _) ← find pivot tr;
  Ret (drop index tr).

End BTree.

(** ** Index manager (IndexManager) *)

(** [a == b] on two interface values: different dynamic types are unequal,
    and comparing two values of one uncomparable type panics. *)
Definition interface_eq (a b : Value) : outcome bool :=
  match a, b with
  | VNil, VNil => Ret true
  | VBool x, VBool y => Ret (Bool.eqb x y)
  | VInt x, VInt y => Ret (x =? y)
  | VFloat x, VFloat y => Ret (Qeq_bool x y)
  | VString x, VString y => Ret (String.eqb x y)
  | VFloat32s _, VFloat32s _ | VSlice _, VSlice _ | VMap _, VMap _ =>
      Panic "runtime error: comparing uncomparable type"
  | _, _ => Ret false
  end.

Module IndexManager.

Record t : Type := mk {
  trees : gmap string BTree.t;            (* field-based btree indexes *)
  vectors : gmap string VectorIndex.t;    (* vector indexes *)
  text : gmap string TrigramIndex.t;      (* text search indexes *)
}.

Definition NewIndexManager : t := {| trees := ∅; vectors := ∅; text := ∅ |}.

(** [if _, exists := m[field]; !exists { m[field] = fresh }] *)
Definition add_absent {A} (field : string) (fresh : A) (m : gmap string A) : gmap string A :=
  match m !! field with
  | Some _ => m
  | None => <[field := fresh]> m
  end.

Definition AddIndex (field indexType : string) (im : t) : t * error :=
  if String.eqb indexType "btree" then
    ({| trees := add_absent field BTree.New (trees im);
        vectors := vectors im; text := text im |}, None)
  else if String.eqb indexType "vector" then
    ({| trees := trees im;
        vectors := add_absent field (VectorIndex.NewVectorIndex 384) (vectors im);
        text := text im |}, None)
  else if String.eqb indexType "text" then
    ({| trees := trees im; vectors := vectors im;
        text := add_absent field TrigramIndex.NewTrigramIndex (text im) |}, None)
  else (im, Some ("unknown index type: " +:+ indexType)).

(** The three loops of [Update] over a map value [m]. *)
Definition update_trees (key : string) (m : gmap string Value)
    (trs : gmap string BTree.t) : outcome (gmap string BTree.t) :=
  forM (fun '(field, tree) acc =>
          match m !! field with
          | Some fieldValue =>
              tree' ← BTree.ReplaceOrInsert (BTree.mkItem key fieldValue) tree;
              Ret (<[field := tree']> acc)
          | None => Ret acc
          end) (map_to_list trs) trs.

(** The error of [vec.Update] is not looked at. *)
Definition update_vectors {root : Sqrt} (key : string) (m : gmap string Value)
    (vs : gmap string VectorIndex.t) : gmap string VectorIndex.t :=
  map_imap (fun field vec =>
              match m !! field with
              | Some (VFloat32s vector) => Some (VectorIndex.Update key vector vec).1
              | _ => Some vec
              end) vs.

Definition update_text (key : string) (m : gmap string Value)
    (ts : gmap string TrigramIndex.t) : gmap string TrigramIndex.t :=
  map_imap (fun field idx =>
              match m !! field with
              | Some (VString text) => Some (TrigramIndex.Update key text idx)
              | _ => Some idx
              end) ts.

Definition Update {root : Sqrt} (key : string) (value : Value) (im : t) : outcome (t * error) :=
  match value with
  | VMap m =>
      trees' ← update_trees key m (trees im);
      Ret ({| trees := trees';
              vectors := update_vectors key m (vectors im);
              text := update_text key m (text im) |}, None)
  | _ => Ret (im, None)
  end.

Definition remove_trees (key : string) (trs : gmap string BTree.t)
    : outcome (gmap string BTree.t) :=
  forM (fun '(field, tree) acc =>
          tree' ← BTree.Delete (BTree.mkItem key VNil) tree;
          Ret (<[field := tree']> acc)) (map_to_list trs) trs.

Definition Remove (key : string) (im : t) : outcome t :=
  trees' ← remove_trees key (trees im);
  Ret {| trees := trees';
         vectors := VectorIndex.Remove key <$> vectors im;
         text := TrigramIndex.Remove key <$> text im |}.

Definition RemoveIndex (field indexType : string) (im : t) : t * error :=
  let not_found := Some ("index not found: " +:+ field +:+ " (" +:+ indexType +:+ ")") in
  if String.eqb indexType "btree" then
    match trees im !! field with
    | Some _ => ({| trees := delete field (trees im);
                    vectors := vectors im; text := text im |}, None)
    | None => (im, not_found)
    end
  else if String.eqb indexType "vector" then
    match vectors im !! field with
    | Some _ => ({| trees := trees im; vectors := delete field (vectors im);
                    text := text im |}, None)
    | None => (im, not_found)
    end
  else if String.eqb indexType "text" then
    match text im !! field with
    | Some _ => ({| trees := trees im; vectors := vectors im;
                    text := delete field (text im) |}, None)
    | None => (im, not_found)
    end
  else (im, Some ("unknown index type: " +:+ indexType)).

(** The keys of the visited items whose value equals the filter value. *)
Definition field_matches (value : Value) (tree : BTree.t) : outcome (gset string) :=
  visited ← BTree.AscendGreaterOrEqual (BTree.mkItem EmptyString value) tree;
  forM (fun item fieldResults =>
          same ← interface_eq (BTree.value item) value;
          Ret (if same : bool then {[BTree.key item]} ∪ fieldResults else fieldResults))
       visited ∅.

(** The loop of [Search]; the state is [(results, first)]. *)
Definition search_fields (im : t) (query : gmap string Value)
    : outcome (gset string * bool) :=
  forM (fun '(field, value) '(results, first) =>
          match trees im !! field with
          | Some tree =>
              fieldResults ← field_matches value tree;
              if first : bool then Ret (fieldResults, false)
              else Ret (filter (fun k => k ∈ fieldResults) results, first)
          | None => Ret (results, first)
          end) (map_to_list query) (∅, true).

Definition Search (query : gmap string Value) (im : t) : outcome (list string * error) :=
  '(results, _) ← search_fields im query;
  Ret (elements results, None).

End IndexManager.

(** ** Statistics (StoreStats) *)

Record IndexCount : Type := mkIndexCount {
  Count : Z;
  IndexEntryCount : Z;
}.

Record StoreStats : Type := mkStats {
  Reads : Z;
  Writes : Z;
  Deletes : Z;
  SyncCount : Z;
  LastSyncTime : Z;
  DataSize : Z;
  FileSize : Z;
  EntryCount : Z;
  ExpiredCount : Z;
  TextIndexes : IndexCount;
  VectorIndexes : IndexCount;
  BTreeIndexes : IndexCount;
  AvgReadLatency : Q;
  AvgWriteLatency : Q;
  AvgSyncLatency : Q;
  LastGC : Z;
}.

Definition zero_stats : StoreStats :=
  mkStats 0 0 0 0 0 0 0 0 0 (mkIndexCount 0 0) (mkIndexCount 0 0) (mkIndexCount 0 0)
          0%Q 0%Q 0%Q 0.

(** [(alpha * newLatency) + ((1 - alpha) * currentAvg)] with [alpha = 0.1];
    [elapsed] is the measured duration in seconds. *)
Definition ewma (currentAvg elapsed : Q) : Q :=
  let newLatency := (elapsed * 1000)%Q in
  let alpha := (1 # 10)%Q in
  ((alpha * newLatency) + ((1 - alpha) * currentAvg))%Q.

(** ** The codec (FastYAMLEncoder over [gopkg.in/yaml.v3]) *)

Class Codec : Type := {
  Encode : gmap string Entry -> option (list byte);   (* [None]: encode error *)
  Decode : list byte -> option (gmap string Entry);   (* [None]: decode error *)
}.

(** ** The store (Store)

    The mapped region is a shared mapping of the data file, so [mm] is also
    the content of the file.  Opening, flushing, unmapping and mapping are
    taken to succeed, except where the arguments make them fail: truncating
    to a negative length and mapping an empty file. *)

Module Store.

Record t : Type := mk {
  locked : bool;                 (* the embedded RWMutex is held *)
  mm : list byte;
  data : gmap string Entry;
  dirty : bool;
  stats : StoreStats;
  indexes : IndexManager.t;
}.

Record StoreOptions : Type := mkOptions {
  InitialSize : Z;
  MaxSize : Z;
  SyncInterval : Z;
  Debug : bool;
}.

Definition DefaultOptions : StoreOptions :=
  {| InitialSize := Z.shiftl 32 20; MaxSize := Z.shiftl 512 20;
     SyncInterval := 60 * 1000000000; Debug := false |}.

Definition set_locked (b : bool) (s : t) : t :=
  mk b (mm s) (data s) (dirty s) (stats s) (indexes s).
Definition set_mm (m : list byte) (s : t) : t :=
  mk (locked s) m (data s) (dirty s) (stats s) (indexes s).
Definition set_data (d : gmap string Entry) (s : t) : t :=
  mk (locked s) (mm s) d (dirty s) (stats s) (indexes s).
Definition set_dirty (b : bool) (s : t) : t :=
  mk (locked s) (mm s) (data s) b (stats s) (indexes s).
Definition set_stats (st : StoreStats) (s : t) : t :=
  mk (locked s) (mm s) (data s) (dirty s) st (indexes s).
Definition set_indexes (im : IndexManager.t) (s : t) : t :=
  mk (locked s) (mm s) (data s) (dirty s) (stats s) im.

(** [s.Lock()] and [s.RLock()]: the mutex is not reentrant. *)
Definition Lock (s : t) : outcome t :=
  if locked s then Block else Ret (set_locked true s).
Definition Unlock (s : t) : t := set_locked false s.

Definition entries (s : t) : Z := Z.of_nat (size (data s)).

Definition updateReadStats (elapsed : Q) (s : t) : t :=
  let st := stats s in
  set_stats (mkStats (Reads st + 1) (Writes st) (Deletes st) (SyncCount st)
               (LastSyncTime st) (DataSize st) (FileSize st) (EntryCount st)
               (ExpiredCount st) (TextIndexes st) (VectorIndexes st) (BTreeIndexes st)
               (ewma (AvgReadLatency st) elapsed) (AvgWriteLatency st)
               (AvgSyncLatency st) (LastGC st)) s.

Definition updateWriteStats (elapsed : Q) (s : t) : t :=
  let st := stats s in
  set_stats (mkStats (Reads st) (Writes st + 1) (Deletes st) (SyncCount st)
               (LastSyncTime st) (DataSize st) (FileSize st) (entries s)
               (ExpiredCount st) (TextIndexes st) (VectorIndexes st) (BTreeIndexes st)
               (AvgReadLatency st) (ewma (AvgWriteLatency st) elapsed)
               (AvgSyncLatency st) (LastGC st)) s.

Definition updateSyncStats (clock : Z) (elapsed : Q) (s : t) : t :=
  let st := stats s in
  set_stats (mkStats (Reads st) (Writes st) (Deletes st) (SyncCount st + 1)
               clock (DataSize st) (len (mm s)) (EntryCount st)
               (ExpiredCount st) (TextIndexes st) (VectorIndexes st) (BTreeIndexes st)
               (AvgReadLatency st) (AvgWriteLatency st)
               (ewma (AvgSyncLatency st) elapsed) (LastGC st)) s.

Definition updateStats (dataSize : Z) (s : t) : t :=
  let st := stats s in
  set_stats (mkStats (Reads st) (Writes st) (Deletes st) (SyncCount st)
               (LastSyncTime st) dataSize (len (mm s)) (entries s)
               (ExpiredCount st) (TextIndexes st) (VectorIndexes st) (BTreeIndexes st)
               (AvgReadLatency st) (AvgWriteLatency st)
               (AvgSyncLatency st) (LastGC st)) s.

(** [s.stats.Writes++] / [s.stats.Deletes++] *)
Definition count_write (s : t) : t :=
  let st := stats s in
  set_stats (mkStats (Reads st) (Writes st + 1) (Deletes st) (SyncCount st)
               (LastSyncTime st) (DataSize st) (FileSize st) (EntryCount st)
               (ExpiredCount st) (TextIndexes st) (VectorIndexes st) (BTreeIndexes st)
               (AvgReadLatency st) (AvgWriteLatency st)
               (AvgSyncLatency st) (LastGC st)) s.

Definition count_delete (s : t) : t :=
  let st := stats s in
  set_stats (mkStats (Reads st) (Writes st) (Deletes st + 1) (SyncCount st)
               (LastSyncTime st) (DataSize st) (FileSize st) (EntryCount st)
               (ExpiredCount st) (TextIndexes st) (VectorIndexes st) (BTreeIndexes st)
               (AvgReadLatency st) (AvgWriteLatency st)
               (AvgSyncLatency st) (LastGC st)) s.

(** The sum a [for ... += ...] loop over the indexes adds to a counter. *)
Definition total {A} (count : A -> Z) (m : gmap string A) : Z :=
  foldl (fun n kv => n + count kv.2) 0 (map_to_list m).

Definition GetStats (s : t) : StoreStats * t :=
  let st := stats s in
  let im := indexes s in
  let st' :=
    mkStats (Reads st) (Writes st) (Deletes st) (SyncCount st)
      (LastSyncTime st) (DataSize st) (len (mm s)) (entries s) (ExpiredCount st)
      (mkIndexCount (Z.of_nat (size (IndexManager.text im)))
         (IndexEntryCount (TextIndexes st)
          + total (fun idx => Z.of_nat (size (TrigramIndex.docs idx)))
                  (IndexManager.text im)))
      (mkIndexCount (Z.of_nat (size (IndexManager.vectors im)))
         (IndexEntryCount (VectorIndexes st)
          + total (fun idx => Z.of_nat (size (VectorIndex.vectors idx)))
                  (IndexManager.vectors im)))
      (mkIndexCount (Z.of_nat (size (IndexManager.trees im)))
         (IndexEntryCount (BTreeIndexes st)
          + total BTree.Len (IndexManager.trees im)))
      (AvgReadLatency st) (AvgWriteLatency st) (AvgSyncLatency st) (LastGC st) in
  (st', set_stats st' s).

(** *** Index administration *)

Definition CreateIndex (field indexType : string) (s : t) : t * error :=
  let '(im, err) := IndexManager.AddIndex field indexType (indexes s) in
  (set_indexes im s, err).

Definition RemoveIndex (field indexType : string) (s : t) : t * error :=
  let '(im, err) := IndexManager.RemoveIndex field indexType (indexes s) in
  (set_indexes im s, err).

Section operations.
Context {root : Sqrt} {codec : Codec}.

Definition wrap_error (what : string) (err : error) : error :=
  match err with
  | Some e => Some (what +:+ ": " +:+ e)
  | None => None
  end.

(** *** CRUD.  [clock] is the wall clock in nanoseconds when the call
    reads it, [elapsed] the duration the call measures for its latency
    statistics. *)

(** Returns [(entry, exists)] as an option, and whether the asynchronous
    [go s.Delete(key)] was started. *)
Definition Get (key : string) (clock : Z) (elapsed : Q) (s : t)
    : outcome (option Entry * bool * t) :=
  s ← Lock s;
  let found :=
    match data s !! key with
    | Some entry =>
        if expired (Unix clock) entry then (None, true) else (Some entry, false)
    | None => (None, false)
    end in
  Ret (found, updateReadStats elapsed (Unlock s)).

(** [Set]; the name [Set] itself is reserved. *)
Definition Set_ (key : string) (value : Value) (clock : Z) (elapsed : Q) (s : t)
    : outcome (t * error) :=
  s ← Lock s;
  let entry := {| EValue := value; Timestamp := Unix clock; TTL := 0 |} in
  let s := set_dirty true (set_data (<[key := entry]> (data s)) s) in
  '(im, err) ← IndexManager.Update key value (indexes s);
  Ret (updateWriteStats elapsed (Unlock (set_indexes im s)),
       wrap_error "failed to update indexes" err).

Definition SetWithTTL (key : string) (value : Value) (ttl : Z) (clock : Z) (s : t)
    : outcome (t * error) :=
  s ← Lock s;
  let entry := {| EValue := value; Timestamp := Unix clock; TTL := Seconds ttl |} in
  let s := set_dirty true (set_data (<[key := entry]> (data s)) s) in
  '(im, err) ← IndexManager.Update key value (indexes s);
  let s := set_indexes im s in
  match err with
  | Some _ => Ret (Unlock s, wrap_error "failed to update indexes" err)
  | None => Ret (Unlock (count_write s), None)
  end.

Definition Delete (key : string) (s : t) : outcome t :=
  s ← Lock s;
  match data s !! key with
  | Some _ =>
      let s := set_dirty true (set_data (delete key (data s)) s) in
      im ← IndexManager.Remove key (indexes s);
      Ret (Unlock (count_delete (set_indexes im s)))
  | None => Ret (Unlock s)
  end.

(** *** Flushing to the mapped file *)

Definition cleanData (now : Z) (d : gmap string Entry) : gmap string Entry :=
  filter (fun kv => live_at_sync now kv.2) d.

(** [copy(s.mm, data)] followed by zeroing [s.mm[len(data):]]. *)
Definition write_region (bs region : list byte) : list byte :=
  take (length region) bs ++ replicate (length region - length bs) x00.

(** [for newSize < requiredSize { newSize *= 2 }].  After 64 doublings an
    int64 is 0, so a loop that has not left after 65 tests never leaves. *)
Fixpoint doubling (fuel : nat) (newSize requiredSize : Z) : outcome Z :=
  match fuel with
  | O => Spin
  | S fuel' =>
      if newSize <? requiredSize
      then doubling fuel' (wrap64 (newSize * 2)) requiredSize
      else Ret newSize
  end.

(** [file.Truncate(newSize)] on the mapped file. *)
Definition truncate_file (newSize : Z) (file : list byte) : list byte :=
  take (Z.to_nat newSize) file ++ replicate (Z.to_nat newSize - length file) x00.

(** [resize], with the call of [s.sync()] it makes given as [sync]. *)
Definition resize_with (sync : t -> outcome (t * error)) (newSize : Z) (s : t)
    : outcome (t * error) :=
  s ← Lock s;
  '(s, err) ← sync s;
  match err with
  | Some _ => Ret (Unlock s, wrap_error "failed to sync before resize" err)
  | None =>
      if newSize <? 0 then Ret (Unlock s, Some "failed to truncate: invalid argument")
      else if newSize =? 0 then
        Ret (Unlock (set_mm [] s), Some "failed to remap: invalid argument")
      else Ret (Unlock (set_mm (truncate_file newSize (mm s)) s), None)
  end.

Definition growFile_with (sync : t -> outcome (t * error)) (requiredSize : Z) (s : t)
    : outcome (t * error) :=
  let currentSize := len (mm s) in
  newSize ← doubling 65 (wrap64 (currentSize * 2)) requiredSize;
  resize_with sync newSize s.

Definition sync_with (sync : t -> outcome (t * error)) (clock : Z) (s : t)
    : outcome (t * error) :=
  if negb (dirty s) then Ret (s, None)
  else
    match Encode (cleanData (Unix clock) (data s)) with
    | None => Ret (s, Some "failed to encode data")
    | Some bs =>
        '(s, err) ← (if len (mm s) <? len bs
                      then growFile_with sync (len bs) s
                      else Ret (s, None));
        match err with
        | Some _ => Ret (s, wrap_error "failed to grow file" err)
        | None =>
            let s := set_mm (write_region bs (mm s)) s in
            Ret (updateStats (len bs) (set_dirty false s), None)
        end
    end.

(** [sync] calls [growFile], which calls [resize], which calls [sync]:
    [fuel] bounds the depth of that recursion.  Every [sync] that finds the
    store dirty reads the clock: [clock 0] is the reading of this call,
    [clock 1] the reading of the [sync] that its [resize] calls, and so
    on. *)
Fixpoint sync (fuel : nat) (clock : nat -> Z) (s : t) : outcome (t * error) :=
  match fuel with
  | O => Spin
  | S fuel' => sync_with (sync fuel' (fun n => clock (S n))) (clock O) s
  end.

(** [resize] and [growFile]; [clock] holds the readings of the [sync] that
    [resize] calls. *)
Definition resize (fuel : nat) (clock : nat -> Z) (newSize : Z) (s : t)
    : outcome (t * error) :=
  resize_with (sync fuel clock) newSize s.

Definition growFile (fuel : nat) (clock : nat -> Z) (requiredSize : Z) (s : t)
    : outcome (t * error) :=
  growFile_with (sync fuel clock) requiredSize s.

(** [Sync] calls [sync] without taking the lock. *)
Definition Sync (fuel : nat) (clock : nat -> Z) (s : t) : outcome (t * error) :=
  sync fuel clock s.

Definition Close (fuel : nat) (clock : nat -> Z) (s : t) : outcome (t * error) :=
  s ← Lock s;
  '(s, err) ← sync fuel clock s;
  match err with
  | Some _ => Ret (Unlock s, wrap_error "failed to sync on close" err)
  | None => Ret (Unlock s, None)
  end.

(** *** Loading *)

Fixpoint findContentSize (region : list byte) : nat :=
  match region with
  | [] => O
  | b :: rest => if Byte.eqb b x00 then O else S (findContentSize rest)
  end.

Fixpoint load_indexes (clock : Z) (entries : list (string * Entry))
    (im : IndexManager.t) : outcome (IndexManager.t * error) :=
  match entries with
  | [] => Ret (im, None)
  | (key, entry) :: rest =>
      if expired (Unix clock) entry then load_indexes clock rest im
      else
        '(im, err) ← IndexManager.Update key (EValue entry) im;
        match err with
        | Some _ =>
            Ret (im, wrap_error ("failed to update indexes for key " +:+ key) err)
        | None => load_indexes clock rest im
        end
  end.

Definition load (clock : Z) (s : t) : outcome (t * error) :=
  s ← Lock s;
  let size := findContentSize (mm s) in
  match size with
  | O => Ret (Unlock s, None)
  | _ =>
      match Decode (take size (mm s)) with
      | None => Ret (Unlock s, Some "failed to decode YAML")
      | Some tempData =>
          '(im, err) ← load_indexes clock (map_to_list tempData) (indexes s);
          let s := set_indexes im s in
          match err with
          | Some _ => Ret (Unlock s, err)
          | None =>
              Ret (Unlock (updateStats (Z.of_nat size) (set_data tempData s)), None)
          end
      end
  end.

(** [NewStore] on a data file with content [file] (empty if it did not
    exist).  The periodic task it starts is [periodic] below. *)
Definition NewStore (file : list byte) (opts : StoreOptions) (clock : Z)
    : outcome (option t * error) :=
  let size := len file in
  let file := if size <? InitialSize opts
              then truncate_file (InitialSize opts) file else file in
  match file with
  | [] => Ret (None, Some "failed to map file: invalid argument")
  | _ =>
      let st := mkStats 0 0 0 0 0 0 size 0 0 (mkIndexCount 0 0) (mkIndexCount 0 0)
                  (mkIndexCount 0 0) 0%Q 0%Q 0%Q 0 in
      let store := mk false file ∅ false st IndexManager.NewIndexManager in
      '(store, err) ← load clock store;
      match err with
      | Some _ => Ret (None, wrap_error "error loading existing data" err)
      | None => Ret (Some store, None)
      end
  end.

(** *** TTL garbage collection and the periodic task *)

Definition gc_loop (now : Z) (s : t) : outcome (t * Z) :=
  forM (fun '(key, entry) '(s, expiredCount) =>
          if expired now entry then
            let s := set_data (delete key (data s)) s in
            im ← IndexManager.Remove key (indexes s);
            Ret (set_dirty true (set_indexes im s), expiredCount + 1)
          else Ret (s, expiredCount))
       (map_to_list (data s)) (s, 0).

Definition gcExpiredEntries (clock : Z) (s : t) : outcome t :=
  s ← Lock s;
  '(s, expiredCount) ← gc_loop (Unix clock) s;
  let st := stats s in
  let s :=
    if 0 <? expiredCount then
      set_stats (mkStats (Reads st) (Writes st) (Deletes st) (SyncCount st)
                   (LastSyncTime st) (DataSize st) (FileSize st) (entries s)
                   (ExpiredCount st + expiredCount) (TextIndexes st)
                   (VectorIndexes st) (BTreeIndexes st) (AvgReadLatency st)
                   (AvgWriteLatency st) (AvgSyncLatency st) clock) s
    else s in
  Ret (Unlock s).

(** One tick of [periodicSync]; the error of [sync] is only logged.
    [clock] holds the readings of [sync], [synced] is the reading of
    [updateSyncStats] and [collected] the one of [gcExpiredEntries]. *)
Definition periodic (fuel : nat) (clock : nat -> Z) (synced collected : Z) (elapsed : Q)
    (s : t) : outcome t :=
  '(s, _) ← sync fuel clock s;
  gcExpiredEntries collected (updateSyncStats synced elapsed s).

End operations.

(** *** Search planner *)

Record SearchQuery : Type := mkQuery {
  Text : string;
  Vector : list Q;
  Filters : gmap string Value;
  MaxResults : Z;
  MinScore : Q;
}.

Record SearchResult : Type := mkResult {
  Key : string;
  RValue : Value;
  TextScore : Q;
  VecScore : Q;
  Combined : Q;
}.

Definition calculateCombinedScore (textScore vectorScore : Q) : Q :=
  ((textScore + vectorScore) / 2)%Q.

Definition by_combined (a b : SearchResult) : Prop :=
  Qle_bool (Combined b) (Combined a).

#[global] Instance by_combined_dec a b : Decision (by_combined a b) := _.

Definition sortSearchResults (results : list SearchResult) : list SearchResult :=
  merge_sort by_combined results.

Definition combineResults (text : list TrigramIndex.TextSearchResult)
    (vector : list VectorIndex.VectorSearchResult) (filters : list string) (s : t)
    : list SearchResult :=
  (* Process text results *)
  let scores : gmap string SearchResult :=
    foldl (fun scores r =>
             <[TrigramIndex.Key r :=
                 {| Key := TrigramIndex.Key r; RValue := VNil;
                    TextScore := TrigramIndex.Score r;
                    VecScore := 0%Q; Combined := 0%Q |}]> scores) ∅ text in
  (* Process vector results *)
  let scores :=
    foldl (fun scores r =>
             match scores !! VectorIndex.Key r with
             | Some result =>
                 <[VectorIndex.Key r :=
                     {| Key := Key result; RValue := RValue result;
                        TextScore := TextScore result;
                        VecScore := VectorIndex.Score r;
                        Combined := calculateCombinedScore (TextScore result)
                                      (VectorIndex.Score r) |}]> scores
             | None =>
                 <[VectorIndex.Key r :=
                     {| Key := VectorIndex.Key r; RValue := VNil;
                        TextScore := 0%Q; VecScore := VectorIndex.Score r;
                        Combined := VectorIndex.Score r |}]> scores
             end) scores vector in
  (* Apply filters *)
  let scores :=
    if 0 <? len filters then
      foldl (fun filtered key =>
               match scores !! key with
               | Some result => <[key := result]> filtered
               | None => filtered
               end) ∅ filters
    else scores in
  (* Get values for results *)
  foldl (fun results '(key, result) =>
           match data s !! key with
           | Some entry =>
               results ++ [{| Key := Key result; RValue := EValue entry;
                              TextScore := TextScore result;
                              VecScore := VecScore result;
                              Combined := Combined result |}]
           | None => results
           end) [] (map_to_list scores).

Section planner.
Context {root : Sqrt}.

(** The text stage: every text index is asked for its fuzzy matches. *)
Definition text_stage (query : SearchQuery) (s : t) : list TrigramIndex.TextSearchResult :=
  if String.eqb (Text query) EmptyString then []
  else
    foldl (fun textResults '(_, idx) =>
             textResults ++ TrigramIndex.FuzzySearch (Text query) (MinScore query)
                              (MaxResults query) idx)
          [] (map_to_list (IndexManager.text (indexes s))).

(** The loop of the vector stage; the first error ends the search. *)
Fixpoint vector_loop (vector : list Q) (maxResults : Z)
    (idxs : list (string * VectorIndex.t))
    (vectorResults : list VectorIndex.VectorSearchResult)
    : outcome (list VectorIndex.VectorSearchResult * error) :=
  match idxs with
  | [] => Ret (vectorResults, None)
  | (_, idx) :: rest =>
      '(results, err) ← VectorIndex.Search vector maxResults idx;
      match err with
      | Some _ => Ret ([], wrap_error "vector search error" err)
      | None => vector_loop vector maxResults rest (vectorResults ++ results)
      end
  end.

Definition vector_stage (query : SearchQuery) (s : t)
    : outcome (list VectorIndex.VectorSearchResult * error) :=
  if 0 <? len (Vector query)
  then vector_loop (Vector query) (MaxResults query)
         (map_to_list (IndexManager.vectors (indexes s))) []
  else Ret ([], None).

Definition filter_stage (query : SearchQuery) (s : t) : outcome (list string * error) :=
  if (0 <? size (Filters query))%nat then
    '(results, err) ← IndexManager.Search (Filters query) (indexes s);
    Ret (results, wrap_error "filter search error" err)
  else Ret ([], None).

Definition Search (query : SearchQuery) (s : t) : outcome (list SearchResult * error) :=
  _ ← Lock s;
  let textResults := text_stage query s in
  '(vectorResults, err) ← vector_stage query s;
  match err with
  | Some _ => Ret ([], err)
  | None =>
      '(filterResults, err) ← filter_stage query s;
      match err with
      | Some _ => Ret ([], err)
      | None =>
          let combined := combineResults textResults vectorResults filterResults s in
          let combined := sortSearchResults combined in
          Ret (truncate (MaxResults query) combined, None)
      end
  end.

End planner.

End Store.

(** * Vocabulary of the specification *)

(** ** Trigram search *)

(** The posting set of a trigram, and the number of query trigrams (with
    multiplicity) whose posting contains a key. *)
Definition posting (ti : TrigramIndex.t) (trigram : string) : gset string :=
  default ∅ (TrigramIndex.trigrams ti !! trigram).

Definition matches (ti : TrigramIndex.t) (query key : string) : Z :=
  len (filter (fun trigram => key ∈ posting ti trigram) (TrigramIndex.generateTrigrams query)).

(** One round of the counting loop of [TrigramIndex.Search]. *)
Definition count_step (ti : TrigramIndex.t) (sc : gmap string Z) (trigram : string)
    : gmap string Z :=
  match TrigramIndex.trigrams ti !! trigram with
  | Some ds => foldl TrigramIndex.bump sc (elements ds)
  | None => sc
  end.

(** The results of [TrigramIndex.Search] before they are sorted. *)
Definition scored (ti : TrigramIndex.t) (query : string) : list TrigramIndex.TextSearchResult :=
  (fun '(doc, m) =>
     {| TrigramIndex.Key := doc;
        TrigramIndex.Score := inject_Z m / inject_Z (len (TrigramIndex.generateTrigrams query));
        TrigramIndex.Text := default EmptyString (TrigramIndex.docs ti !! doc) |})
    <$> map_to_list (TrigramIndex.count_matches ti (TrigramIndex.generateTrigrams query)).

(** The postings of a trigram map, and the postings [TrigramIndex.Update]
    starts from once the previous text of the key is retracted. *)
Definition post (tg : gmap string (gset string)) (trigram : string) : gset string :=
  default ∅ (tg !! trigram).

Definition retracted (key : string) (ti : TrigramIndex.t) : gmap string (gset string) :=
  match TrigramIndex.docs ti !! key with
  | Some oldText => TrigramIndex.removeDocumentTrigrams key oldText (TrigramIndex.trigrams ti)
  | None => TrigramIndex.trigrams ti
  end.

(** The postings hold exactly the trigrams of the remembered texts.
    [NewTrigramIndex] establishes this and [Update] and [Remove] keep it. *)
Definition coherent (ti : TrigramIndex.t) : Prop :=
  forall trigram key,
    key ∈ posting ti trigram <->
    exists text, TrigramIndex.docs ti !! key = Some text
                 /\ trigram ∈ TrigramIndex.generateTrigrams text.

(** The text is ASCII: every byte is below 128.  On such a text
    [strings.ToLower] maps the letters A to Z and nothing else. *)
Definition ascii_only (text : string) : Prop :=
  forall i c, String.get i text = Some c -> (nat_of_ascii c < 128)%nat.

(** The lower-case letter of an upper-case ASCII letter; any other byte is
    left as it is. *)
Definition upper_letters : string := "ABCDEFGHIJKLMNOPQRSTUVWXYZ".
Definition lower_letters : string := "abcdefghijklmnopqrstuvwxyz".

Definition lower_letter (c : ascii) : ascii :=
  match String.index 0 (String c EmptyString) upper_letters with
  | Some i => default c (String.get i lower_letters)
  | None => c
  end.

(** ** Vector indexes: every stored vector has the dimension of its index.
    [NewVectorIndex] establishes this and [Update] and [Remove] keep it. *)
Definition vector_wf (vi : VectorIndex.t) : Prop :=
  map_Forall (fun _ vec => len vec = VectorIndex.dim vi) (VectorIndex.vectors vi).

Definition vectors_wf (im : IndexManager.t) : Prop :=
  map_Forall (fun _ vi => vector_wf vi) (IndexManager.vectors im).

(** ** Index types *)

Definition known_type (indexType : string) : Prop :=
  indexType = "btree" \/ indexType = "vector" \/ indexType = "text".

Definition index_present (field indexType : string) (im : IndexManager.t) : Prop :=
  (indexType = "btree" /\ is_Some (IndexManager.trees im !! field))
  \/ (indexType = "vector" /\ is_Some (IndexManager.vectors im !! field))
  \/ (indexType = "text" /\ is_Some (IndexManager.text im !! field)).

(** ** Scenarios *)

(** A sequence of [Set] calls, each with the clock reading and the latency it
    measures. *)
Fixpoint run_sets {root : Sqrt} (calls : list (string * Value * Z * Q)) (s : Store.t)
    : outcome Store.t :=
  match calls with
  | [] => Ret s
  | (key, value, clock, elapsed) :: rest =>
      '(s, _) ← Store.Set_ key value clock elapsed s;
      run_sets rest s
  end.

(** [SetWithTTL(key, value, ttl)] at [clock], then [Get(key)] once the clock
    has advanced by [advance] nanoseconds: what [Get] returns. *)
Definition get_after_ttl {root : Sqrt} (key : string) (value : Value) (ttl clock advance : Z)
    (s : Store.t) : outcome (option Entry) :=
  '(s, _) ← Store.SetWithTTL key value ttl clock s;
  '(found, _) ← Store.Get key (clock + advance) 0%Q s;
  Ret found.1.

(** ** Flushing *)

(** A flush that has to grow the file: the store is dirty and the encoded
    clean map [bs] is longer than the mapped region. *)
Definition must_grow {codec : Codec} (clock : Z) (s : Store.t) (bs : list byte) : Prop :=
  Store.dirty s = true
  /\ Encode (Store.cleanData (Unix clock) (Store.data s)) = Some bs
  /\ len (Store.mm s) < len bs.

(** The encoded block of a region: its bytes up to the first zero byte. *)
Definition content (region : list byte) : list byte :=
  take (Store.findContentSize region) region.

(** The file [NewStore] maps: the data file, zero-extended to the initial
    size. *)
Definition mapped_file (file : list byte) (opts : Store.StoreOptions) : list byte :=
  if len file <? Store.InitialSize opts
  then Store.truncate_file (Store.InitialSize opts) file else file.

(** ** Ordered indexes and filters *)

(** The values [indexItem.Less] orders. *)
Definition scalar (v : Value) : Prop :=
  match v with
  | VString _ | VInt _ | VFloat _ => True
  | _ => False
  end.

Definition without_filters (query : Store.SearchQuery) : Store.SearchQuery :=
  {| Store.Text := Store.Text query; Store.Vector := Store.Vector query;
     Store.Filters := ∅; Store.MaxResults := Store.MaxResults query;
     Store.MinScore := Store.MinScore query |}.

(** * Examples *)

(** A square root that is exact on perfect squares. *)
Definition isqrt : Sqrt := fun x => inject_Z (Z.sqrt (Qfloor x)).

(** The document of the persistence scenario and its YAML text. *)
Definition alpha_doc : Value := VMap {[ "title" := VString "alpha" ]}.

Definition alpha_map (timestamp : Z) : gmap string Entry :=
  {[ "x" := {| EValue := alpha_doc; Timestamp := timestamp; TTL := 0 |} ]}.

Definition newline : string := String (ascii_of_nat 10) EmptyString.

Definition alpha_yaml : list byte :=
  list_byte_of_string
    ("x:" +:+ newline +:+ "  value:" +:+ newline +:+ "    title: alpha" +:+ newline
     +:+ "  timestamp: 100" +:+ newline).

Definition is_alpha_doc (v : Value) : bool :=
  match v with
  | VMap m =>
      match map_to_list m with
      | [(k, VString a)] => String.eqb k "title" && String.eqb a "alpha"
      | _ => false
      end
  | _ => false
  end.

Definition is_alpha_map (m : gmap string Entry) : bool :=
  match map_to_list m with
  | [(k, e)] =>
      String.eqb k "x" && is_alpha_doc (EValue e) && (Timestamp e =? 100) && (TTL e =? 0)
  | _ => false
  end.

Definition bytes_eqb (a b : list byte) : bool :=
  (length a =? length b)%nat && forallb (fun p => Byte.eqb p.1 p.2) (zip a b).

(** A codec for the examples: it knows the one document of the persistence
    scenario. *)
Definition alpha_codec : Codec :=
  {| Encode m := if is_alpha_map m then Some alpha_yaml else None;
     Decode bs := if bytes_eqb bs alpha_yaml then Some (alpha_map 100) else None |}.

(** A store opened on a new file of [size] bytes. *)
Definition empty_store (size : Z) : Store.t :=
  Store.mk false (replicate (Z.to_nat size) x00) ∅ false
    (mkStats 0 0 0 0 0 0 0 0 0 (mkIndexCount 0 0) (mkIndexCount 0 0) (mkIndexCount 0 0)
       0%Q 0%Q 0%Q 0)
    IndexManager.NewIndexManager.

(** The state of a call that returned. *)
Definition returned {A} (default : A) (o : outcome (A * error)) : A :=
  match o with
  | Ret (a, _) => a
  | _ => default
  end.

(** [CreateIndex(field, indexType)] then [Set(key, value)] at 100 s on a
    fresh store. *)
Definition indexed_store (indexes : list (string * string)) (key : string) (value : Value)
    : Store.t :=
  let s := foldl (fun s '(field, indexType) => (Store.CreateIndex field indexType s).1)
             (empty_store 64) indexes in
  returned s (Store.Set_ (root := isqrt) key value 100000000000 0%Q s).

Definition tagged_store : Store.t :=
  indexed_store [("title", "text"); ("tag", "btree")] "k1"
    (VMap (<["title" := VString "hello"]> {[ "tag" := VString "red" ]})).

Definition embedding_store : Store.t :=
  foldl (fun s '(field, indexType) => (Store.CreateIndex field indexType s).1)
    (empty_store 64) [("embedding", "vector")].

Definition short_embedding : Value :=
  VMap {[ "embedding" := VFloat32s [1%Q; 0%Q; 0%Q] ]}.

Definition red_query : Store.SearchQuery :=
  {| Store.Text := "hello"; Store.Vector := [];
     Store.Filters := {[ "tag" := VString "blue" ]};
     Store.MaxResults := 0; Store.MinScore := 0%Q |}.

(** A store on a 16-byte file holding the document of the persistence
    scenario, not yet flushed. *)
Definition small_store : Store.t :=
  returned (empty_store 16) (Store.Set_ (root := isqrt) "x" alpha_doc 100000000000 0%Q (empty_store 16)).

Definition roomy_store : Store.t :=
  returned (empty_store 64) (Store.Set_ (root := isqrt) "x" alpha_doc 100000000000 0%Q (empty_store 64)).

Definition small_options : Store.StoreOptions :=
  {| Store.InitialSize := 64; Store.MaxSize := 1024;
     Store.SyncInterval := 60 * 1000000000; Store.Debug := false |}.

(** [roomy_store] after [Sync] at 100 s. *)
Definition flushed_store : Store.t :=
  returned roomy_store
    (Store.Sync (codec := alpha_codec) 3 (fun _ => 100000000000) roomy_store).

(** The options of a store on a 16-byte file. *)
Definition tiny_options : Store.StoreOptions :=
  {| Store.InitialSize := 16; Store.MaxSize := 1024;
     Store.SyncInterval := 60 * 1000000000; Store.Debug := false |}.

(** A two-dimensional index holding the vector (3, 4). *)
Definition plane_index : VectorIndex.t :=
  (VectorIndex.Update (root := isqrt) "a" [3%Q; 4%Q] (VectorIndex.NewVectorIndex 2)).1.

(** * Further vocabulary *)

(** What [Get] finds for a key at a clock reading. *)
Definition lookup_live (clock : Z) (key : string) (d : gmap string Entry) : option Entry * bool :=
  match d !! key with
  | Some entry => if expired (Unix clock) entry then (None, true) else (Some entry, false)
  | None => (None, false)
  end.

(** The entries the garbage collector keeps. *)
Definition unexpired (now : Z) (d : gmap string Entry) : gmap string Entry :=
  filter (fun kv => expired now kv.2 = false) d.

(** The deletions of the collector's loop over the entries [l]. *)
Definition sweep (now : Z) (l : list (string * Entry)) (d : gmap string Entry)
    : gmap string Entry :=
  foldl (fun d kv => if expired now kv.2 then delete kv.1 d else d) d l.

(** One round of the collector's loop. *)
Definition gc_step (now : Z)
    : string * Entry -> Store.t * Z -> outcome (Store.t * Z) :=
  fun '(key, entry) '(s, expiredCount) =>
    if expired now entry then
      let s := Store.set_data (delete key (Store.data s)) s in
      im ← IndexManager.Remove key (Store.indexes s);
      Ret (Store.set_dirty true (Store.set_indexes im s), expiredCount + 1)
    else Ret (s, expiredCount).

Definition expired_in (now : Z) (l : list (string * Entry)) : Z :=
  len (filter (fun kv => expired now kv.2 = true) l).

(** No trigram is kept with an empty posting. *)
Definition pruned (tg : gmap string (gset string)) : Prop :=
  forall trigram ds, tg !! trigram = Some ds -> ds <> ∅.

(** A history of calls on one trigram index. *)
Inductive text_call : Type :=
| CallUpdate (key text : string)
| CallRemove (key : string).

Definition text_step (ti : TrigramIndex.t) (c : text_call) : TrigramIndex.t :=
  match c with
  | CallUpdate key text => TrigramIndex.Update key text ti
  | CallRemove key => TrigramIndex.Remove key ti
  end.

Definition text_history (calls : list text_call) : TrigramIndex.t :=
  foldl text_step TrigramIndex.NewTrigramIndex calls.

(** The texts a history leaves: the last text given for each key that was
    not removed since. *)
Definition texts_of (calls : list text_call) : gmap string string :=
  foldl (fun d c =>
           match c with
           | CallUpdate key text => <[key := text]> d
           | CallRemove key => delete key d
           end) ∅ calls.

(** What [combineResults] keeps of a scored hit: its key, a property of
    its three scores, and membership in the filter keys if there are any. *)
Definition scores_ok (Q3 : Q -> Q -> Q -> Prop) (filters : list string)
    (scores : gmap string Store.SearchResult) : Prop :=
  forall key r, scores !! key = Some r ->
    Store.Key r = key /\ Q3 (Store.TextScore r) (Store.VecScore r) (Store.Combined r)
    /\ (filters <> [] -> key ∈ filters).

(** ** Server start-up (main.go) *)

(** The loop of [createDefaultIndexes] over its table. *)
Fixpoint create_indexes (defaults : list (string * string)) (s : Store.t) : Store.t * error :=
  match defaults with
  | [] => (s, None)
  | (field, type_) :: rest =>
      let '(s, err) := Store.CreateIndex field type_ s in
      match err with
      | Some e => (s, Some ("failed to create index " +:+ field +:+ ": " +:+ e))
      | None => create_indexes rest s
      end
  end.

Definition createDefaultIndexes (s : Store.t) : Store.t * error :=
  create_indexes [("title", "text"); ("description", "text"); ("tags", "text");
                  ("embedding", "vector")] s.

(** The indexed text of a field of a document value, if it has one. *)
Definition text_field (field : string) (value : Value) : option string :=
  match value with
  | VMap m => match m !! field with Some (VString text) => Some text | _ => None end
  | _ => None
  end.

(** The indexes [createDefaultIndexes] makes on a new index manager. *)
Definition default_indexes : IndexManager.t :=
  {| IndexManager.trees := ∅;
     IndexManager.vectors := {[ "embedding" := VectorIndex.NewVectorIndex 384 ]};
     IndexManager.text :=
       <["tags" := TrigramIndex.NewTrigramIndex]>
         (<["description" := TrigramIndex.NewTrigramIndex]>
            {[ "title" := TrigramIndex.NewTrigramIndex ]}) |}.

(** ** Ordered indexes over one kind of value *)

(** An ordered index whose values are integers, as (key, value) pairs. *)
Definition int_tree (kvs : list (string * Z)) : BTree.t :=
  (fun kv => BTree.mkItem kv.1 (VInt kv.2)) <$> kvs.

(** The pairs after the item (key, v) is put in: the pairs with a smaller
    value, the new pair, the pairs with a greater value. *)
Definition insert_int (key : string) (v : Z) (kvs : list (string * Z)) : list (string * Z) :=
  filter (fun kv => kv.2 < v) kvs ++ (key, v) :: filter (fun kv => v < kv.2) kvs.

(** The dynamic types [indexItem.Less] compares. *)
Inductive kind : Type := KString | KInt | KFloat.

Definition kind_of (v : Value) : option kind :=
  match v with
  | VString _ => Some KString
  | VInt _ => Some KInt
  | VFloat _ => Some KFloat
  | _ => None
  end.

(** * Further examples *)

(** [roomy_store] after [Delete] of its document. *)
Definition deleted_store : Store.t :=
  match Store.Delete "x" roomy_store with
  | Ret s => s
  | _ => roomy_store
  end.

(** A store after [SetWithTTL] at 100 s with a duration of minus five
    seconds. *)
Definition negative_ttl_store : Store.t :=
  returned (empty_store 64)
    (Store.SetWithTTL (root := isqrt) "x" alpha_doc (-5000000000) 100000000000
       (empty_store 64)).

(** The hits of [red_query] on [tagged_store]. *)
Definition red_hits : list Store.SearchResult :=
  returned [] (Store.Search (root := isqrt) red_query tagged_store).

(** A query with a vector of three components. *)
Definition short_vector_query : Store.SearchQuery :=
  {| Store.Text := EmptyString; Store.Vector := [1%Q; 0%Q; 0%Q];
     Store.Filters := ∅; Store.MaxResults := 0; Store.MinScore := 0%Q |}.

(** A query filtering on a field that has no ordered index. *)
Definition color_query : Store.SearchQuery :=
  {| Store.Text := "hello"; Store.Vector := [];
     Store.Filters := {[ "color" := VString "blue" ]};
     Store.MaxResults := 0; Store.MinScore := 0%Q |}.

(** A store with a text index on "title", after [Set] of a document with a
    title at 100 s, and after [Set] of a plain string under the same key at
    200 s. *)
Definition titled_store : Store.t :=
  (Store.CreateIndex "title" "text" (empty_store 64)).1.

Definition titled_alpha : Store.t :=
  returned titled_store
    (Store.Set_ (root := isqrt) "x" alpha_doc 100000000000 0%Q titled_store).

Definition titled_plain : Store.t :=
  returned titled_alpha
    (Store.Set_ (root := isqrt) "x" (VString "plain") 200000000000 0%Q titled_alpha).

(** An index manager with one ordered index, on "n", holding two keys. *)
Definition numbered_indexes : IndexManager.t :=
  {| IndexManager.trees := {[ "n" := int_tree [("a", 1); ("b", 5)] ]};
     IndexManager.vectors := ∅; IndexManager.text := ∅ |}.

(** A store whose one document was written at 100 s to live one second. *)
Definition short_lived_store : Store.t :=
  returned (empty_store 64)
    (Store.SetWithTTL (root := isqrt) "x" alpha_doc 1000000000 100000000000
       (empty_store 64)).

(** The growth scenario with an entry that expires.  The document is
    written at 100 s to live one second, on a file of 16 bytes; the codec
    knows the map holding it and the empty map. *)
Definition brief_map : gmap string Entry :=
  {[ "x" := {| EValue := alpha_doc; Timestamp := 100; TTL := 1 |} ]}.

Definition brief_yaml : list byte :=
  list_byte_of_string
    ("x:" +:+ newline +:+ "  value:" +:+ newline +:+ "    title: alpha" +:+ newline
     +:+ "  timestamp: 100" +:+ newline +:+ "  ttl: 1" +:+ newline).

Definition empty_yaml : list byte := list_byte_of_string ("{}" +:+ newline).

Definition is_brief_map (m : gmap string Entry) : bool :=
  match map_to_list m with
  | [(k, e)] =>
      String.eqb k "x" && is_alpha_doc (EValue e) && (Timestamp e =? 100) && (TTL e =? 1)
  | _ => false
  end.

Definition brief_codec : Codec :=
  {| Encode m :=
       if is_brief_map m then Some brief_yaml
       else match map_to_list m with
            | [] => Some empty_yaml
            | _ => None
            end;
     Decode bs :=
       if bytes_eqb bs brief_yaml then Some brief_map
       else if bytes_eqb bs empty_yaml then Some ∅ else None |}.

Definition brief_store : Store.t :=
  returned (empty_store 16)
    (Store.SetWithTTL (root := isqrt) "x" alpha_doc 1000000000 100000000000
       (empty_store 16)).



(** * Properties *)

(** ** Auxiliary facts *)

Lemma truncate_take {A} (m : Z) (l : list A) :
  truncate m l = if 0 <? m then take (Z.to_nat m) l else l.
Proof.
  unfold truncate, slice_to, len.
  destruct (Z.ltb_spec 0 m); simpl; [|done].
  destruct (Z.ltb_spec m (Z.of_nat (length l))); [done|].
  rewrite take_ge; [done|lia].
Qed.

Lemma wrap64_small (z : Z) : - 2 ^ 63 <= z < 2 ^ 63 -> wrap64 z = z.
Proof. intros Hz. unfold wrap64. rewrite Z.mod_small; lia. Qed.

(** A loop returns when its body returns on every element it meets. *)
Lemma forM_returns {A S} (P : S -> Prop) (body : A -> S -> outcome S) (l : list A) (s : S) :
  P s ->
  (forall x s, x ∈ l -> P s -> exists s', body x s = Ret s' /\ P s') ->
  exists s', forM body l s = Ret s' /\ P s'.
Proof.
  revert s. induction l as [|x l IH]; intros s Hs Hbody; simpl.
  - eauto.
  - destruct (Hbody x s) as (s1 & -> & Hs1); [apply list_elem_of_here|done|].
    simpl. apply IH; [done|]. intros y s2 Hy. apply Hbody. by apply list_elem_of_further.
Qed.

(** A loop that returned has returned from its body on every element. *)
Lemma forM_ret_inv {A S} (body : A -> S -> outcome S) (l : list A) (s s' : S) (x : A) :
  forM body l s = Ret s' -> x ∈ l -> exists s1 s2, body x s1 = Ret s2.
Proof.
  revert s. induction l as [|y l IH]; intros s Hret Hin; [by apply elem_of_nil in Hin|].
  simpl in Hret. destruct (body y s) as [s1| | |] eqn:Hy; simpl in Hret; try done.
  apply elem_of_cons in Hin as [->|Hin]; [eauto|]. by apply (IH s1).
Qed.

(** ** Trigram index *)

Section trigram_counting.
Import TrigramIndex.

Lemma bump_fold (l : list string) (sc : gmap string Z) (k : string) :
  NoDup l ->
  foldl bump sc l !! k =
    if decide (k ∈ l) then Some (default 0 (sc !! k) + 1) else sc !! k.
Proof.
  revert sc. induction l as [|d l IH]; intros sc Hnd; cbn [foldl].
  - rewrite decide_False; [done|]. apply not_elem_of_nil.
  - apply NoDup_cons in Hnd as [Hd Hnd]. rewrite IH by done.
    unfold bump.
    destruct (decide (k = d)) as [->|Hne].
    + rewrite !lookup_insert_eq. rewrite (decide_False (P := d ∈ l)) by done.
      rewrite decide_True by apply list_elem_of_here. done.
    + rewrite !lookup_insert_ne by done.
      destruct (decide (k ∈ l)) as [Hin|Hin].
      * rewrite decide_True by (by apply list_elem_of_further). done.
      * rewrite decide_False; [done|]. intros [?|?]%elem_of_cons; done.
Qed.

Lemma count_step_lookup ti sc trigram k :
  count_step ti sc trigram !! k =
    if decide (k ∈ posting ti trigram) then Some (default 0 (sc !! k) + 1) else sc !! k.
Proof.
  unfold count_step, posting. destruct (trigrams ti !! trigram) as [ds|]; simpl.
  - rewrite bump_fold by apply NoDup_elements.
    destruct (decide (k ∈ elements ds)) as [Hin|Hin].
    + rewrite decide_True; [done|]. by apply elem_of_elements.
    + rewrite decide_False; [done|]. by rewrite <- elem_of_elements.
  - rewrite decide_False; [done|]. apply not_elem_of_empty.
Qed.

Lemma count_fold_lookup ti (l : list string) sc k :
  let c := len (filter (fun trigram => k ∈ posting ti trigram) l) in
  foldl (count_step ti) sc l !! k =
    if decide (c = 0) then sc !! k else Some (default 0 (sc !! k) + c).
Proof.
  revert sc. induction l as [|g l IH]; intros sc; cbn [foldl].
  - done.
  - rewrite IH. rewrite count_step_lookup. unfold len.
    rewrite filter_cons. destruct (decide (k ∈ posting ti g)) as [Hin|Hin]; simpl.
    + case_decide as Hc; f_equal; lia.
    + done.
Qed.

Lemma count_matches_lookup ti query k :
  count_matches ti (generateTrigrams query) !! k =
    if decide (matches ti query k = 0) then None else Some (matches ti query k).
Proof.
  unfold count_matches.
  change (foldl _ ∅ (generateTrigrams query))
    with (foldl (count_step ti) ∅ (generateTrigrams query)).
  rewrite count_fold_lookup. fold (matches ti query k). rewrite lookup_empty. simpl.
  case_decide; [done|]. f_equal.
Qed.

Lemma matches_pos ti query key :
  matches ti query key <> 0 <->
  exists trigram, trigram ∈ generateTrigrams query /\ key ∈ posting ti trigram.
Proof.
  unfold matches, len. split.
  - intros Hne.
    destruct (filter (fun trigram => key ∈ posting ti trigram) (generateTrigrams query))
      as [|g rest] eqn:Hf; [done|].
    assert (Hg : g ∈ filter (fun trigram => key ∈ posting ti trigram)
                   (generateTrigrams query)) by (rewrite Hf; apply list_elem_of_here).
    apply list_elem_of_filter in Hg as [? ?]. by exists g.
  - intros (g & Hg & Hin).
    assert (Hg' : g ∈ filter (fun trigram => key ∈ posting ti trigram)
                    (generateTrigrams query)) by (by apply list_elem_of_filter).
    destruct (filter _ _); [by apply elem_of_nil in Hg'|simpl; lia].
Qed.

Lemma by_score_total : Total by_score.
Proof.
  intros a b. unfold by_score.
  destruct (Qlt_le_dec (Score a) (Score b)) as [Hlt|Hle].
  - right. apply Is_true_true, Qle_bool_iff, Qlt_le_weak, Hlt.
  - left. apply Is_true_true, Qle_bool_iff, Hle.
Qed.

Lemma generateTrigrams_nonempty text : 0 < len (generateTrigrams text).
Proof.
  unfold generateTrigrams, len.
  destruct (Nat.ltb_spec (String.length (ToLower text)) 3) as [Hlt|Hge]; simpl; [lia|].
  rewrite length_fmap, length_seq. lia.
Qed.

Lemma Search_unfold ti query maxResults :
  Search query maxResults ti = truncate maxResults (merge_sort by_score (scored ti query)).
Proof. reflexivity. Qed.

Lemma scored_keys ti query :
  Key <$> scored ti query = (map_to_list (count_matches ti (generateTrigrams query))).*1.
Proof.
  unfold scored. rewrite <- list_fmap_compose. apply list_fmap_ext.
  intros _ [doc m] _. reflexivity.
Qed.

Lemma Sorted_by_score (l : list TextSearchResult) :
  Sorted by_score l -> Sorted (fun a b => (Score b <= Score a)%Q) l.
Proof.
  induction 1 as [|a l _ IH Hhd]; constructor; [done|].
  destruct Hhd as [|b l Hab]; constructor.
  by apply Qle_bool_iff, Is_true_true.
Qed.
End trigram_counting.

Section trigram_coherence.
Import TrigramIndex.
Implicit Types (tg : gmap string (gset string)) (l : list string).

Lemma retract_fold key l tg g :
  post (foldl (fun tg trigram =>
                 match tg !! trigram with
                 | Some ds =>
                     let ds' := ds ∖ {[key]} in
                     if decide (size ds' = 0%nat) then delete trigram tg
                     else <[trigram := ds']> tg
                 | None => tg
                 end) tg l) g
  = if decide (g ∈ l) then post tg g ∖ {[key]} else post tg g.
Proof.
  revert tg. induction l as [|t l IH]; intros tg; cbn [foldl].
  - rewrite decide_False; [done|]. apply not_elem_of_nil.
  - rewrite IH. clear IH.
    set (tg' := match tg !! t with Some ds => _ | None => tg end).
    assert (Hstep : forall g', post tg' g'
                      = if decide (g' = t) then post tg g' ∖ {[key]} else post tg g').
    { intros g'. unfold tg', post. destruct (tg !! t) as [ds|] eqn:Ht.
      - cbv zeta. destruct (decide (size (ds ∖ {[key]}) = 0%nat)) as [Hz|Hz].
        + apply size_empty_iff in Hz. apply leibniz_equiv in Hz.
          destruct (decide (g' = t)) as [->|Hne].
          * rewrite lookup_delete_eq, Ht. simpl. by rewrite Hz.
          * by rewrite lookup_delete_ne.
        + destruct (decide (g' = t)) as [->|Hne].
          * by rewrite lookup_insert_eq, Ht.
          * by rewrite lookup_insert_ne.
      - destruct (decide (g' = t)) as [->|Hne]; [|done].
        rewrite Ht. simpl. set_solver. }
    rewrite !Hstep.
    destruct (decide (g = t)) as [->|Hne].
    + rewrite (decide_True (P := t ∈ t :: l)) by apply list_elem_of_here.
      destruct (decide (t ∈ l)); set_solver.
    + destruct (decide (g ∈ l)) as [Hin|Hin].
      * rewrite decide_True by (by apply list_elem_of_further). done.
      * rewrite decide_False; [done|]. intros [?|?]%elem_of_cons; done.
Qed.

Lemma insert_fold key l tg g :
  post (foldl (fun tg trigram => <[trigram := {[key]} ∪ default ∅ (tg !! trigram)]> tg) tg l) g
  = if decide (g ∈ l) then {[key]} ∪ post tg g else post tg g.
Proof.
  revert tg. induction l as [|t l IH]; intros tg; cbn [foldl].
  - rewrite decide_False; [done|]. apply not_elem_of_nil.
  - rewrite IH. clear IH. unfold post.
    destruct (decide (g = t)) as [->|Hne].
    + rewrite lookup_insert_eq. simpl.
      rewrite (decide_True (P := t ∈ t :: l)) by apply list_elem_of_here.
      destruct (decide (t ∈ l)); set_solver.
    + rewrite lookup_insert_ne by done.
      destruct (decide (g ∈ l)) as [Hin|Hin].
      * rewrite decide_True by (by apply list_elem_of_further). done.
      * rewrite decide_False; [done|]. intros [?|?]%elem_of_cons; done.
Qed.

Lemma removeDocumentTrigrams_post key text tg g :
  post (removeDocumentTrigrams key text tg) g
  = if decide (g ∈ generateTrigrams text) then post tg g ∖ {[key]} else post tg g.
Proof. apply retract_fold. Qed.

Lemma NewTrigramIndex_coherent : coherent NewTrigramIndex.
Proof.
  intros g k. unfold posting. simpl. rewrite lookup_empty. simpl. split.
  - by intros ?%not_elem_of_empty.
  - intros (text & Hd & _). by rewrite lookup_empty in Hd.
Qed.

Lemma Remove_coherent key ti : coherent ti -> coherent (Remove key ti).
Proof.
  intros Hco g k. unfold Remove. destruct (docs ti !! key) as [text|] eqn:Hkey; [|apply Hco].
  unfold posting. simpl. fold (post (removeDocumentTrigrams key text (trigrams ti)) g).
  rewrite removeDocumentTrigrams_post. fold (posting ti g).
  destruct (decide (k = key)) as [->|Hne].
  - rewrite lookup_delete_eq. split.
    + case_decide as Hg; [set_solver|].
      intros (text' & Hd & Hin)%Hco. congruence.
    + by intros (text' & Hd & _).
  - rewrite lookup_delete_ne by done. rewrite <- (Hco g k).
    case_decide; set_solver.
Qed.

(** After [Remove] no posting and no remembered text mentions the key. *)
Lemma Remove_clears key ti :
  coherent ti ->
  docs (Remove key ti) !! key = None
  /\ forall trigram, key ∉ posting (Remove key ti) trigram.
Proof.
  intros Hco.
  assert (Hd : docs (Remove key ti) !! key = None).
  { unfold Remove. destruct (docs ti !! key) eqn:Hkey; [apply lookup_delete_eq|done]. }
  split; [done|]. intros g (text & Htext & _)%(Remove_coherent key ti Hco). congruence.
Qed.

Lemma retracted_key key ti g : coherent ti -> key ∉ post (retracted key ti) g.
Proof.
  intros Hco. unfold retracted. destruct (docs ti !! key) as [old|] eqn:Hkey.
  - rewrite removeDocumentTrigrams_post. fold (posting ti g).
    case_decide as Hg; [set_solver|].
    intros (text' & Hd & Hin)%Hco. congruence.
  - fold (posting ti g). intros (text' & Hd & Hin)%Hco. congruence.
Qed.

Lemma retracted_other key ti g k :
  k <> key -> k ∈ post (retracted key ti) g <-> k ∈ posting ti g.
Proof.
  intros Hne. unfold retracted. destruct (docs ti !! key) as [old|] eqn:Hkey; [|done].
  rewrite removeDocumentTrigrams_post. fold (posting ti g).
  case_decide; set_solver.
Qed.

Lemma Update_coherent key text ti : coherent ti -> coherent (Update key text ti).
Proof.
  intros Hco g k. unfold Update, posting. fold (retracted key ti). simpl.
  match goal with |- context [foldl ?f ?a ?l] => fold (post (foldl f a l) g) end.
  rewrite insert_fold.
  destruct (decide (k = key)) as [->|Hne].
  - rewrite lookup_insert_eq. pose proof (retracted_key key ti g Hco) as Hnot. split.
    + case_decide as Hg; [by eauto|done].
    + intros (text' & [= <-] & Hin). rewrite decide_True by done. set_solver.
  - rewrite lookup_insert_ne by done. rewrite <- (Hco g k).
    pose proof (retracted_other key ti g k Hne) as Hiff.
    case_decide; set_solver.
Qed.
End trigram_coherence.

(** ** The trigrams of a text *)

Lemma ToLower_length (text : string) :
  String.length (TrigramIndex.ToLower text) = String.length text.
Proof. induction text as [|c text IH]; simpl; [done|]. by rewrite IH. Qed.

Lemma ToLower_get (text : string) (i : nat) (c : ascii) :
  String.get i text = Some c ->
  String.get i (TrigramIndex.ToLower text) = Some (TrigramIndex.lower_ascii c).
Proof.
  revert i. induction text as [|c' text IH]; intros i; simpl; [done|].
  destruct i as [|i]; [by intros [= ->]|apply IH].
Qed.

(** The letters A to Z go to a to z, every other byte stays. *)
Lemma lower_ascii_letter (c : ascii) : TrigramIndex.lower_ascii c = lower_letter c.
Proof. by destruct c as [[] [] [] [] [] [] [] []]. Qed.

Lemma generateTrigrams_short (text : string) :
  (String.length (TrigramIndex.ToLower text) < 3)%nat ->
  TrigramIndex.generateTrigrams text = [TrigramIndex.ToLower text].
Proof.
  intros Hlt. unfold TrigramIndex.generateTrigrams.
  by rewrite (proj2 (Nat.ltb_lt _ _) Hlt).
Qed.

Lemma generateTrigrams_windows (text : string) :
  (3 <= String.length (TrigramIndex.ToLower text))%nat ->
  length (TrigramIndex.generateTrigrams text)
  = (String.length (TrigramIndex.ToLower text) - 2)%nat
  /\ forall i, (i + 3 <= String.length (TrigramIndex.ToLower text))%nat ->
       TrigramIndex.generateTrigrams text !! i
       = Some (substring i 3 (TrigramIndex.ToLower text)).
Proof.
  intros Hge. unfold TrigramIndex.generateTrigrams.
  rewrite (proj2 (Nat.ltb_ge _ _) Hge). split.
  - by rewrite length_fmap, length_seq.
  - intros i Hi. rewrite list_lookup_fmap, lookup_seq_lt by lia. done.
Qed.

Lemma generateTrigrams_Hello :
  TrigramIndex.generateTrigrams "Hello" = ["hel"; "ell"; "llo"]
  /\ TrigramIndex.generateTrigrams "Go" = ["go"].
Proof. split; reflexivity. Qed.

(** C7.  For every state of a trigram index and every query, [Search] with
    no limit returns each key at most once; the keys returned are exactly
    those in the posting of some query trigram (for a coherent index: the
    keys whose text shares a trigram with the query); each score is the
    number of query trigrams whose posting contains the key divided by the
    number of query trigrams, which is positive; the results are in
    descending order of score;
    [Search] with a positive limit returns the first [maxResults] of them;
    and [FuzzySearch] drops the results scoring below [minScore] and then
    truncates in the same way.
    The trigrams of a text are those of its lower-case form: that form
    itself if it has fewer than 3 bytes, and otherwise its windows of 3
    bytes, one for each position, in order; and the lower-case form of an
    ASCII text has the same length, with the letters A to Z replaced by a
    to z and every other byte kept. *)
Theorem trigram_search_spec (ti : TrigramIndex.t) (query : string)
    (minScore : Q) (maxResults : Z) :
  let full := TrigramIndex.Search query 0 ti in
  NoDup (TrigramIndex.Key <$> full)
  /\ (forall key,
        key ∈ TrigramIndex.Key <$> full <->
        exists trigram, trigram ∈ TrigramIndex.generateTrigrams query
                        /\ key ∈ posting ti trigram)
  /\ (coherent ti ->
      forall key,
        key ∈ TrigramIndex.Key <$> full <->
        exists text trigram,
          TrigramIndex.docs ti !! key = Some text
          /\ trigram ∈ TrigramIndex.generateTrigrams query
          /\ trigram ∈ TrigramIndex.generateTrigrams text)
  /\ 0 < len (TrigramIndex.generateTrigrams query)
  /\ (forall r, r ∈ full ->
        TrigramIndex.Score r
        = (inject_Z (matches ti query (TrigramIndex.Key r))
           / inject_Z (len (TrigramIndex.generateTrigrams query)))%Q)
  /\ Sorted (fun a b => (TrigramIndex.Score b <= TrigramIndex.Score a)%Q) full
  /\ TrigramIndex.Search query maxResults ti
     = (if 0 <? maxResults then take (Z.to_nat maxResults) full else full)
  /\ TrigramIndex.FuzzySearch query minScore maxResults ti
     = (let kept := filter (fun r => Qle_bool minScore (TrigramIndex.Score r)) full in
        if 0 <? maxResults then take (Z.to_nat maxResults) kept else kept)
  /\ (forall text,
        let lowered := TrigramIndex.ToLower text in
        ((String.length lowered < 3)%nat ->
         TrigramIndex.generateTrigrams text = [lowered])
        /\ ((3 <= String.length lowered)%nat ->
            length (TrigramIndex.generateTrigrams text) = (String.length lowered - 2)%nat
            /\ forall i, (i + 3 <= String.length lowered)%nat ->
                 TrigramIndex.generateTrigrams text !! i = Some (substring i 3 lowered))
        /\ (ascii_only text ->
            String.length lowered = String.length text
            /\ forall i c, String.get i text = Some c ->
                 String.get i lowered = Some (lower_letter c))).
Proof.
  intros full.
  assert (Hfull : full = merge_sort TrigramIndex.by_score (scored ti query)).
  { unfold full. rewrite Search_unfold. reflexivity. }
  assert (Hperm : full ≡ₚ scored ti query).
  { rewrite Hfull. apply merge_sort_Permutation. }
  assert (Hmem : forall key,
             key ∈ TrigramIndex.Key <$> full <-> matches ti query key <> 0).
  { intros key. rewrite Hperm, scored_keys.
    rewrite list_elem_of_fmap. split.
    - intros [[k m] [-> Hin%elem_of_map_to_list]]. simpl.
      rewrite count_matches_lookup in Hin. by case_decide.
    - intros Hne. exists (key, matches ti query key). split; [done|].
      apply elem_of_map_to_list. rewrite count_matches_lookup.
      by rewrite decide_False. }
  split; [|split; [|split; [|split; [|split; [|split; [|split; [|split]]]]]]].
  - rewrite Hperm, scored_keys. apply NoDup_fst_map_to_list.
  - intros key. rewrite Hmem. apply matches_pos.
  - intros Hco key. rewrite Hmem, matches_pos. split.
    + intros (g & Hg & (text & Hd & Hin)%Hco). eauto.
    + intros (text & g & Hd & Hg & Hin). exists g. split; [done|]. apply Hco. eauto.
  - apply generateTrigrams_nonempty.
  - intros r Hr. rewrite Hperm in Hr. unfold scored in Hr.
    apply list_elem_of_fmap in Hr as [[doc m] [-> Hin%elem_of_map_to_list]]. simpl.
    rewrite count_matches_lookup in Hin. case_decide; [done|]. by inversion Hin.
  - rewrite Hfull. apply Sorted_by_score, Sorted_merge_sort, by_score_total.
  - rewrite Search_unfold, <- Hfull. apply truncate_take.
  - unfold TrigramIndex.FuzzySearch. fold full. apply truncate_take.
  - intros text lowered. split; [apply generateTrigrams_short|].
    split; [apply generateTrigrams_windows|].
    intros _. split; [apply ToLower_length|].
    intros i c Hc. unfold lowered. rewrite <- lower_ascii_letter. by apply ToLower_get.
Qed.

(** ** Vector indexes *)

Section vector_index.
Context {root : Sqrt}.
Import VectorIndex.

Lemma normalizeVector_length (vec : list Q) : length (normalizeVector vec) = length vec.
Proof. unfold normalizeVector. destruct (negb _); [apply length_fmap|done]. Qed.

Lemma cosineSimilarity_returns (a b : list Q) (acc : Q) :
  (length a <= length b)%nat -> exists q, cosineSimilarity a b acc = Ret q.
Proof.
  revert b acc. induction a as [|x a IH]; intros [|y b] acc Hlen; simpl in *; eauto; [lia|].
  apply IH. lia.
Qed.

Lemma Search_scan_returns (vi : t) (query : list Q) :
  vector_wf vi -> len query = dim vi ->
  exists results,
    forM (fun '(key, vec) results =>
            similarity ← cosineSimilarity (normalizeVector query) vec 0%Q;
            Ret (results ++ [{| Key := key; Score := similarity |}]))
         (map_to_list (vectors vi)) [] = Ret results /\ True.
Proof.
  intros Hwf Hq. apply (forM_returns (fun _ => True)); [done|].
  intros [key vec] results Hin%elem_of_map_to_list _.
  destruct (cosineSimilarity_returns (normalizeVector query) vec 0%Q) as [q Hq'].
  { rewrite normalizeVector_length. apply Hwf in Hin. unfold len in *. lia. }
  rewrite Hq'. simpl. eauto.
Qed.

Lemma VectorIndex_Search_zero (vi : t) (query : list Q) :
  vector_wf vi -> len query = dim vi -> Search query 0 vi = Ret ([], None).
Proof.
  intros Hwf Hq. unfold Search.
  rewrite (proj2 (Z.eqb_eq _ _) Hq). simpl.
  destruct (Search_scan_returns vi query Hwf Hq) as (results & -> & _). simpl.
  assert (Hlen : (len (merge_sort by_score results) <? 0) = false).
  { apply Z.ltb_ge. unfold len. lia. }
  rewrite Hlen. reflexivity.
Qed.

Lemma NewVectorIndex_wf d : vector_wf (NewVectorIndex d).
Proof. apply map_Forall_empty. Qed.

Lemma VectorIndex_Update_wf key vector vi : vector_wf vi -> vector_wf (Update key vector vi).1.
Proof.
  intros Hwf. unfold Update.
  destruct (Z.eqb_spec (len vector) (dim vi)) as [Heq|Hne]; simpl; [|done].
  unfold vector_wf. simpl. apply map_Forall_insert_2; [|done].
  unfold len. rewrite normalizeVector_length. done.
Qed.

Lemma VectorIndex_Remove_wf key vi : vector_wf vi -> vector_wf (Remove key vi).
Proof. intros Hwf. unfold vector_wf, Remove. simpl. by apply map_Forall_delete. Qed.
End vector_index.

Section manager_vectors.
Context {root : Sqrt}.
Import IndexManager.

Lemma NewIndexManager_wf : vectors_wf NewIndexManager.
Proof. apply map_Forall_empty. Qed.

Lemma AddIndex_wf field indexType im : vectors_wf im -> vectors_wf (AddIndex field indexType im).1.
Proof.
  intros Hwf. unfold AddIndex.
  repeat (case_match; simpl; try done).
  unfold vectors_wf, add_absent. simpl. case_match; [done|].
  apply map_Forall_insert_2; [apply map_Forall_empty|done].
Qed.

Lemma RemoveIndex_wf field indexType im :
  vectors_wf im -> vectors_wf (RemoveIndex field indexType im).1.
Proof.
  intros Hwf. unfold RemoveIndex.
  repeat (case_match; simpl; try done).
  unfold vectors_wf. simpl. by apply map_Forall_delete.
Qed.

Lemma update_vectors_wf key m vs :
  map_Forall (fun _ vi => vector_wf vi) vs ->
  map_Forall (fun _ vi => vector_wf vi) (update_vectors key m vs).
Proof.
  intros Hwf field vi. unfold update_vectors. rewrite map_lookup_imap.
  destruct (vs !! field) as [vi0|] eqn:Hvi0; simpl; [|done].
  specialize (Hwf _ _ Hvi0).
  repeat case_match; intros [= <-]; try done. by apply VectorIndex_Update_wf.
Qed.

Lemma IndexManager_Update_wf key value im im' err :
  vectors_wf im -> Update key value im = Ret (im', err) -> vectors_wf im'.
Proof.
  intros Hwf. unfold Update. destruct value; try (intros [= <- _]; done).
  destruct (update_trees key m (trees im)); simpl; try done.
  intros [= <- _]. by apply update_vectors_wf.
Qed.

Lemma IndexManager_Remove_wf key im im' :
  vectors_wf im -> Remove key im = Ret im' -> vectors_wf im'.
Proof.
  intros Hwf. unfold Remove. destruct (remove_trees key (trees im)); simpl; try done.
  intros [= <-]. unfold vectors_wf. simpl.
  apply map_Forall_fmap. intros field vi Hvi. simpl.
  apply VectorIndex_Remove_wf, (Hwf _ _ Hvi).
Qed.

(** The store operations keep the invariant. *)
Lemma Set_wf key value clock elapsed s s' err :
  vectors_wf (Store.indexes s) ->
  Store.Set_ key value clock elapsed s = Ret (s', err) -> vectors_wf (Store.indexes s').
Proof.
  intros Hwf. unfold Store.Set_, Store.Lock. destruct (Store.locked s); simpl; [done|].
  destruct (Update key value _) as [[im e]| | |] eqn:Hup; simpl; try done.
  intros [= <- _]. simpl. by apply (IndexManager_Update_wf _ _ _ _ _ Hwf Hup).
Qed.

Lemma CreateIndex_wf field indexType s :
  vectors_wf (Store.indexes s) ->
  vectors_wf (Store.indexes (Store.CreateIndex field indexType s).1).
Proof.
  intros Hwf. unfold Store.CreateIndex.
  pose proof (AddIndex_wf field indexType _ Hwf) as Hadd.
  by destruct (AddIndex field indexType (Store.indexes s)).
Qed.
End manager_vectors.

Section planner_zero.
Context {root : Sqrt}.
Import Store.

Lemma vector_loop_zero (vector : list Q) (idxs : list (string * VectorIndex.t)) :
  Forall (fun kv => vector_wf kv.2) idxs ->
  exists err, vector_loop vector 0 idxs [] = Ret ([], err).
Proof.
  induction 1 as [|[field vi] idxs Hvi _ IH]; simpl; [eauto|].
  simpl in Hvi.
  destruct (Z.eqb_spec (len vector) (VectorIndex.dim vi)) as [Heq|Hne].
  - rewrite VectorIndex_Search_zero by done. simpl. apply IH.
  - unfold VectorIndex.Search. rewrite (proj2 (Z.eqb_neq _ _) Hne). simpl. eauto.
Qed.

Lemma vector_stage_zero (query : SearchQuery) (s : t) :
  MaxResults query = 0 -> vectors_wf (indexes s) ->
  exists err, vector_stage query s = Ret ([], err).
Proof.
  intros Hmax Hwf. unfold vector_stage. rewrite Hmax. case_match; [|eauto].
  apply vector_loop_zero.
  apply Forall_forall. intros [field vi] Hin%elem_of_map_to_list. by apply (Hwf field).
Qed.

(** C10.  On a vector index whose vectors have its dimension, [Search]
    with [k = 0] and a query of that dimension returns the empty list.
    Hence, in a store search with [MaxResults = 0], the vector stage yields
    no hit (whatever the query vector), while the text stage is not
    truncated (it is the score filter of the unlimited trigram search) and
    a successful search returns the whole sorted combination of the text
    hits alone. *)
Theorem search_zero_max_results :
  (forall (vi : VectorIndex.t) (query : list Q),
      vector_wf vi -> len query = VectorIndex.dim vi ->
      VectorIndex.Search query 0 vi = Ret ([], None))
  /\ (forall (s : t) (query : SearchQuery),
        MaxResults query = 0 -> vectors_wf (indexes s) ->
        (exists err, vector_stage query s = Ret ([], err))
        /\ (forall idx,
              TrigramIndex.FuzzySearch (Text query) (MinScore query) (MaxResults query) idx
              = filter (fun r => Qle_bool (MinScore query) (TrigramIndex.Score r))
                  (TrigramIndex.Search (Text query) 0 idx))
        /\ (forall results,
              Search query s = Ret (results, None) ->
              exists filterResults,
                filter_stage query s = Ret (filterResults, None)
                /\ results = sortSearchResults
                               (combineResults (text_stage query s) [] filterResults s))).
Proof.
  split; [apply VectorIndex_Search_zero|].
  intros s query Hmax Hwf. split; [by apply vector_stage_zero|]. split.
  - intros idx. rewrite Hmax. reflexivity.
  - intros results. unfold Search.
    destruct (Lock s) as [s'| | |]; simpl; try done.
    destruct (vector_stage_zero query s Hmax Hwf) as [err ->]. simpl.
    destruct err; [intros [= _ ?]; done|].
    destruct (filter_stage query s) as [[filterResults [e|]]| | |]; simpl; try done.
    rewrite Hmax. intros [= <-]. eauto.
Qed.
End planner_zero.

(** ** Index types *)

Lemma add_absent_present {A} (field : string) (fresh_index : A) (m : gmap string A) :
  is_Some (IndexManager.add_absent field fresh_index m !! field).
Proof.
  unfold IndexManager.add_absent. destruct (m !! field) eqn:Hm.
  - rewrite Hm. eauto.
  - rewrite lookup_insert_eq. eauto.
Qed.

Lemma add_absent_noop {A} (field : string) (fresh_index : A) (m : gmap string A) :
  is_Some (m !! field) -> IndexManager.add_absent field fresh_index m = m.
Proof. intros [x Hx]. unfold IndexManager.add_absent. by rewrite Hx. Qed.

Lemma AddIndex_known (field indexType : string) (im : IndexManager.t) :
  known_type indexType ->
  (IndexManager.AddIndex field indexType im).2 = None
  /\ index_present field indexType (IndexManager.AddIndex field indexType im).1
  /\ (index_present field indexType im -> (IndexManager.AddIndex field indexType im).1 = im).
Proof.
  destruct im as [trs vs ts].
  intros [ -> | [ -> | -> ] ]; (split; [reflexivity|split]); simpl.
  - left. split; [done|]. apply add_absent_present.
  - intros [[_ Hp]|[[Hne _]|[Hne _]]]; try discriminate Hne. simpl in Hp.
    by rewrite add_absent_noop.
  - right; left. split; [done|]. apply add_absent_present.
  - intros [[Hne _]|[[_ Hp]|[Hne _]]]; try discriminate Hne. simpl in Hp.
    by rewrite add_absent_noop.
  - right; right. split; [done|]. apply add_absent_present.
  - intros [[Hne _]|[[Hne _]|[_ Hp]]]; try discriminate Hne. simpl in Hp.
    by rewrite add_absent_noop.
Qed.

Lemma AddIndex_unknown (field indexType : string) (im : IndexManager.t) :
  ~ known_type indexType ->
  IndexManager.AddIndex field indexType im = (im, Some ("unknown index type: " +:+ indexType)).
Proof.
  intros Hun. unfold IndexManager.AddIndex.
  destruct (String.eqb_spec indexType "btree") as [->|_]; [destruct Hun; left; done|].
  destruct (String.eqb_spec indexType "vector") as [->|_]; [destruct Hun; right; left; done|].
  destruct (String.eqb_spec indexType "text") as [->|_]; [destruct Hun; right; right; done|].
  reflexivity.
Qed.

Lemma set_indexes_same (s : Store.t) : Store.set_indexes (Store.indexes s) s = s.
Proof. by destruct s. Qed.

(** C8, as amended.  [CreateIndex(field, type)] succeeds for every type in
    {"text", "vector", "btree"}: afterwards the named index exists, and if
    it existed before the store is unchanged.  For every other type it
    returns the unknown-index-type error and leaves the store unchanged. *)
Theorem create_index_types (field indexType : string) (s : Store.t) :
  (known_type indexType ->
   (Store.CreateIndex field indexType s).2 = None
   /\ index_present field indexType (Store.indexes (Store.CreateIndex field indexType s).1)
   /\ (index_present field indexType (Store.indexes s) ->
       (Store.CreateIndex field indexType s).1 = s))
  /\ (~ known_type indexType ->
      Store.CreateIndex field indexType s
      = (s, Some ("unknown index type: " +:+ indexType))).
Proof.
  unfold Store.CreateIndex. split.
  - intros Hk. destruct (AddIndex_known field indexType (Store.indexes s) Hk) as (He & Hp & Hn).
    destruct (IndexManager.AddIndex field indexType (Store.indexes s)) as [im err].
    simpl in *. split; [done|]. split; [done|].
    intros Hpres. rewrite (Hn Hpres). apply set_indexes_same.
  - intros Hun. rewrite (AddIndex_unknown _ _ _ Hun). by rewrite set_indexes_same.
Qed.

(** C8 as stated fails: "ordered" is rejected as an unknown index type, and
    "btree", which is outside the stated set, is accepted. *)
Lemma create_index_ordered_unknown :
  (Store.CreateIndex "tag" "ordered" (empty_store 64)).2 = Some "unknown index type: ordered"
  /\ (Store.CreateIndex "tag" "btree" (empty_store 64)).2 = None.
Proof. split; reflexivity. Qed.

(** ** Statistics *)

(** Each call of [GetStats] adds the current sizes of the indexes to the
    entry counts of the previous call. *)
Lemma GetStats_accumulates (s : Store.t) :
  let first := (Store.GetStats s).1 in
  let second := (Store.GetStats (Store.GetStats s).2).1 in
  IndexEntryCount (TextIndexes second)
  = IndexEntryCount (TextIndexes first)
    + Store.total (fun idx => Z.of_nat (size (TrigramIndex.docs idx)))
        (IndexManager.text (Store.indexes s))
  /\ IndexEntryCount (VectorIndexes second)
     = IndexEntryCount (VectorIndexes first)
       + Store.total (fun idx => Z.of_nat (size (VectorIndex.vectors idx)))
           (IndexManager.vectors (Store.indexes s))
  /\ IndexEntryCount (BTreeIndexes second)
     = IndexEntryCount (BTreeIndexes first)
       + Store.total BTree.Len (IndexManager.trees (Store.indexes s)).
Proof. destruct s. repeat split. Qed.

(** C9 fails on the code.  On a store with one document, indexed by one
    text index and one ordered index, the first [GetStats] reports one entry
    per index and the second, with no operation in between, reports two. *)
Theorem get_stats_twice :
  size (Store.data tagged_store) = 1%nat
  /\ IndexEntryCount (TextIndexes (Store.GetStats tagged_store).1) = 1
  /\ IndexEntryCount (TextIndexes (Store.GetStats (Store.GetStats tagged_store).2).1) = 2
  /\ IndexEntryCount (BTreeIndexes (Store.GetStats tagged_store).1) = 1
  /\ IndexEntryCount (BTreeIndexes (Store.GetStats (Store.GetStats tagged_store).2).1) = 2.
Proof. vm_compute. repeat split. Qed.

(** ** Index-update errors *)

Section set_errors.
Context {root : Sqrt}.

Lemma IndexManager_Update_no_error key value im im' err :
  IndexManager.Update key value im = Ret (im', err) -> err = None.
Proof.
  unfold IndexManager.Update. destruct value; try (by intros [= _ <-]).
  destruct (IndexManager.update_trees key m (IndexManager.trees im)); simpl; try done.
  by intros [= _ <-].
Qed.

Lemma Set_no_error key value clock elapsed s s' err :
  Store.Set_ key value clock elapsed s = Ret (s', err) -> err = None.
Proof.
  unfold Store.Set_. destruct (Store.Lock s) as [s0| | |]; simpl; try done.
  destruct (IndexManager.Update key value _) as [[im e]| | |] eqn:Hup; simpl; try done.
  apply IndexManager_Update_no_error in Hup as ->. by intros [= _ <-].
Qed.

Lemma update_vectors_mismatch key m vs field vi vector :
  vs !! field = Some vi -> m !! field = Some (VFloat32s vector) ->
  len vector <> VectorIndex.dim vi ->
  (VectorIndex.Update key vector vi).2
    = Some (VectorIndex.mismatch "vector" (VectorIndex.dim vi) (len vector))
  /\ IndexManager.update_vectors key m vs !! field = Some vi.
Proof.
  intros Hvi Hm Hne. unfold IndexManager.update_vectors. rewrite map_lookup_imap, Hvi. simpl.
  rewrite Hm. unfold VectorIndex.Update.
  rewrite (proj2 (Z.eqb_neq _ _) Hne). done.
Qed.
End set_errors.

(** C5 fails on the code.  The store has a vector index of dimension 384 on
    "embedding"; [Set] of a mapping whose "embedding" is a [float32] vector
    of length 3 returns no error, although [VectorIndex.Update] reports the
    mismatch.  The entry is stored and the vector index is unchanged. *)
Theorem set_drops_dimension_mismatch :
  IndexManager.vectors (Store.indexes embedding_store) !! "embedding"
    = Some (VectorIndex.NewVectorIndex 384)
  /\ (VectorIndex.Update (root := isqrt) "a" [1%Q; 0%Q; 0%Q] (VectorIndex.NewVectorIndex 384)).2
     = Some "vector dimension mismatch: expected 384, got 3"
  /\ exists s',
      Store.Set_ (root := isqrt) "a" short_embedding 100000000000 0%Q embedding_store
        = Ret (s', None)
      /\ IndexManager.vectors (Store.indexes s')
         = IndexManager.vectors (Store.indexes embedding_store)
      /\ is_Some (Store.data s' !! "a").
Proof.
  split; [reflexivity|]. split; [reflexivity|].
  eexists. split; [vm_compute; reflexivity|]. split; [reflexivity|].
  vm_compute. eauto.
Qed.


(** ** Removal from the ordered indexes *)

Lemma Less_nil_probe key x : BTree.Less (BTree.mkItem key VNil) x = Ret false.
Proof. reflexivity. Qed.

Lemma Less_against_nil key x :
  scalar (BTree.value x) ->
  BTree.Less x (BTree.mkItem key VNil) = Panic BTree.conversion_panic.
Proof. unfold BTree.Less. by destruct (BTree.value x). Qed.

Lemma search_loop_all_false (f : nat -> outcome bool) (fuel i j : nat) :
  (forall h, (h < j)%nat -> f h = Ret false) ->
  (i <= j)%nat -> (j - i <= fuel)%nat ->
  BTree.search_loop fuel f i j = Ret j.
Proof.
  intros Hf. revert i. induction fuel as [|fuel IH]; intros i Hij Hfuel; cbn [BTree.search_loop].
  - f_equal. lia.
  - destruct (Nat.ltb_spec i j) as [Hlt|Hge]; [|f_equal; lia].
    assert (Hh : ((i + j) / 2 < j)%nat) by (apply Nat.Div0.div_lt_upper_bound; lia).
    assert (Hh' : (i <= (i + j) / 2)%nat) by (apply Nat.div_le_lower_bound; lia).
    rewrite (Hf _ Hh). cbn [mbind outcome_bind obind negb]. apply IH; lia.
Qed.

Lemma find_nil_probe_panics key (tr : BTree.t) (x : BTree.indexItem) :
  last tr = Some x -> scalar (BTree.value x) ->
  BTree.find (BTree.mkItem key VNil) tr = Panic BTree.conversion_panic.
Proof.
  intros Hlast Hx. unfold BTree.find, BTree.sort_Search.
  rewrite search_loop_all_false; [| | lia | lia].
  2:{ intros h Hh. cbv beta. destruct (tr !! h) as [y|] eqn:Hy; [reflexivity|].
      apply lookup_ge_None in Hy. lia. }
  simpl. destruct (length tr) as [|n] eqn:Hlen.
  - apply nil_length_inv in Hlen. subst. done.
  - rewrite last_lookup, Hlen in Hlast. simpl in Hlast. rewrite Hlast.
    by rewrite Less_against_nil.
Qed.

Lemma Delete_panics key (tr : BTree.t) (x : BTree.indexItem) :
  last tr = Some x -> scalar (BTree.value x) ->
  BTree.Delete (BTree.mkItem key VNil) tr = Panic BTree.conversion_panic.
Proof.
  intros Hlast Hx. unfold BTree.Delete. destruct tr as [|y tr]; [done|].
  by rewrite (find_nil_probe_panics key _ x).
Qed.

(** No call of [Remove] returns once some ordered index ends in an item
    with a string, int or float value. *)
Lemma IndexManager_Remove_never_returns key (im : IndexManager.t) field tr x :
  IndexManager.trees im !! field = Some tr ->
  last tr = Some x -> scalar (BTree.value x) ->
  forall im', IndexManager.Remove key im <> Ret im'.
Proof.
  intros Htr Hlast Hx im' Hret. unfold IndexManager.Remove in Hret.
  destruct (IndexManager.remove_trees key (IndexManager.trees im)) as [trs| | |] eqn:Hloop;
    simpl in Hret; try done.
  unfold IndexManager.remove_trees in Hloop.
  assert (Hin : (field, tr) ∈ map_to_list (IndexManager.trees im))
    by (by apply elem_of_map_to_list).
  destruct (forM_ret_inv _ _ _ _ _ Hloop Hin) as (s1 & s2 & Hbody).
  simpl in Hbody. by rewrite (Delete_panics key tr x) in Hbody.
Qed.

(** Without ordered indexes [Remove] returns, having removed the key from
    every vector and text index. *)
Lemma IndexManager_Remove_without_trees key (im : IndexManager.t) :
  IndexManager.trees im = ∅ ->
  IndexManager.Remove key im
  = Ret {| IndexManager.trees := ∅;
           IndexManager.vectors := VectorIndex.Remove key <$> IndexManager.vectors im;
           IndexManager.text := TrigramIndex.Remove key <$> IndexManager.text im |}.
Proof.
  intros Hno. unfold IndexManager.Remove, IndexManager.remove_trees. rewrite Hno.
  by rewrite map_to_list_empty.
Qed.

(** C3 fails on the code.  After [CreateIndex("tag", "btree")] and
    [Set("k1", {"title": "hello", "tag": "red"})] the ordered index holds
    the string-valued item of k1, and [IndexManager.Remove] panics, for k1
    (also through [Delete]) and for a key the indexes do not contain. *)
Theorem remove_panics_on_ordered_index :
  IndexManager.trees (Store.indexes tagged_store) !! "tag"
    = Some [BTree.mkItem "k1" (VString "red")]
  /\ IndexManager.Remove "k1" (Store.indexes tagged_store) = Panic BTree.conversion_panic
  /\ Store.Delete "k1" tagged_store = Panic BTree.conversion_panic
  /\ IndexManager.Remove "absent" (Store.indexes tagged_store) = Panic BTree.conversion_panic.
Proof. repeat split; vm_compute; reflexivity. Qed.


(** ** Filters that match nothing *)

Section empty_filter.
Context {root : Sqrt}.

Lemma filter_stage_without_filters (query : Store.SearchQuery) (s : Store.t) :
  Store.filter_stage (without_filters query) s = Ret ([], None).
Proof. unfold Store.filter_stage. simpl. by rewrite map_size_empty. Qed.

Lemma Search_empty_filter_result (query : Store.SearchQuery) (s : Store.t) :
  Store.filter_stage query s = Ret ([], None) ->
  Store.Search query s = Store.Search (without_filters query) s.
Proof.
  intros Hf. unfold Store.Search.
  rewrite Hf, filter_stage_without_filters. reflexivity.
Qed.
End empty_filter.

(** C6 fails on the code.  The query has the filter tag = "blue"; the
    filter search over the ordered index on "tag" yields the empty key set;
    the search still returns the text hit k1, whose tag is "red". *)
Theorem empty_filter_set_keeps_hits :
  Store.Filters red_query = {[ "tag" := VString "blue" ]}
  /\ Store.filter_stage red_query tagged_store = Ret ([], None)
  /\ exists r, Store.Search (root := isqrt) red_query tagged_store = Ret ([r], None)
               /\ Store.Key r = "k1".
Proof.
  split; [reflexivity|]. split; [reflexivity|].
  eexists. split; [vm_compute; reflexivity|reflexivity].
Qed.

(** ** Time to live *)

Lemma Unix_add_seconds (clock n : Z) : Unix (clock + n * 1000000000) = Unix clock + n.
Proof. unfold Unix. by rewrite Z.div_add. Qed.

Lemma Unix_mono (a b : Z) : a <= b -> Unix a <= Unix b.
Proof. intros Hab. unfold Unix. apply Z.div_le_mono; lia. Qed.

(** ** Rounding to [float64] *)

Lemma round_half_even_floor x :
  Qfloor x <= round_half_even x <= Qfloor x + 1.
Proof.
  unfold round_half_even. destruct (_ ?= _)%Q; [destruct (Z.even _)|..]; lia.
Qed.

Lemma round_half_even_ge (n : Z) x : (inject_Z n <= x)%Q -> n <= round_half_even x.
Proof.
  intros Hle. apply Qfloor_resp_le in Hle. rewrite Qfloor_Z in Hle.
  pose proof (round_half_even_floor x). lia.
Qed.

Lemma round_half_even_le (n : Z) x : (x <= inject_Z n)%Q -> round_half_even x <= n.
Proof.
  intros Hle. pose proof (Qfloor_resp_le _ _ Hle) as Hf. rewrite Qfloor_Z in Hf.
  pose proof (round_half_even_floor x) as Hr.
  destruct (Z.eq_dec (Qfloor x) n) as [Heq|Hne]; [|lia].
  unfold round_half_even. pose proof (Qfloor_le x) as Hx. rewrite Heq in *.
  destruct (Qcompare_spec (x - inject_Z n) (1 # 2)) as [H|H|H]; [lra|lia|lra].
Qed.

Lemma round_half_even_near x : (inject_Z (round_half_even x) <= x + (1 # 2))%Q.
Proof.
  unfold round_half_even. pose proof (Qfloor_le x) as Hx.
  destruct (Qcompare_spec (x - inject_Z (Qfloor x)) (1 # 2)) as [H|H|H].
  - destruct (Z.even _); [lra|]. rewrite inject_Z_plus. change (inject_Z 1) with 1%Q. lra.
  - lra.
  - rewrite inject_Z_plus. change (inject_Z 1) with 1%Q. lra.
Qed.

Lemma pow2_pos (k : Z) : 0 <= k -> (0 < inject_Z (2 ^ k))%Q.
Proof.
  intros Hk. change 0%Q with (inject_Z 0). rewrite <- Zlt_Qlt. by apply Z.pow_pos_nonneg.
Qed.

Lemma scale2_up x k : 0 <= k -> scale2 x k = (x * inject_Z (2 ^ k))%Q.
Proof. intros Hk. unfold scale2. by rewrite (proj2 (Z.leb_le 0 k)). Qed.

Lemma scale2_down x k : 0 <= k -> (scale2 x (- k) == x / inject_Z (2 ^ k))%Q.
Proof.
  intros Hk. unfold scale2. destruct (Z.leb_spec 0 (- k)) as [Hle|Hlt].
  - assert (k = 0) as -> by lia. change (2 ^ (- 0)) with 1. change (2 ^ 0) with 1.
    change (inject_Z 1) with 1%Q. field.
  - by rewrite Z.opp_involutive.
Qed.

Lemma binary_exponent_le x E :
  0 <= E -> (x < inject_Z (2 ^ (E + 1)))%Q -> binary_exponent x <= E.
Proof.
  intros HE Hx. unfold binary_exponent. destruct (Qle_bool 1 x) eqn:Hone.
  - apply Qle_bool_iff in Hone.
    pose proof (Qfloor_resp_le _ _ Hone) as Hf. change 1%Q with (inject_Z 1) in Hf.
    rewrite Qfloor_Z in Hf.
    assert (Hlt : Qfloor x < 2 ^ (E + 1)).
    { rewrite Zlt_Qlt. eapply Qle_lt_trans; [apply Qfloor_le|done]. }
    apply Z.log2_lt_pow2 in Hlt; lia.
  - pose proof (Z.log2_up_nonneg (Qceiling (/ x))). lia.
Qed.

(** The nearest float64 of a positive real below 2^53 is a multiple of
    2^-k rounded from [x * 2^k], for some [k >= 0]. *)
Lemma nearest_float64_form x E :
  0 <= E <= 52 -> (x < inject_Z (2 ^ (E + 1)))%Q ->
  exists k, 52 - E <= k
    /\ (nearest_float64 x == inject_Z (round_half_even (x * inject_Z (2 ^ k)))
                             / inject_Z (2 ^ k))%Q.
Proof.
  intros HE Hx. pose proof (binary_exponent_le x E ltac:(lia) Hx) as He.
  unfold nearest_float64. set (e := Z.max (binary_exponent x) (-1022)).
  assert (e <= E) by lia. exists (52 - e). split; [lia|].
  rewrite (scale2_up x (52 - e)) by lia.
  replace (e - 52) with (- (52 - e)) by lia. apply scale2_down. lia.
Qed.

Lemma nearest_float64_sandwich (a b : Z) x :
  (x < inject_Z (2 ^ 53))%Q -> (inject_Z a <= x)%Q -> (x <= inject_Z b)%Q ->
  (inject_Z a <= nearest_float64 x <= inject_Z b)%Q.
Proof.
  intros Hx Ha Hb.
  destruct (nearest_float64_form x 52 ltac:(lia) Hx) as (k & Hk & ->).
  pose proof (pow2_pos k ltac:(lia)) as Hpos.
  split.
  - apply Qle_shift_div_l; [done|]. rewrite <- inject_Z_mult, <- Zle_Qle.
    apply round_half_even_ge. rewrite inject_Z_mult. by apply Qmult_le_compat_r; [|apply Qlt_le_weak].
  - apply Qle_shift_div_r; [done|]. rewrite <- inject_Z_mult, <- Zle_Qle.
    apply round_half_even_le. rewrite inject_Z_mult. by apply Qmult_le_compat_r; [|apply Qlt_le_weak].
Qed.

Lemma nearest_float64_upper x E :
  0 <= E <= 52 -> (x < inject_Z (2 ^ (E + 1)))%Q ->
  (nearest_float64 x <= x + / inject_Z (2 ^ (53 - E)))%Q.
Proof.
  intros HE Hx.
  destruct (nearest_float64_form x E HE Hx) as (k & Hk & ->).
  pose proof (pow2_pos k ltac:(lia)) as Hpos.
  pose proof (pow2_pos (53 - E) ltac:(lia)) as Hpos'.
  apply Qle_shift_div_r; [done|].
  pose proof (round_half_even_near (x * inject_Z (2 ^ k))) as Hn.
  eapply Qle_trans; [exact Hn|].
  assert (Hle : (inject_Z (2 ^ (53 - E)) <= 2 * inject_Z (2 ^ k))%Q).
  { change 2%Q with (inject_Z 2). rewrite <- inject_Z_mult, <- Zle_Qle.
    rewrite <- Z.pow_succ_r by lia. apply Z.pow_le_mono_r; lia. }
  set (M := inject_Z (2 ^ k)) in *. set (N := inject_Z (2 ^ (53 - E))) in *.
  assert (Hinv : (1 # 2 <= / N * M)%Q).
  { apply (Qmult_le_l _ _ N); [done|]. rewrite Qmult_assoc, Qmult_inv_r by lra. lra. }
  lra.
Qed.

Lemma float64_sandwich (a b : Z) x :
  (- inject_Z (2 ^ 53) < x)%Q -> (x < inject_Z (2 ^ 53))%Q ->
  (inject_Z a <= x)%Q -> (x <= inject_Z b)%Q ->
  (inject_Z a <= float64 x <= inject_Z b)%Q.
Proof.
  intros Hlo Hhi Ha Hb. unfold float64. destruct (Qcompare_spec x 0) as [H|H|H].
  - lra.
  - destruct (nearest_float64_sandwich (- b) (- a) (- x)) as [H1 H2];
      rewrite ?inject_Z_opp in *; lra.
  - by apply nearest_float64_sandwich.
Qed.

Lemma float64_upper x E :
  0 <= E <= 52 -> (0 <= x)%Q -> (x < inject_Z (2 ^ (E + 1)))%Q ->
  (float64 x <= x + / inject_Z (2 ^ (53 - E)))%Q.
Proof.
  intros HE Hlo Hhi. unfold float64. destruct (Qcompare_spec x 0) as [H|H|H].
  - pose proof (Qinv_lt_0_compat _ (pow2_pos (53 - E) ltac:(lia))). lra.
  - lra.
  - by apply nearest_float64_upper.
Qed.

Lemma Qtruncate_sandwich (a b : Z) x :
  (inject_Z a <= x)%Q -> (x <= inject_Z b)%Q -> a <= Qtruncate x <= b.
Proof.
  intros Ha Hb. unfold Qtruncate. destruct (Qle_bool 0 x).
  - apply Qfloor_resp_le in Ha, Hb. rewrite Qfloor_Z in Ha, Hb. lia.
  - apply Qceiling_resp_le in Ha, Hb. rewrite Qceiling_Z in Ha, Hb. lia.
Qed.

Lemma Qtruncate_below (a : Z) x :
  0 <= a -> (inject_Z a <= x)%Q -> (x < inject_Z (a + 1))%Q -> Qtruncate x = a.
Proof.
  intros H0 Ha Hb. unfold Qtruncate.
  assert (Hpos : (0 <= x)%Q).
  { eapply Qle_trans; [|exact Ha]. change 0%Q with (inject_Z 0). by rewrite <- Zle_Qle. }
  apply Qle_bool_iff in Hpos. rewrite Hpos.
  apply Qfloor_resp_le in Ha. rewrite Qfloor_Z in Ha.
  assert (Qfloor x < a + 1); [|lia].
  rewrite Zlt_Qlt. eapply Qle_lt_trans; [apply Qfloor_le|done].
Qed.

(** ** Durations in seconds *)

Lemma seconds_of_sandwich (q r lo hi : Z) :
  - 9223372037 <= q <= 9223372037 -> - 1 <= lo -> hi <= 1 ->
  lo * 1000000000 <= r <= hi * 1000000000 ->
  q + lo <= seconds_of q r <= q + hi.
Proof.
  intros Hq Hlo Hhi Hr. unfold seconds_of.
  assert (Hq' : (- (9223372037) <= inject_Z q <= 9223372037)%Q).
  { change (- (9223372037))%Q with (inject_Z (- 9223372037)).
    change 9223372037%Q with (inject_Z 9223372037). rewrite <- !Zle_Qle. lia. }
  assert (Hr' : (inject_Z lo * 1000000000 <= inject_Z r <= inject_Z hi * 1000000000)%Q).
  { change 1000000000%Q with (inject_Z 1000000000).
    rewrite <- !inject_Z_mult, <- !Zle_Qle. lia. }
  assert (Hlo' : (- (1) <= inject_Z lo)%Q).
  { change (- (1))%Q with (inject_Z (- 1)). by rewrite <- Zle_Qle. }
  assert (Hhi' : (inject_Z hi <= 1)%Q).
  { change 1%Q with (inject_Z 1). by rewrite <- Zle_Qle. }
  change (inject_Z (2 ^ 53)) with 9007199254740992%Q in *.
  pose proof (float64_sandwich q q (inject_Z q)) as H1.
  pose proof (float64_sandwich r r (inject_Z r)) as H2.
  change (inject_Z (2 ^ 53)) with 9007199254740992%Q in *.
  specialize (H1 ltac:(lra) ltac:(lra) ltac:(lra) ltac:(lra)).
  specialize (H2 ltac:(lra) ltac:(lra) ltac:(lra) ltac:(lra)).
  set (x1 := float64 (inject_Z q)) in *. set (f1 := float64 (inject_Z r)) in *.
  change (inject_Z 1000000000) with 1000000000%Q.
  pose proof (float64_sandwich lo hi (f1 / 1000000000)) as H3.
  change (inject_Z (2 ^ 53)) with 9007199254740992%Q in *.
  assert (Hy : (inject_Z lo <= f1 / 1000000000 <= inject_Z hi)%Q).
  { split; [apply Qle_shift_div_l|apply Qle_shift_div_r]; lra. }
  specialize (H3 ltac:(lra) ltac:(lra) ltac:(lra) ltac:(lra)).
  set (f2 := float64 (f1 / 1000000000)) in *.
  pose proof (float64_sandwich (q + lo) (q + hi) (x1 + f2)) as H4.
  change (inject_Z (2 ^ 53)) with 9007199254740992%Q in *.
  rewrite !inject_Z_plus in H4.
  specialize (H4 ltac:(lra) ltac:(lra) ltac:(lra) ltac:(lra)).
  apply Qtruncate_sandwich; rewrite inject_Z_plus; lra.
Qed.

(** [int64(d.Seconds())] is the whole seconds of [d], or one more in
    magnitude when the sum is rounded up to the next integer. *)
Lemma Seconds_bounds (d : Z) :
  - 2 ^ 63 <= d < 2 ^ 63 ->
  (0 <= d -> d / 1000000000 <= Seconds d <= d / 1000000000 + 1)
  /\ (d <= 0 -> Z.quot d 1000000000 - 1 <= Seconds d <= Z.quot d 1000000000).
Proof.
  intros Hd. change (2 ^ 63) with 9223372036854775808 in Hd.
  pose proof (Z.quot_rem' d 1000000000) as Hqr. unfold Seconds.
  split; intros Hsign.
  - pose proof (Z.rem_bound_pos d 1000000000 ltac:(lia) ltac:(lia)).
    pose proof (Z.quot_pos d 1000000000 ltac:(lia) ltac:(lia)).
    rewrite <- Z.quot_div_nonneg by lia.
    pose proof (seconds_of_sandwich (Z.quot d 1000000000) (Z.rem d 1000000000) 0 1).
    lia.
  - assert (Hr : - 1000000000 < Z.rem d 1000000000 <= 0).
    { pose proof (Z.rem_bound_abs d 1000000000 ltac:(lia)).
      pose proof (Z.rem_nonpos d 1000000000 ltac:(lia) Hsign). lia. }
    pose proof (seconds_of_sandwich (Z.quot d 1000000000) (Z.rem d 1000000000) (- 1) 0).
    lia.
Qed.

(** Below 2^24 seconds the sum is not rounded up: the result is the whole
    seconds of the duration. *)
Lemma Seconds_exact (d : Z) :
  0 <= d < 2 ^ 24 * 1000000000 -> Seconds d = d / 1000000000.
Proof.
  intros Hd. change (2 ^ 24 * 1000000000) with 16777216000000000 in Hd.
  unfold Seconds.
  pose proof (Z.quot_rem' d 1000000000) as Hqr.
  pose proof (Z.rem_bound_pos d 1000000000 ltac:(lia) ltac:(lia)) as Hr.
  pose proof (Z.quot_pos d 1000000000 ltac:(lia) ltac:(lia)) as Hq.
  rewrite <- Z.quot_div_nonneg by lia.
  set (q := Z.quot d 1000000000) in *. set (r := Z.rem d 1000000000) in *.
  assert (Hq2 : q <= 16777215) by lia.
  unfold seconds_of.
  assert (Hq' : (0 <= inject_Z q <= 16777215)%Q).
  { change 0%Q with (inject_Z 0). change 16777215%Q with (inject_Z 16777215).
    rewrite <- !Zle_Qle. lia. }
  assert (Hr' : (0 <= inject_Z r <= 999999999)%Q).
  { change 0%Q with (inject_Z 0). change 999999999%Q with (inject_Z 999999999).
    rewrite <- !Zle_Qle. lia. }
  pose proof (float64_sandwich q q (inject_Z q)) as H1.
  pose proof (float64_sandwich r r (inject_Z r)) as H2.
  change (inject_Z (2 ^ 53)) with 9007199254740992%Q in *.
  specialize (H1 ltac:(lra) ltac:(lra) ltac:(lra) ltac:(lra)).
  specialize (H2 ltac:(lra) ltac:(lra) ltac:(lra) ltac:(lra)).
  set (x1 := float64 (inject_Z q)) in *. set (f1 := float64 (inject_Z r)) in *.
  change (f1 / inject_Z 1000000000)%Q with (f1 * (1 # 1000000000))%Q.
  pose proof (float64_sandwich 0 1 (f1 * (1 # 1000000000))) as H3.
  pose proof (float64_upper (f1 * (1 # 1000000000)) 0) as H3'.
  change (inject_Z (2 ^ 53)) with 9007199254740992%Q in *.
  change (inject_Z (2 ^ (0 + 1))) with 2%Q in *.
  change (/ inject_Z (2 ^ (53 - 0)))%Q with (1 # 9007199254740992)%Q in *.
  change (inject_Z 0) with 0%Q in *. change (inject_Z 1) with 1%Q in *.
  specialize (H3 ltac:(lra) ltac:(lra) ltac:(lra) ltac:(lra)).
  specialize (H3' ltac:(lia) ltac:(lra) ltac:(lra)).
  set (f2 := float64 (f1 * (1 # 1000000000))) in *.
  pose proof (float64_sandwich q (q + 1) (x1 + f2)) as H4.
  pose proof (float64_upper (x1 + f2) 23) as H4'.
  change (inject_Z (2 ^ 53)) with 9007199254740992%Q in *.
  change (inject_Z (2 ^ (23 + 1))) with 16777216%Q in *.
  change (/ inject_Z (2 ^ (53 - 23)))%Q with (1 # 1073741824)%Q in *.
  rewrite inject_Z_plus in H4. change (inject_Z 1) with 1%Q in *.
  specialize (H4 ltac:(lra) ltac:(lra) ltac:(lra) ltac:(lra)).
  specialize (H4' ltac:(lia) ltac:(lra) ltac:(lra)).
  apply Qtruncate_below; [lia|lra|].
  rewrite inject_Z_plus. change (inject_Z 1) with 1%Q. lra.
Qed.

Lemma Seconds_rounds_up : Seconds 16777216999999999 = 16777217.
Proof. vm_compute. reflexivity. Qed.

(** ** Time to live *)

Section ttl.
Context {root : Sqrt}.

Lemma SetWithTTL_stores key value ttl clock s s' err :
  Store.SetWithTTL key value ttl clock s = Ret (s', err) ->
  Store.locked s' = false
  /\ Store.data s' !! key
     = Some {| EValue := value; Timestamp := Unix clock; TTL := Seconds ttl |}.
Proof.
  unfold Store.SetWithTTL, Store.Lock. destruct (Store.locked s); simpl; [done|].
  destruct (IndexManager.Update key value _) as [[im e]| | |]; simpl; try done.
  destruct e; intros [= <- _]; simpl; by rewrite lookup_insert_eq.
Qed.

Lemma Get_unlocked key clock elapsed s :
  Store.locked s = false ->
  exists s',
    Store.Get key clock elapsed s
    = Ret (match Store.data s !! key with
           | Some entry =>
               if expired (Unix clock) entry then (None, true) else (Some entry, false)
           | None => (None, false)
           end, s').
Proof. intros Hl. unfold Store.Get, Store.Lock. rewrite Hl. simpl. eauto. Qed.

(** C4, as amended.  For a duration [d] of at least one second,
    [SetWithTTL(k, v, d)] that succeeds stores the entry with
    [int64(d.Seconds())] as its TTL: the whole seconds of [d], or one
    second more when the float64 sum of [Duration.Seconds] rounds up, which
    does not happen below 2^24 seconds and does happen for
    16777216.999999999 s.  Once the clock has advanced by at least that
    many seconds plus one, [Get(k)] returns absent. *)
Theorem ttl_whole_seconds key value ttl clock advance s s' :
  1000000000 <= ttl < 2 ^ 63 -> 0 <= clock < 2 ^ 63 ->
  (Seconds ttl + 1) * 1000000000 <= advance ->
  Store.SetWithTTL key value ttl clock s = Ret (s', None) ->
  Store.data s' !! key
    = Some {| EValue := value; Timestamp := Unix clock; TTL := Seconds ttl |}
  /\ ttl / 1000000000 <= Seconds ttl <= ttl / 1000000000 + 1
  /\ (ttl < 2 ^ 24 * 1000000000 -> Seconds ttl = ttl / 1000000000)
  /\ Seconds 16777216999999999 = 16777217
  /\ get_after_ttl key value ttl clock advance s = Ret None.
Proof.
  intros Httl Hclock Hadv Hset.
  destruct (SetWithTTL_stores _ _ _ _ _ _ _ Hset) as [Hl Hd]. split; [done|].
  assert (Hb : ttl / 1000000000 <= Seconds ttl <= ttl / 1000000000 + 1).
  { apply (Seconds_bounds ttl); lia. }
  split; [exact Hb|]. split; [intros Hsmall; apply Seconds_exact; lia|].
  split; [exact Seconds_rounds_up|].
  unfold get_after_ttl. rewrite Hset. simpl.
  destruct (Get_unlocked key (clock + advance) 0%Q s' Hl) as [s'' ->]. simpl.
  rewrite Hd.
  assert (Hs : 1 <= Seconds ttl <= 2 ^ 63 / 1000000000 + 1).
  { split.
    - etransitivity; [|apply Hb]. apply Z.div_le_lower_bound; lia.
    - etransitivity; [apply Hb|]. apply Z.add_le_mono_r, Z.div_le_mono; lia. }
  assert (Hu : 0 <= Unix clock <= 2 ^ 63 / 1000000000).
  { unfold Unix. split; [apply Z.div_pos; lia|apply Z.div_le_mono; lia]. }
  assert (Hlate : Unix clock + Seconds ttl < Unix (clock + advance)).
  { pose proof (Unix_mono (clock + (Seconds ttl + 1) * 1000000000) (clock + advance)) as Hm.
    rewrite Unix_add_seconds in Hm. lia. }
  assert (Hexp : expired (Unix (clock + advance))
                   {| EValue := value; Timestamp := Unix clock; TTL := Seconds ttl |} = true).
  { unfold expired. simpl. rewrite wrap64_small.
    - apply andb_true_intro. split; [apply Z.ltb_lt; lia|apply Z.ltb_lt; lia].
    - change (2 ^ 63 / 1000000000) with 9223372036 in *. lia. }
  rewrite Hexp. reflexivity.
Qed.
End ttl.

(** C4 as stated fails: a TTL of half a second is stored as TTL 0 and the
    entry is still returned an hour later; and a TTL of one second set at
    10.0 s is still returned at 11.5 s, because the clock is read in whole
    seconds. *)
Lemma ttl_may_outlive_its_duration :
  get_after_ttl (root := isqrt) "tmp" (VInt 42) 500000000 10000000000
      (500000000 + 3600000000000) (empty_store 64)
    = Ret (Some {| EValue := VInt 42; Timestamp := 10; TTL := 0 |})
  /\ get_after_ttl (root := isqrt) "tmp" (VInt 42) 1000000000 10000000000
       (1000000000 + 500000000) (empty_store 64)
     = Ret (Some {| EValue := VInt 42; Timestamp := 10; TTL := 1 |}).
Proof. split; vm_compute; reflexivity. Qed.

(** The TTL theorem at one second, read two seconds later. *)
Lemma ttl_whole_seconds_witness :
  Store.data (returned (empty_store 64)
                (Store.SetWithTTL (root := isqrt) "tmp" (VInt 42) 1000000000 10000000000
                   (empty_store 64))) !! "tmp"
    = Some {| EValue := VInt 42; Timestamp := Unix 10000000000; TTL := Seconds 1000000000 |}
  /\ 1000000000 / 1000000000 <= Seconds 1000000000 <= 1000000000 / 1000000000 + 1
  /\ (1000000000 < 2 ^ 24 * 1000000000 -> Seconds 1000000000 = 1000000000 / 1000000000)
  /\ Seconds 16777216999999999 = 16777217
  /\ get_after_ttl (root := isqrt) "tmp" (VInt 42) 1000000000 10000000000 2000000000
       (empty_store 64) = Ret None.
Proof.
  apply (ttl_whole_seconds (root := isqrt)); [lia | lia | vm_compute; discriminate | ].
  vm_compute. reflexivity.
Defined.

(** ** Growing the file *)

Lemma doubling_ret_or_spin (fuel : nat) (newSize requiredSize : Z) :
  Store.doubling fuel newSize requiredSize = Spin
  \/ exists n, Store.doubling fuel newSize requiredSize = Ret n.
Proof.
  revert newSize. induction fuel as [|fuel IH]; intros newSize; simpl; [by left|].
  destruct (newSize <? requiredSize); [apply IH|eauto].
Qed.

(** The loop leaves with the first doubling that is large enough. *)
Lemma doubling_returns (fuel : nat) (newSize requiredSize : Z) :
  0 < newSize -> requiredSize <= 2 ^ 62 ->
  requiredSize <= newSize * 2 ^ Z.of_nat fuel ->
  exists k : nat,
    Store.doubling (S fuel) newSize requiredSize = Ret (newSize * 2 ^ Z.of_nat k)
    /\ requiredSize <= newSize * 2 ^ Z.of_nat k
    /\ (forall j : nat, (j < k)%nat -> newSize * 2 ^ Z.of_nat j < requiredSize).
Proof.
  intros Hpos Hreq. revert newSize Hpos.
  induction fuel as [|fuel IH]; intros newSize Hpos Hfuel.
  - exists 0%nat. simpl in *. rewrite Z.mul_1_r in *.
    rewrite (proj2 (Z.ltb_ge _ _)) by lia. repeat split; [done|lia].
  - cbn [Store.doubling]. destruct (Z.ltb_spec newSize requiredSize) as [Hlt|Hge].
    + rewrite wrap64_small by lia.
      destruct (IH (newSize * 2)) as (k & Hk & Hle & Hmin); [lia| |].
      { rewrite Nat2Z.inj_succ, Z.pow_succ_r in Hfuel by lia. lia. }
      exists (S k). rewrite Nat2Z.inj_succ, Z.pow_succ_r by lia.
      replace (newSize * (2 * 2 ^ Z.of_nat k)) with (newSize * 2 * 2 ^ Z.of_nat k) by lia.
      split; [exact Hk|]. split; [done|].
      intros [|j] Hj; [simpl; lia|].
      rewrite Nat2Z.inj_succ, Z.pow_succ_r by lia.
      replace (newSize * (2 * 2 ^ Z.of_nat j)) with (newSize * 2 * 2 ^ Z.of_nat j) by lia.
      apply Hmin. lia.
    + exists 0%nat. simpl. rewrite Z.mul_1_r. repeat split; [lia|lia].
Qed.

Section sync_growth.
Context {codec : Codec}.

Lemma must_grow_locked clock s bs :
  must_grow clock s bs -> must_grow clock (Store.set_locked true s) bs.
Proof. by destruct s. Qed.

(** With the lock held, a sync that has to grow the file blocks in
    [resize] (or the doubling loop runs forever). *)
Lemma sync_with_locked rec clock s bs :
  must_grow clock s bs -> Store.locked s = true ->
  Store.sync_with rec clock s = Block \/ Store.sync_with rec clock s = Spin.
Proof.
  intros (Hd & He & Hl) Hlock. unfold Store.sync_with. rewrite Hd, He. simpl.
  rewrite (proj2 (Z.ltb_lt _ _) Hl). unfold Store.growFile_with.
  destruct (doubling_ret_or_spin 65 (wrap64 (len (Store.mm s) * 2)) (len bs))
    as [->|[n ->]]; simpl; [by right|].
  unfold Store.resize_with, Store.Lock. rewrite Hlock. by left.
Qed.

(** With the lock held, as in [Close] and in the [sync] that [resize]
    calls, a sync that has to grow the file never returns. *)
Lemma sync_locked_never_returns fuel clock s bs :
  must_grow (clock O) s bs -> Store.locked s = true ->
  Store.sync fuel clock s = Block \/ Store.sync fuel clock s = Spin.
Proof.
  intros Hg Hlock. destruct fuel as [|fuel]; [by right|].
  cbn [Store.sync]. by apply (sync_with_locked _ _ _ bs).
Qed.

(** Without the lock, [resize] takes it and calls [sync] again, which
    reads the clock again: if the file has to grow at that reading too,
    the call never returns. *)
Lemma sync_never_returns fuel clock s bs bs' :
  must_grow (clock O) s bs -> must_grow (clock 1%nat) s bs' ->
  Store.sync fuel clock s = Block \/ Store.sync fuel clock s = Spin.
Proof.
  intros Hg Hg'.
  destruct (Store.locked s) eqn:Hlock; [by apply (sync_locked_never_returns _ _ _ bs)|].
  destruct fuel as [|fuel]; [by right|].
  pose proof Hg as (Hd & He & Hl).
  cbn [Store.sync]. unfold Store.sync_with. rewrite Hd, He. simpl.
  rewrite (proj2 (Z.ltb_lt _ _) Hl). unfold Store.growFile_with.
  destruct (doubling_ret_or_spin 65 (wrap64 (len (Store.mm s) * 2)) (len bs))
    as [->|[n ->]]; simpl; [by right|].
  unfold Store.resize_with, Store.Lock. rewrite Hlock. simpl.
  destruct (sync_locked_never_returns fuel (fun n => clock (S n))
              (Store.set_locked true s) bs')
    as [->| ->]; [by apply must_grow_locked|by destruct s|by left|by right].
Qed.

(** The size the doubling loop settles on, and the step of [sync] up to
    its call of [resize]. *)
Lemma sync_with_grows rec clock s bs :
  must_grow clock s bs -> 0 < len (Store.mm s) -> len bs <= 2 ^ 62 ->
  exists k : nat,
    Store.doubling 65 (wrap64 (len (Store.mm s) * 2)) (len bs)
      = Ret (len (Store.mm s) * 2 * 2 ^ Z.of_nat k)
    /\ len bs <= len (Store.mm s) * 2 * 2 ^ Z.of_nat k
    /\ (Store.resize_with rec (len (Store.mm s) * 2 * 2 ^ Z.of_nat k) s = Block ->
        Store.sync_with rec clock s = Block).
Proof.
  intros (Hd & He & Hl) Hpos Hbs.
  rewrite wrap64_small by lia.
  destruct (doubling_returns 64 (len (Store.mm s) * 2) (len bs)) as (k & Hk & Hle & _);
    [lia|lia| |].
  { change (2 ^ Z.of_nat 64) with 18446744073709551616. lia. }
  exists k. split; [exact Hk|]. split; [done|].
  intros Hres. unfold Store.sync_with. rewrite Hd, He. simpl.
  rewrite (proj2 (Z.ltb_lt _ _) Hl). unfold Store.growFile_with.
  rewrite wrap64_small by lia. rewrite Hk. simpl. by rewrite Hres.
Qed.

Lemma sync_locked_blocks fuel clock s bs :
  must_grow (clock O) s bs -> Store.locked s = true ->
  0 < len (Store.mm s) -> len bs <= 2 ^ 62 -> (1 <= fuel)%nat ->
  Store.sync fuel clock s = Block.
Proof.
  intros Hg Hlock Hpos Hbs Hfuel. destruct fuel as [|fuel]; [lia|].
  cbn [Store.sync].
  destruct (sync_with_grows (Store.sync fuel (fun n => clock (S n))) (clock O) s bs)
    as (k & _ & _ & Hstep); [done..|].
  apply Hstep. unfold Store.resize_with, Store.Lock. by rewrite Hlock.
Qed.

Lemma sync_blocks fuel clock s bs bs' :
  must_grow (clock O) s bs -> must_grow (clock 1%nat) s bs' ->
  0 < len (Store.mm s) -> len bs <= 2 ^ 62 -> len bs' <= 2 ^ 62 ->
  (2 <= fuel)%nat ->
  exists k : nat,
    Store.doubling 65 (wrap64 (len (Store.mm s) * 2)) (len bs)
      = Ret (len (Store.mm s) * 2 * 2 ^ Z.of_nat k)
    /\ len bs <= len (Store.mm s) * 2 * 2 ^ Z.of_nat k
    /\ Store.sync fuel clock s = Block.
Proof.
  intros Hg Hg' Hpos Hbs Hbs' Hfuel.
  destruct (Store.locked s) eqn:Hlock.
  { destruct (sync_with_grows (fun s => Ret (s, None)) (clock O) s bs)
      as (k & Hk & Hle & _); [done..|].
    exists k. split; [done|]. split; [done|].
    apply (sync_locked_blocks _ _ _ bs); [done..|lia]. }
  destruct fuel as [|fuel]; [lia|]. cbn [Store.sync].
  destruct (sync_with_grows (Store.sync fuel (fun n => clock (S n))) (clock O) s bs)
    as (k & Hk & Hle & Hstep); [done..|].
  exists k. split; [done|]. split; [done|]. apply Hstep.
  unfold Store.resize_with, Store.Lock. rewrite Hlock. simpl.
  rewrite (sync_locked_blocks fuel (fun n => clock (S n)) (Store.set_locked true s) bs');
    [done|by apply must_grow_locked|by destruct s|by destruct s|done|lia].
Qed.
End sync_growth.

(** C2 fails on the code.  The store is dirty, its region has 16 bytes and
    the encoded clean map has 46; the doubling loop settles on 64 bytes, and
    then [sync] blocks forever in [resize], which takes the store lock again
    and calls [sync] again: both from [Sync], which does not hold the lock,
    and from [Close], which does, and whatever the clock readings are (the
    entry has no TTL). *)
Theorem sync_grow_deadlocks :
  must_grow (codec := alpha_codec) 100000000000 small_store alpha_yaml
  /\ len (Store.mm small_store) = 16 /\ len alpha_yaml = 46
  /\ Store.doubling 65 (wrap64 (16 * 2)) 46 = Ret 64
  /\ Store.Sync (codec := alpha_codec) 2 (fun _ => 100000000000) small_store = Block
  /\ Store.Close (codec := alpha_codec) 2 (fun _ => 100000000000) small_store = Block
  /\ (forall clock, Store.Sync (codec := alpha_codec) 2 clock small_store = Block)
  /\ (forall clock, Store.Close (codec := alpha_codec) 2 clock small_store = Block).
Proof.
  split; [repeat split; vm_compute; reflexivity|].
  split; [vm_compute; reflexivity|]. split; [vm_compute; reflexivity|].
  split; [vm_compute; reflexivity|]. split; [vm_compute; reflexivity|].
  split; [vm_compute; reflexivity|].
  split; intros clock; vm_compute; reflexivity.
Qed.


(** ** Persistence *)

Lemma findContentSize_le (region : list byte) :
  (Store.findContentSize region <= length region)%nat.
Proof. induction region as [|b r IH]; simpl; [lia|]. destruct (Byte.eqb b x00); simpl; lia. Qed.

Lemma findContentSize_padded (region : list byte) (n : nat) :
  Store.findContentSize (region ++ replicate n x00) = Store.findContentSize region.
Proof.
  induction region as [|b r IH]; simpl.
  - by destruct n.
  - destruct (Byte.eqb b x00); [done|]. by rewrite IH.
Qed.

Lemma content_padded (region : list byte) (n : nat) :
  content (region ++ replicate n x00) = content region.
Proof.
  unfold content. rewrite findContentSize_padded.
  apply take_app_le, findContentSize_le.
Qed.

Lemma truncate_file_pads (newSize : Z) (file : list byte) :
  len file <= newSize ->
  Store.truncate_file newSize file
  = file ++ replicate (Z.to_nat newSize - length file) x00.
Proof.
  intros Hle. unfold Store.truncate_file. rewrite take_ge; [done|]. unfold len in Hle. lia.
Qed.


Section reopening.
Context {root : Sqrt} {codec : Codec}.

Lemma Update_fresh key value :
  IndexManager.Update key value IndexManager.NewIndexManager
  = Ret (IndexManager.NewIndexManager, None).
Proof.
  unfold IndexManager.Update. destruct value; reflexivity.
Qed.

Lemma load_indexes_fresh clock (entries : list (string * Entry)) :
  Store.load_indexes clock entries IndexManager.NewIndexManager
  = Ret (IndexManager.NewIndexManager, None).
Proof.
  induction entries as [|[key entry] rest IH]; simpl; [done|].
  destruct (expired (Unix clock) entry); [done|].
  rewrite Update_fresh. simpl. exact IH.
Qed.

Lemma mapped_file_padded file opts :
  exists n, mapped_file file opts = file ++ replicate n x00.
Proof.
  unfold mapped_file. destruct (Z.ltb_spec (len file) (Store.InitialSize opts)).
  - eexists. apply truncate_file_pads. lia.
  - exists 0%nat. by rewrite app_nil_r.
Qed.

(** What [NewStore] returns is decided by the encoded block of the file. *)
Lemma NewStore_inv file opts clock s :
  Store.NewStore file opts clock = Ret (Some s, None) ->
  mapped_file file opts <> []
  /\ Store.mm s = mapped_file file opts
  /\ Store.locked s = false /\ Store.dirty s = false
  /\ (if decide (content file = []) then Store.data s = ∅
      else Decode (content file) = Some (Store.data s)).
Proof.
  unfold Store.NewStore. fold (mapped_file file opts).
  destruct (mapped_file_padded file opts) as [n Hn].
  assert (Hc : content (mapped_file file opts) = content file)
    by (rewrite Hn; apply content_padded).
  destruct (mapped_file file opts) as [|b region] eqn:Hfile; [done|].
  unfold Store.load, Store.Lock. cbn [Store.locked mbind outcome_bind obind].
  cbn [Store.set_locked Store.mm Store.locked Store.data Store.dirty Store.stats Store.indexes].
  unfold content in Hc at 1.
  destruct (Store.findContentSize (b :: region)) as [|size] eqn:Hsize.
  - simpl. intros [= <-]. simpl. repeat split; try done.
    rewrite decide_True; [done|]. by rewrite <- Hc.
  - rewrite Hc. destruct (Decode (content file)) as [tempData|] eqn:Hdec; [|done].
    rewrite load_indexes_fresh. simpl. intros [= <-]. simpl. repeat split; try done.
    rewrite decide_False; [done|]. rewrite <- Hc. done.
Qed.

Lemma Set_effect key value clock elapsed s s' err :
  Store.Set_ key value clock elapsed s = Ret (s', err) ->
  Store.locked s' = false /\ Store.dirty s' = true /\ Store.mm s' = Store.mm s
  /\ Store.data s'
     = <[key := {| EValue := value; Timestamp := Unix clock; TTL := 0 |}]> (Store.data s).
Proof.
  unfold Store.Set_, Store.Lock. destruct (Store.locked s); simpl; [done|].
  destruct (IndexManager.Update key value _) as [[im e]| | |]; simpl; try done.
  by intros [= <- _].
Qed.

(** A new data file opens as the empty store of the initial size. *)
Lemma NewStore_new_file clock :
  Store.NewStore [] small_options clock = Ret (Some (empty_store 64), None).
Proof. reflexivity. Qed.

End reopening.

(** C1 fails on the code.  A store is opened on a new file of 16 bytes and
    one [Set] returns: the document is in the map and has no TTL.  The
    encoding of the map has 46 bytes, so [Sync] has to grow the file and
    blocks forever in [resize], whatever the clock readings are, without
    writing a byte: the region still holds 16 zero bytes.  A store then
    constructed on that file loads an empty map: the pair that was set is
    lost. *)
Theorem set_then_sync_loses_pair :
  Store.NewStore (root := isqrt) (codec := alpha_codec) [] tiny_options 0
    = Ret (Some (empty_store 16), None)
  /\ run_sets (root := isqrt) [("x", alpha_doc, 100000000000, 0%Q)] (empty_store 16)
     = Ret small_store
  /\ Store.data small_store !! "x"
     = Some {| EValue := alpha_doc; Timestamp := 100; TTL := 0 |}
  /\ (forall clock, Store.Sync (codec := alpha_codec) 2 clock small_store = Block)
  /\ Store.mm small_store = replicate 16 x00
  /\ (exists reopened,
        Store.NewStore (root := isqrt) (codec := alpha_codec) (Store.mm small_store)
          tiny_options 200000000000
        = Ret (Some reopened, None)
        /\ Store.data reopened = ∅).
Proof.
  split; [vm_compute; reflexivity|]. split; [vm_compute; reflexivity|].
  split; [vm_compute; reflexivity|]. split; [intros clock; vm_compute; reflexivity|].
  split; [vm_compute; reflexivity|].
  eexists. split; [vm_compute; reflexivity|]. reflexivity.
Qed.

(** ** Instances of the conditional theorems *)

(** A search with [k = 0] on a two-dimensional index holding one vector. *)
Lemma search_zero_max_results_witness :
  VectorIndex.Search (root := isqrt) [1%Q; 0%Q] 0 plane_index = Ret ([], None).
Proof.
  apply (proj1 (search_zero_max_results (root := isqrt))).
  - apply VectorIndex_Update_wf, NewVectorIndex_wf.
  - reflexivity.
Defined.

(** Creating an ordered index under its type name, btree. *)
Lemma create_index_types_witness :
  (Store.CreateIndex "tag" "btree" (empty_store 64)).2 = None
  /\ index_present "tag" "btree"
       (Store.indexes (Store.CreateIndex "tag" "btree" (empty_store 64)).1)
  /\ (index_present "tag" "btree" (Store.indexes (empty_store 64)) ->
      (Store.CreateIndex "tag" "btree" (empty_store 64)).1 = empty_store 64).
Proof.
  apply (proj1 (create_index_types "tag" "btree" (empty_store 64))).
  left. reflexivity.
Defined.

(** * Further properties *)

(** ** The encoded block of a region *)

(** X1.  [findContentSize] returns the position of the first zero byte of
    the region, or the length of the region if it holds none: the result
    is within the region, no byte before it is zero, the byte at it (if
    any) is zero, and it is the whole length exactly when no byte is zero. *)
Theorem findContentSize_first_zero (region : list byte) :
  let n := Store.findContentSize region in
  (n <= length region)%nat
  /\ Forall (fun b => b <> x00) (take n region)
  /\ ((n < length region)%nat -> region !! n = Some x00)
  /\ (n = length region <-> Forall (fun b => b <> x00) region).
Proof.
  induction region as [|b rest (Hle & Hpre & Hat & Hall)]; simpl.
  - split; [lia|]. split; [constructor|]. split; [lia|]. split; [constructor|done].
  - destruct (Byte.eqb b x00) eqn:Hb.
    + apply byte_dec_bl in Hb as ->. simpl.
      split; [lia|]. split; [constructor|]. split; [done|]. split; [done|].
      intros Hall'. by apply Forall_cons in Hall' as [? _].
    + apply eqb_false in Hb. simpl. split; [lia|]. split; [by constructor|]. split.
      * intros Hlt. apply Hat. lia.
      * split.
        -- intros [= Hn]. constructor; [done|]. by apply Hall.
        -- intros [_ Hr]%Forall_cons. f_equal. by apply Hall.
Qed.

Section store_facts.
Context {root : Sqrt} {codec : Codec}.

Lemma mapped_file_nil file opts :
  mapped_file file opts = [] <-> file = [] /\ Store.InitialSize opts <= 0.
Proof.
  unfold mapped_file, len. destruct (Z.ltb_spec (Z.of_nat (length file)) (Store.InitialSize opts))
    as [Hlt|Hge].
  - unfold Store.truncate_file. split.
    + intros Hnil. apply app_eq_nil in Hnil as [_ Hrep].
      apply (f_equal length) in Hrep. rewrite length_replicate in Hrep. simpl in Hrep. lia.
    + intros [-> Hsz]. simpl in Hlt. lia.
  - split.
    + intros ->. simpl in Hge. split; [done|lia].
    + by intros [-> _].
Qed.

Lemma NewStore_indexes file opts clock s err :
  Store.NewStore file opts clock = Ret (Some s, err) ->
  err = None /\ Store.indexes s = IndexManager.NewIndexManager.
Proof.
  unfold Store.NewStore. fold (mapped_file file opts).
  destruct (mapped_file file opts) as [|b region]; [done|].
  unfold Store.load, Store.Lock. cbn [Store.locked mbind outcome_bind obind].
  cbn [Store.set_locked Store.mm Store.locked Store.data Store.dirty Store.stats Store.indexes].
  destruct (Store.findContentSize (b :: region)) as [|size].
  - simpl. by intros [= <- <-].
  - destruct (Decode _) as [tempData|]; [|done].
    rewrite load_indexes_fresh. simpl. by intros [= <- <-].
Qed.

(** X2.  The outcomes of [NewStore].  On an empty file with a non-positive
    initial size the mapping fails; on a file whose content (the bytes up to
    the first zero byte) does not decode, the load error is returned; in
    both cases no store is returned.  Otherwise a store is returned without
    error.  A returned store maps the file zero-extended to the initial
    size, is unlocked and clean, has no index at all, and holds no document
    if the content is empty and the decoded content otherwise (expired
    entries included). *)
Theorem NewStore_outcome file opts clock :
  (file = [] -> Store.InitialSize opts <= 0 ->
   exists msg, Store.NewStore file opts clock = Ret (None, Some msg)
               /\ String.prefix "failed to map file: " msg = true)
  /\ (content file <> [] -> Decode (content file) = None ->
      exists msg, Store.NewStore file opts clock = Ret (None, Some msg)
                  /\ String.prefix "error loading existing data: failed to decode YAML"
                       msg = true)
  /\ (mapped_file file opts <> [] -> content file = [] \/ is_Some (Decode (content file)) ->
      exists s, Store.NewStore file opts clock = Ret (Some s, None))
  /\ (forall s err,
        Store.NewStore file opts clock = Ret (Some s, err) ->
        err = None
        /\ Store.mm s = mapped_file file opts
        /\ Store.locked s = false /\ Store.dirty s = false
        /\ Store.indexes s = IndexManager.NewIndexManager
        /\ (content file = [] /\ Store.data s = ∅
            \/ content file <> [] /\ Decode (content file) = Some (Store.data s))).
Proof.
  split; [|split; [|split]].
  - intros Hf Hsz. unfold Store.NewStore. fold (mapped_file file opts).
    rewrite (proj2 (mapped_file_nil file opts)) by done. eauto.
  - intros Hc Hdec. unfold Store.NewStore. fold (mapped_file file opts).
    destruct (mapped_file_padded file opts) as [n Hn].
    assert (Hcm : content (mapped_file file opts) = content file)
      by (rewrite Hn; apply content_padded).
    destruct (mapped_file file opts) as [|b region] eqn:Hmapped.
    { by destruct Hc; rewrite <- Hcm. }
    unfold Store.load, Store.Lock. cbn [Store.locked mbind outcome_bind obind].
    cbn [Store.set_locked Store.mm Store.locked Store.data Store.dirty Store.stats Store.indexes].
    unfold content in Hcm at 1.
    destruct (Store.findContentSize (b :: region)) as [|size] eqn:Hsize.
    { by destruct Hc; rewrite <- Hcm. }
    rewrite Hcm, Hdec. eauto.
  - intros Hm Hok.
    assert (Hfile : file <> [] \/ 0 < Store.InitialSize opts).
    { destruct file; [right|by left].
      destruct (Z.ltb_spec 0 (Store.InitialSize opts)); [done|].
      destruct Hm. by apply mapped_file_nil. }
    destruct (decide (content file = [])) as [Hc|Hc].
    + unfold Store.NewStore. fold (mapped_file file opts).
      destruct (mapped_file_padded file opts) as [n Hn].
      assert (Hcm : content (mapped_file file opts) = content file)
        by (rewrite Hn; apply content_padded).
      destruct (mapped_file file opts) as [|b region] eqn:Hmapped; [done|].
      unfold Store.load, Store.Lock. cbn [Store.locked mbind outcome_bind obind].
      cbn [Store.set_locked Store.mm Store.locked Store.data Store.dirty Store.stats Store.indexes].
      unfold content in Hcm at 1.
      destruct (Store.findContentSize (b :: region)) as [|size] eqn:Hsize.
      * simpl. eauto.
      * by rewrite Hc in Hcm.
    + destruct Hok as [Hok|[m Hmd]]; [done|].
      unfold Store.NewStore. fold (mapped_file file opts).
      destruct (mapped_file_padded file opts) as [n Hn].
      assert (Hcm : content (mapped_file file opts) = content file)
        by (rewrite Hn; apply content_padded).
      destruct (mapped_file file opts) as [|b region] eqn:Hmapped; [done|].
      unfold Store.load, Store.Lock. cbn [Store.locked mbind outcome_bind obind].
      cbn [Store.set_locked Store.mm Store.locked Store.data Store.dirty Store.stats Store.indexes].
      unfold content in Hcm at 1.
      destruct (Store.findContentSize (b :: region)) as [|size] eqn:Hsize.
      * by destruct Hc; rewrite <- Hcm.
      * rewrite Hcm, Hmd, load_indexes_fresh. simpl. eauto.
  - intros s err Hnew. destruct (NewStore_indexes _ _ _ _ _ Hnew) as [-> Hidx].
    destruct (NewStore_inv _ _ _ _ Hnew) as (_ & Hmm & Hl & Hd & Hdata).
    repeat split; try done.
    destruct (decide (content file = [])); [by left|by right].
Qed.
End store_facts.

(** ** Reads, writes and deletes *)

Section crud.
Context {root : Sqrt} {codec : Codec}.

Lemma Get_result key clock elapsed s :
  Store.locked s = false ->
  Store.Get key clock elapsed s
  = Ret (lookup_live clock key (Store.data s), Store.updateReadStats elapsed s).
Proof.
  intros Hl. unfold Store.Get, Store.Lock. rewrite Hl. simpl.
  unfold lookup_live. do 3 f_equal. by destruct s; simpl in *; subst.
Qed.

(** X3.  Read after write.  After [Set(key, value)] has returned, [Get(key)]
    at any later clock reading returns the entry with that value, the
    timestamp of the write and no TTL, and [Get] of every other key finds
    what it found before the write. *)
Theorem get_after_set key value clock elapsed s s' err :
  Store.Set_ key value clock elapsed s = Ret (s', err) ->
  forall clock' elapsed',
    (exists s'',
        Store.Get key clock' elapsed' s'
        = Ret ((Some {| EValue := value; Timestamp := Unix clock; TTL := 0 |}, false), s''))
    /\ (forall other, other <> key ->
          exists s1 s2 found,
            Store.Get other clock' elapsed' s' = Ret (found, s1)
            /\ Store.Get other clock' elapsed' s = Ret (found, s2)).
Proof.
  intros Hset clock' elapsed'.
  assert (Hl : Store.locked s = false).
  { unfold Store.Set_, Store.Lock in Hset. by destruct (Store.locked s). }
  apply Set_effect in Hset as (Hl' & _ & _ & Hd). split.
  - rewrite Get_result by done. unfold lookup_live. rewrite Hd, lookup_insert_eq.
    unfold expired. simpl. eauto.
  - intros other Hne. rewrite !Get_result by done. unfold lookup_live.
    rewrite Hd, lookup_insert_ne by done. eauto.
Qed.

Lemma Remove_result key im im' :
  IndexManager.Remove key im = Ret im' ->
  IndexManager.vectors im' = VectorIndex.Remove key <$> IndexManager.vectors im
  /\ IndexManager.text im' = TrigramIndex.Remove key <$> IndexManager.text im.
Proof.
  unfold IndexManager.Remove.
  destruct (IndexManager.remove_trees key (IndexManager.trees im)); simpl; try done.
  by intros [= <-].
Qed.

Lemma TrigramIndex_Remove_docs key ti : TrigramIndex.docs (TrigramIndex.Remove key ti) !! key = None.
Proof.
  unfold TrigramIndex.Remove. destruct (TrigramIndex.docs ti !! key) eqn:Hk; [|done].
  apply lookup_delete_eq.
Qed.

(** X4.  Whenever [Delete(key)] returns, the key is gone from the document
    map and nothing else of the map or of the mapped region has changed, the
    lock is released and [Get(key)] finds nothing.  If the key was absent
    the store is unchanged (not even marked dirty); if it was present the
    store is dirty, the delete counter is one higher, and no text or vector
    index mentions the key any more. *)
Theorem delete_removes_key key s s' :
  Store.Delete key s = Ret s' ->
  Store.data s' = delete key (Store.data s)
  /\ Store.mm s' = Store.mm s /\ Store.locked s' = false
  /\ (forall clock elapsed, exists s'',
         Store.Get key clock elapsed s' = Ret ((None, false), s''))
  /\ (Store.data s !! key = None -> s' = s)
  /\ (is_Some (Store.data s !! key) ->
      Store.dirty s' = true
      /\ Deletes (Store.stats s') = Deletes (Store.stats s) + 1
      /\ (forall field idx, IndexManager.text (Store.indexes s') !! field = Some idx ->
                            TrigramIndex.docs idx !! key = None)
      /\ (forall field vi, IndexManager.vectors (Store.indexes s') !! field = Some vi ->
                           VectorIndex.vectors vi !! key = None)).
Proof.
  unfold Store.Delete, Store.Lock. destruct (Store.locked s) eqn:Hl; simpl; [done|].
  destruct (Store.data s !! key) as [entry|] eqn:Hk.
  - destruct (IndexManager.Remove key _) as [im| | |] eqn:Hrm; simpl; try done.
    intros [= <-]. simpl. apply Remove_result in Hrm as [Hv Ht]. simpl in Hv, Ht.
    split; [done|]. split; [done|]. split; [done|]. split.
    { intros clock elapsed. rewrite Get_result by done. unfold lookup_live. simpl.
      rewrite lookup_delete_eq. eauto. }
    split; [done|]. intros _. split; [done|]. split; [done|]. split.
    + intros field idx. rewrite Ht, lookup_fmap.
      destruct (IndexManager.text (Store.indexes s) !! field); simpl; [|done].
      intros [= <-]. apply TrigramIndex_Remove_docs.
    + intros field vi. rewrite Hv, lookup_fmap.
      destruct (IndexManager.vectors (Store.indexes s) !! field); simpl; [|done].
      intros [= <-]. apply lookup_delete_eq.
  - intros [= <-]. simpl. split; [by rewrite delete_id|].
    split; [done|]. split; [done|]. split.
    { intros clock elapsed. rewrite Get_result by done. unfold lookup_live. simpl.
      rewrite Hk. eauto. }
    split; [|by intros [? ?]]. intros _. destruct s; simpl in *; by subst.
Qed.
End crud.

(** ** The collector of expired entries *)

Lemma sweep_lookup now (l : list (string * Entry)) d k :
  sweep now l d !! k
  = if existsb (fun kv => String.eqb kv.1 k && expired now kv.2) l then None else d !! k.
Proof.
  unfold sweep. revert d. induction l as [|[k' e'] l IH]; intros d; [done|].
  cbn [foldl existsb]. rewrite IH. simpl.
  destruct (existsb _ l); [by rewrite orb_true_r|]. rewrite orb_false_r.
  destruct (expired now e') eqn:He'; [|by rewrite andb_false_r].
  rewrite andb_true_r. destruct (String.eqb_spec k' k) as [->|Hne].
  - apply lookup_delete_eq.
  - by apply lookup_delete_ne.
Qed.

Lemma sweep_map now (m : gmap string Entry) : sweep now (map_to_list m) m = unexpired now m.
Proof.
  apply map_eq. intros k. rewrite sweep_lookup. unfold unexpired.
  rewrite map_lookup_filter.
  destruct (existsb _ _) eqn:Hex.
  - apply existsb_exists in Hex as ([k' e] & Hin%list_elem_of_In & [Hk He]%andb_prop).
    simpl in *. apply String.eqb_eq in Hk as ->. apply elem_of_map_to_list in Hin.
    rewrite Hin. simpl. by rewrite option_guard_False by congruence.
  - destruct (m !! k) as [e|] eqn:Hk; simpl; [|done].
    destruct (expired (now) e) eqn:He.
    + assert (Habs : existsb (fun kv => String.eqb kv.1 k && expired now kv.2)
                       (map_to_list m) = true); [|congruence].
      apply existsb_exists. exists (k, e). split.
      * by apply list_elem_of_In, elem_of_map_to_list.
      * simpl. by rewrite String.eqb_refl, He.
    + by rewrite option_guard_True.
Qed.

Section collector.
Context {root : Sqrt}.

Lemma gc_loop_unfold now s :
  Store.gc_loop now s = forM (gc_step now) (map_to_list (Store.data s)) (s, 0).
Proof. reflexivity. Qed.

Lemma gc_loop_effect now (l : list (string * Entry)) s0 n0 s1 n1 :
  forM (gc_step now) l (s0, n0) = Ret (s1, n1) ->
  Store.data s1 = sweep now l (Store.data s0)
  /\ Store.mm s1 = Store.mm s0 /\ Store.locked s1 = Store.locked s0
  /\ Store.stats s1 = Store.stats s0
  /\ n1 = n0 + expired_in now l
  /\ Store.dirty s1 = (Store.dirty s0 || bool_decide (0 < expired_in now l)).
Proof.
  revert s0 n0. induction l as [|[key entry] l IH]; intros s0 n0; cbn [forM gc_step].
  - intros [= <- <-]. unfold expired_in, len. simpl. rewrite orb_false_r.
    repeat split. lia.
  - unfold expired_in. rewrite filter_cons. cbn [snd].
    destruct (expired now entry) eqn:He; cbn [mbind outcome_bind obind].
    + destruct (IndexManager.Remove key _) as [im| | |]; cbn [mbind outcome_bind obind]; try done.
      intros Hrest. apply IH in Hrest as (Hd & Hmm & Hl & Hst & Hn & Hdirty).
      simpl in Hd, Hmm, Hl, Hst, Hdirty. rewrite decide_True by done.
      fold (expired_in now l).
      assert (Hlen : len ((key, entry) :: filter (fun kv : string * Entry =>
                            expired now kv.2 = true) l) = 1 + expired_in now l).
      { unfold expired_in, len. simpl. lia. }
      rewrite Hlen. repeat split; try done; try lia.
      * rewrite Hd. unfold sweep. simpl. by rewrite He.
      * rewrite Hdirty.
        rewrite (bool_decide_eq_true_2 (0 < 1 + expired_in now l))
          by (unfold expired_in, len; lia).
        by rewrite orb_true_r.
    + intros Hrest. apply IH in Hrest as (Hd & Hmm & Hl & Hst & Hn & Hdirty).
      rewrite decide_False by done. repeat split; try done.
      rewrite Hd. unfold sweep. simpl. by rewrite He.
Qed.

Lemma gc_loop_returns now (l : list (string * Entry)) s0 n0 :
  IndexManager.trees (Store.indexes s0) = ∅ ->
  exists s1 n1,
    forM (gc_step now) l (s0, n0) = Ret (s1, n1).
Proof.
  revert s0 n0. induction l as [|[key entry] l IH]; intros s0 n0 Hno; cbn [forM gc_step]; [eauto|].
  destruct (expired now entry); simpl; [|by apply IH].
  rewrite IndexManager_Remove_without_trees by done. simpl. by apply IH.
Qed.

(** X5.  The collector of expired entries.  On an unlocked store without
    ordered index [gcExpiredEntries] returns.  Whenever it returns, the
    documents left are exactly those not expired at the collector's clock
    reading, the mapped region is untouched, the lock is released, the
    expired counter has grown by the number of documents removed, and the
    store is marked dirty if and only if it was dirty or some document was
    removed. *)
Theorem gc_keeps_unexpired clock s :
  (Store.locked s = false -> IndexManager.trees (Store.indexes s) = ∅ ->
   exists s', Store.gcExpiredEntries clock s = Ret s')
  /\ (forall s',
        Store.gcExpiredEntries clock s = Ret s' ->
        Store.data s' = unexpired (Unix clock) (Store.data s)
        /\ Store.mm s' = Store.mm s /\ Store.locked s' = false
        /\ ExpiredCount (Store.stats s')
           = ExpiredCount (Store.stats s)
             + (Z.of_nat (size (Store.data s)) - Z.of_nat (size (Store.data s')))
        /\ Store.dirty s'
           = (Store.dirty s || bool_decide (size (Store.data s') < size (Store.data s))%nat)).
Proof.
  split.
  - intros Hl Hno. unfold Store.gcExpiredEntries, Store.Lock. rewrite Hl.
    cbn [mbind outcome_bind obind]. rewrite gc_loop_unfold.
    destruct (gc_loop_returns (Unix clock)
                (map_to_list (Store.data (Store.set_locked true s)))
                (Store.set_locked true s) 0) as (s1 & n1 & Hloop); [done|].
    rewrite Hloop. simpl. eauto.
  - intros s'. unfold Store.gcExpiredEntries, Store.Lock.
    destruct (Store.locked s) eqn:Hl; cbn [mbind outcome_bind obind]; [done|].
    rewrite gc_loop_unfold.
    destruct (forM _ _ _) as [[s1 n1]| | |] eqn:Hloop; cbn [mbind outcome_bind obind];
      try done.
    apply gc_loop_effect in Hloop as (Hd & Hmm & Hl1 & Hst & Hn & Hdirty). simpl in *.
    rewrite sweep_map in Hd.
    assert (Hsize : expired_in (Unix clock) (map_to_list (Store.data s))
                    = Z.of_nat (size (Store.data s)) - Z.of_nat (size (Store.data s1))).
    { rewrite Hd. unfold unexpired, expired_in, len.
      rewrite <- (map_filter_union_complement
                    (fun kv : string * Entry => expired (Unix clock) kv.2 = false)
                    (Store.data s)) at 2.
      rewrite map_size_disj_union by apply map_disjoint_filter_complement.
      rewrite (map_filter_alt (fun kv => ¬ expired (Unix clock) kv.2 = false)).
      rewrite map_size_list_to_map.
      2:{ apply NoDup_fmap_fst; [|apply NoDup_filter, NoDup_map_to_list].
          intros k e1 e2 [_ H1]%list_elem_of_filter [_ H2]%list_elem_of_filter.
          apply elem_of_map_to_list in H1, H2. congruence. }
      rewrite (list_filter_iff (fun kv : string * Entry => ¬ expired (Unix clock) kv.2 = false)
                 (fun kv : string * Entry => expired (Unix clock) kv.2 = true));
        [lia|].
      intros [k e]. simpl. by destruct (expired (Unix clock) e). }
    intros [= <-].
    assert (Hdirty' : Store.dirty s1
              = (Store.dirty s
                 || bool_decide (size (Store.data s1) < size (Store.data s))%nat)).
    { rewrite Hdirty. f_equal. apply bool_decide_ext. lia. }
    destruct (Z.ltb_spec 0 n1) as [Hpos|Hzero]; simpl.
    + repeat split; try done. rewrite Hst, Hn, Hsize. simpl. ring.
    + assert (Hnn : 0 <= expired_in (Unix clock) (map_to_list (Store.data s)))
        by (unfold expired_in, len; lia).
      repeat split; try done. rewrite Hst. rewrite Hsize in *. lia.
Qed.
End collector.

(** ** Flushing and growth *)




Section flush.
Context {codec : Codec}.













End flush.

Section negative_ttl.
Context {root : Sqrt} {codec : Codec}.

(** X7.  A negative duration.  After [SetWithTTL] with a duration of minus
    one second or less has succeeded, [Get] returns the entry at every
    clock reading (its TTL is negative, and only a positive TTL expires),
    but the map that [sync] encodes at any clock reading from the time of
    the write on leaves the key out: the entry is served from memory and
    never written to the file. *)
Theorem negative_ttl_never_flushed key value ttl clock s s' :
  - 2 ^ 63 <= ttl <= - 1000000000 -> 0 <= clock < 2 ^ 63 ->
  Store.SetWithTTL key value ttl clock s = Ret (s', None) ->
  (forall clock' elapsed, exists entry s'',
      Store.Get key clock' elapsed s' = Ret ((Some entry, false), s'')
      /\ EValue entry = value /\ TTL entry < 0)
  /\ (forall clock', clock <= clock' ->
        Store.cleanData (Unix clock') (Store.data s') !! key = None).
Proof.
  intros Httl Hclock Hset.
  destruct (SetWithTTL_stores _ _ _ _ _ _ _ Hset) as [Hl Hd].
  assert (Hs : - (2 ^ 63 / 1000000000) - 2 <= Seconds ttl <= -1).
  { change (2 ^ 63) with 9223372036854775808 in *.
    destruct (Seconds_bounds ttl) as [_ Hneg];
      [change (2 ^ 63) with 9223372036854775808; lia|].
    specialize (Hneg ltac:(lia)).
    assert (Hq : ttl ÷ 1000000000 = - ((- ttl) / 1000000000)).
    { rewrite <- (Z.quot_div_nonneg (- ttl) 1000000000) by lia.
      rewrite Z.quot_opp_l by lia. lia. }
    pose proof (Z.div_le_lower_bound (- ttl) 1000000000 1 ltac:(lia) ltac:(lia)).
    pose proof (Z.div_le_mono (- ttl) 9223372036854775808 1000000000
                  ltac:(lia) ltac:(lia)).
    lia. }
  split.
  - intros clock' elapsed. destruct (Get_unlocked key clock' elapsed s' Hl) as [s'' ->].
    rewrite Hd. unfold expired. simpl.
    rewrite (proj2 (Z.ltb_ge 0 (Seconds ttl))) by lia. simpl.
    eexists _, _. split; [done|]. simpl. split; [done|lia].
  - intros clock' Hlater. unfold Store.cleanData. apply map_lookup_filter_None. right.
    intros e. rewrite Hd. intros [= <-]. simpl. unfold live_at_sync. simpl.
    change (2 ^ 63) with 9223372036854775808 in *.
    assert (Hu : 0 <= Unix clock <= 9223372036854775808 / 1000000000).
    { unfold Unix. split; [apply Z.div_pos; lia|apply Z.div_le_mono; lia]. }
    pose proof (Unix_mono _ _ Hlater) as Hm.
    change (9223372036854775808 / 1000000000) with 9223372036 in *.
    rewrite wrap64_small by lia.
    rewrite (proj2 (Z.eqb_neq _ 0)) by lia.
    rewrite (proj2 (Z.leb_gt _ _)) by lia. simpl. tauto.
Qed.
End negative_ttl.

(** X8.  The size [growFile] asks [resize] for.  For a region of positive
    length below 2^62 and a required size of at most 2^62, the doubling
    loop leaves with the least of the sizes 2 * current, 4 * current, ...
    that is at least the required size (so always at least twice the
    current length).  For a region of length 0 and a positive required size
    the loop never leaves. *)
Theorem growFile_target (currentSize requiredSize : Z) :
  (0 < currentSize < 2 ^ 62 -> requiredSize <= 2 ^ 62 ->
   exists k : nat,
     Store.doubling 65 (wrap64 (currentSize * 2)) requiredSize
       = Ret (currentSize * 2 ^ Z.of_nat (S k))
     /\ requiredSize <= currentSize * 2 ^ Z.of_nat (S k)
     /\ (forall j : nat, (j < k)%nat -> currentSize * 2 ^ Z.of_nat (S j) < requiredSize))
  /\ (currentSize = 0 -> 0 < requiredSize ->
      Store.doubling 65 (wrap64 (currentSize * 2)) requiredSize = Spin).
Proof.
  split.
  - intros Hcur Hreq. rewrite wrap64_small by lia.
    destruct (doubling_returns 64 (currentSize * 2) requiredSize) as (k & Hk & Hle & Hmin);
      [lia|lia| |].
    { change (2 ^ Z.of_nat 64) with 18446744073709551616. lia. }
    exists k.
    assert (Hpow : forall j : nat, currentSize * 2 ^ Z.of_nat (S j)
                                   = currentSize * 2 * 2 ^ Z.of_nat j).
    { intros j. rewrite Nat2Z.inj_succ, Z.pow_succ_r by lia. lia. }
    rewrite Hpow. split; [done|]. split; [done|].
    intros j Hj. rewrite Hpow. by apply Hmin.
  - intros -> Hreq. change (wrap64 (0 * 2)) with 0.
    generalize 65%nat. intros fuel. induction fuel as [|fuel IH]; simpl; [done|].
    rewrite (proj2 (Z.ltb_lt 0 requiredSize)) by done. exact IH.
Qed.

(** ** Histories of a trigram index *)

Lemma elem_of_take_list {A} (x : A) (n : nat) (l : list A) : x ∈ take n l -> x ∈ l.
Proof. intros (i & Hi & _)%elem_of_take. by eapply list_elem_of_lookup_2. Qed.

Lemma filter_all {A} (P : A -> Prop) `{forall x, Decision (P x)} (l : list A) :
  Forall P l -> filter P l = l.
Proof.
  induction 1 as [|x l Hx _ IH]; [done|]. by rewrite filter_cons_True, IH.
Qed.

Section trigram_history.
Import TrigramIndex.
Implicit Types (tg : gmap string (gset string)) (l : list string).

Lemma retract_fold_pruned key l tg :
  pruned tg ->
  pruned (foldl (fun tg trigram =>
                   match tg !! trigram with
                   | Some ds =>
                       let ds' := ds ∖ {[key]} in
                       if decide (size ds' = 0%nat) then delete trigram tg
                       else <[trigram := ds']> tg
                   | None => tg
                   end) tg l).
Proof.
  revert tg. induction l as [|t l IH]; intros tg Hp; cbn [foldl]; [done|].
  apply IH. intros g ds. destruct (tg !! t) as [dt|] eqn:Ht; [|apply Hp].
  cbv zeta. destruct (decide (size (dt ∖ {[key]}) = 0%nat)) as [Hz|Hz].
  - intros Hg. apply lookup_delete_Some in Hg as [_ Hg]. by apply (Hp g).
  - destruct (decide (g = t)) as [->|Hne].
    + rewrite lookup_insert_eq. intros [= <-] He. apply Hz.
      rewrite He. apply size_empty.
    + rewrite lookup_insert_ne by done. apply Hp.
Qed.

Lemma insert_fold_pruned key l tg :
  pruned tg ->
  pruned (foldl (fun tg trigram => <[trigram := {[key]} ∪ default ∅ (tg !! trigram)]> tg)
            tg l).
Proof.
  revert tg. induction l as [|t l IH]; intros tg Hp; cbn [foldl]; [done|].
  apply IH. intros g ds. destruct (decide (g = t)) as [->|Hne].
  - rewrite lookup_insert_eq. intros [= <-]. set_solver.
  - rewrite lookup_insert_ne by done. apply Hp.
Qed.

Lemma Update_pruned key text ti : pruned (trigrams ti) -> pruned (trigrams (Update key text ti)).
Proof.
  intros Hp. unfold Update. simpl. apply insert_fold_pruned.
  destruct (docs ti !! key); [by apply retract_fold_pruned|done].
Qed.

Lemma Remove_pruned key ti : pruned (trigrams ti) -> pruned (trigrams (Remove key ti)).
Proof.
  intros Hp. unfold Remove. destruct (docs ti !! key); [|done].
  simpl. by apply retract_fold_pruned.
Qed.

(** A coherent index without empty postings is determined by its texts. *)
Lemma coherent_pruned_eq ti1 ti2 :
  coherent ti1 -> pruned (trigrams ti1) ->
  coherent ti2 -> pruned (trigrams ti2) ->
  docs ti1 = docs ti2 -> ti1 = ti2.
Proof.
  intros Hc1 Hp1 Hc2 Hp2 Hd.
  assert (Hpost : forall g, posting ti1 g = posting ti2 g).
  { intros g. apply set_eq. intros k. rewrite (Hc1 g k), (Hc2 g k), Hd. done. }
  destruct ti1 as [tg1 d1], ti2 as [tg2 d2]. simpl in *. subst d2. f_equal.
  apply map_eq. intros g. specialize (Hpost g). unfold posting in Hpost. simpl in Hpost.
  destruct (tg1 !! g) as [ds1|] eqn:H1, (tg2 !! g) as [ds2|] eqn:H2; simpl in Hpost.
  - by rewrite Hpost.
  - by destruct (Hp1 g ds1 H1).
  - by destruct (Hp2 g ds2 H2).
  - done.
Qed.

Lemma text_history_snoc calls c :
  text_history (calls ++ [c]) = text_step (text_history calls) c.
Proof. unfold text_history. by rewrite foldl_app. Qed.

Lemma text_history_inv calls :
  coherent (text_history calls)
  /\ pruned (trigrams (text_history calls))
  /\ docs (text_history calls) = texts_of calls.
Proof.
  induction calls as [|c calls IH] using rev_ind.
  - split; [apply NewTrigramIndex_coherent|]. split; [|done].
    intros g ds Hg. change (trigrams (text_history [])) with (∅ : gmap string (gset string)) in Hg.
    by rewrite lookup_empty in Hg.
  - destruct IH as (Hc & Hp & Hd). rewrite text_history_snoc.
    unfold texts_of. rewrite foldl_app. fold (texts_of calls). rewrite <- Hd.
    destruct c as [key text|key]; cbn [text_step foldl].
    + split; [by apply Update_coherent|]. split; [by apply Update_pruned|done].
    + split; [by apply Remove_coherent|]. split; [by apply Remove_pruned|].
      unfold Remove. destruct (docs (text_history calls) !! key) eqn:Hk; [done|].
      by rewrite delete_id.
Qed.

(** X9.  A trigram index is determined by the texts it remembers.  After any
    history of [Update] and [Remove] calls on a new index, the postings hold
    exactly the trigrams of the remembered texts, no trigram is kept with
    an empty posting, the remembered texts are the last text given for each
    key not removed since, and two histories that leave the same texts
    leave the same index. *)
Theorem trigram_history_independent (calls calls' : list text_call) :
  coherent (text_history calls)
  /\ pruned (trigrams (text_history calls))
  /\ docs (text_history calls) = texts_of calls
  /\ (texts_of calls = texts_of calls' -> text_history calls = text_history calls').
Proof.
  destruct (text_history_inv calls) as (Hc & Hp & Hd).
  destruct (text_history_inv calls') as (Hc' & Hp' & Hd').
  split; [done|]. split; [done|]. split; [done|].
  intros Heq. apply coherent_pruned_eq; try done. congruence.
Qed.

Lemma full_search_key ti query key :
  key ∈ Key <$> Search query 0 ti <-> matches ti query key <> 0.
Proof.
  rewrite Search_unfold, truncate_take. simpl.
  rewrite merge_sort_Permutation, scored_keys, list_elem_of_fmap. split.
  - intros [[k m] [-> Hin%elem_of_map_to_list]]. simpl.
    rewrite count_matches_lookup in Hin. by case_decide.
  - intros Hne. exists (key, matches ti query key). split; [done|].
    apply elem_of_map_to_list. rewrite count_matches_lookup.
    by rewrite decide_False.
Qed.

Lemma Search_sublist ti query maxResults r :
  r ∈ Search query maxResults ti -> r ∈ Search query 0 ti.
Proof.
  rewrite !Search_unfold, !truncate_take. simpl.
  destruct (0 <? maxResults); [|done]. apply elem_of_take_list.
Qed.

Lemma full_search_result ti query r :
  r ∈ Search query 0 ti ->
  r = {| Key := Key r;
         Score := inject_Z (matches ti query (Key r))
                  / inject_Z (len (generateTrigrams query));
         Text := default EmptyString (docs ti !! Key r) |}
  /\ matches ti query (Key r) <> 0.
Proof.
  rewrite Search_unfold, truncate_take. simpl. rewrite merge_sort_Permutation.
  unfold scored. intros [[doc m] [-> Hin%elem_of_map_to_list]]%list_elem_of_fmap. simpl.
  rewrite count_matches_lookup in Hin. case_decide; [done|]. by inversion Hin.
Qed.

Lemma matches_le ti query key : 0 <= matches ti query key <= len (generateTrigrams query).
Proof.
  unfold matches, len. split; [lia|]. apply inj_le, length_filter.
Qed.

Lemma matches_all ti query key :
  (forall g, g ∈ generateTrigrams query -> key ∈ posting ti g) ->
  matches ti query key = len (generateTrigrams query).
Proof.
  intros Hall. unfold matches. f_equal. apply filter_all.
  apply Forall_forall. intros g Hg. by apply Hall.
Qed.

(** X10.  An indexed text is found with the full score.  On a coherent index,
    after [Update(key, text)], an unlimited [Search] for a query all of
    whose trigrams are trigrams of the text (the text itself in any letter
    case, for instance) returns the key with score 1 and with the text as
    given; and every score returned is positive and at most 1. *)
Theorem trigram_search_finds_text (ti : t) (key text query : string) :
  coherent ti ->
  (forall g, g ∈ generateTrigrams query -> g ∈ generateTrigrams text) ->
  let full := Search query 0 (Update key text ti) in
  (exists r, r ∈ full /\ Key r = key /\ (Score r == 1)%Q /\ Text r = text)
  /\ (forall r, r ∈ full -> (0 < Score r)%Q /\ (Score r <= 1)%Q).
Proof.
  intros Hco Hsub full.
  pose proof (Update_coherent key text ti Hco) as Hco'.
  pose proof (generateTrigrams_nonempty query) as Hpos.
  assert (Hn : (0 < inject_Z (len (generateTrigrams query)))%Q).
  { rewrite Zlt_Qlt in Hpos. exact Hpos. }
  assert (Hall : matches (Update key text ti) query key = len (generateTrigrams query)).
  { apply matches_all. intros g Hg. apply Hco'. exists text. split; [|by apply Hsub].
    unfold Update. simpl. apply lookup_insert_eq. }
  split.
  - assert (Hin : key ∈ Key <$> full) by (apply full_search_key; lia).
    apply list_elem_of_fmap in Hin as (r & Hk & Hr). exists r.
    destruct (full_search_result _ _ _ Hr) as [Hshape _]. rewrite <- Hk in Hshape.
    split; [done|]. split; [done|]. rewrite Hshape. simpl. rewrite Hall. split.
    + field. intros Hz. rewrite Hz in Hn. by apply Qlt_irrefl in Hn.
    + unfold Update. simpl. by rewrite lookup_insert_eq.
  - intros r Hr. destruct (full_search_result _ _ _ Hr) as [Hshape Hne].
    pose proof (matches_le (Update key text ti) query (Key r)) as Hle.
    rewrite Hshape. simpl. split.
    + apply Qlt_shift_div_l; [done|]. rewrite Qmult_0_l.
      rewrite <- (Zlt_Qlt 0). lia.
    + apply Qle_shift_div_r; [done|]. rewrite Qmult_1_l.
      rewrite <- Zle_Qle. lia.
Qed.

(** X11.  A removed document is not found.  On a coherent index, after
    [Remove(key)] neither [Search] nor [FuzzySearch] returns the key, for
    any query, score bound and limit. *)
Theorem trigram_removed_never_found (ti : t) (key query : string)
    (minScore : Q) (maxResults : Z) :
  coherent ti ->
  (key ∉ (Key <$> Search query maxResults (Remove key ti)))
  /\ (key ∉ (Key <$> FuzzySearch query minScore maxResults (Remove key ti))).
Proof.
  intros Hco. destruct (Remove_clears key ti Hco) as [_ Hclear].
  assert (Hfull : key ∉ (Key <$> Search query 0 (Remove key ti))).
  { rewrite full_search_key, matches_pos. intros (g & _ & Hin). by apply (Hclear g). }
  split.
  - intros (r & Hk & Hr)%list_elem_of_fmap. apply Hfull.
    apply list_elem_of_fmap. exists r. split; [done|]. by apply Search_sublist in Hr.
  - intros (r & Hk & Hr)%list_elem_of_fmap. apply Hfull.
    apply list_elem_of_fmap. exists r. split; [done|].
    unfold FuzzySearch in Hr. rewrite truncate_take in Hr.
    assert (Hf : r ∈ filter (fun r => Qle_bool minScore (Score r))
                   (Search query 0 (Remove key ti))).
    { destruct (0 <? maxResults); [by apply elem_of_take_list in Hr|done]. }
    by apply list_elem_of_filter in Hf as [_ Hf].
Qed.
End trigram_history.

(** ** Vector search *)

Section vector_search.
Context {root : Sqrt}.
Import VectorIndex.

Lemma vector_by_score_total : Total by_score.
Proof.
  intros a b. unfold by_score.
  destruct (Qlt_le_dec (Score a) (Score b)) as [Hlt|Hle].
  - right. apply Is_true_true, Qle_bool_iff, Qlt_le_weak, Hlt.
  - left. apply Is_true_true, Qle_bool_iff, Hle.
Qed.

Lemma vector_by_score_trans : Transitive by_score.
Proof.
  intros a b c Hab%Is_true_true%Qle_bool_iff Hbc%Is_true_true%Qle_bool_iff.
  apply Is_true_true, Qle_bool_iff. by eapply Qle_trans.
Qed.

Lemma Search_scan (normalized : list Q) (l : list (string * list Q))
    (acc : list VectorSearchResult) :
  Forall (fun kv => (length normalized <= length kv.2)%nat) l ->
  exists rs,
    forM (fun '(key, vec) results =>
            similarity ← cosineSimilarity normalized vec 0%Q;
            Ret (results ++ [{| Key := key; Score := similarity |}]))
         l acc = Ret (acc ++ rs)
    /\ Forall2 (fun r kv => Key r = kv.1
                            /\ cosineSimilarity normalized kv.2 0%Q = Ret (Score r)) rs l.
Proof.
  intros Hl. revert acc. induction Hl as [|[key vec] l Hlen _ IH]; intros acc.
  - exists []. split; [by rewrite app_nil_r|constructor].
  - cbn [forM]. simpl in Hlen.
    destruct (cosineSimilarity_returns normalized vec 0%Q Hlen) as [q Hq].
    rewrite Hq. simpl.
    destruct (IH (acc ++ [{| Key := key; Score := q |}])) as (rs & -> & HF).
    exists ({| Key := key; Score := q |} :: rs). split.
    + by rewrite <- app_assoc.
    + constructor; [done|exact HF].
Qed.

Lemma VectorIndex_Search_shape (vi : t) (query : list Q) (k : Z) :
  vector_wf vi -> len query = dim vi -> 0 <= k ->
  exists results,
    Search query k vi = Ret (results, None)
    /\ len results = Z.min k (Z.of_nat (size (vectors vi)))
    /\ NoDup (Key <$> results)
    /\ Sorted (fun a b => (Score b <= Score a)%Q) results
    /\ (forall r, r ∈ results ->
          exists vec, vectors vi !! Key r = Some vec
                      /\ cosineSimilarity (normalizeVector query) vec 0%Q
                         = Ret (Score r))
    /\ (forall r key vec q,
          r ∈ results -> vectors vi !! key = Some vec ->
          key ∉ (Key <$> results) ->
          cosineSimilarity (normalizeVector query) vec 0%Q = Ret q ->
          (q <= Score r)%Q).
Proof.
  intros Hwf Hq Hk. unfold Search. rewrite (proj2 (Z.eqb_eq _ _) Hq). cbn [negb].
  destruct (Search_scan (normalizeVector query) (map_to_list (vectors vi)) [])
    as (rs & -> & HF).
  { apply Forall_forall. intros [key vec] Hin%elem_of_map_to_list. simpl.
    rewrite normalizeVector_length. apply Hwf in Hin. unfold len in *. lia. }
  cbn [mbind outcome_bind obind app].
  set (full := merge_sort by_score rs).
  assert (Hperm : full ≡ₚ rs) by apply merge_sort_Permutation.
  assert (Hsize : length full = size (vectors vi)).
  { rewrite Hperm, (Forall2_length _ _ _ HF), length_map_to_list. done. }
  assert (Hkeys : Key <$> rs = (map_to_list (vectors vi)).*1).
  { clear -HF. induction HF as [|r kv rs l [Hk _] _ IH]; [done|].
    rewrite !fmap_cons. by rewrite Hk, IH. }
  assert (Hnd : NoDup (Key <$> full)).
  { rewrite Hperm, Hkeys. apply NoDup_fst_map_to_list. }
  assert (Hsorted : StronglySorted by_score full).
  { apply StronglySorted_merge_sort; [apply vector_by_score_trans|apply vector_by_score_total]. }
  assert (Hscore : forall r, r ∈ full ->
            exists vec, vectors vi !! Key r = Some vec
                        /\ cosineSimilarity (normalizeVector query) vec 0%Q
                           = Ret (Score r)).
  { intros r Hr. rewrite Hperm in Hr.
    apply list_elem_of_lookup_1 in Hr as [i Hi].
    destruct (Forall2_lookup_l _ _ _ _ _ HF Hi) as ([key vec] & Hkv & Hkr & Hc).
    exists vec. split; [|done]. rewrite Hkr.
    apply elem_of_map_to_list. by eapply list_elem_of_lookup_2. }
  assert (Hk' : (if len full <? k then len full else k) = Z.min k (len full)).
  { destruct (Z.ltb_spec (len full) k); lia. }
  rewrite Hk'. rewrite (proj2 (Z.ltb_ge _ _)) by (unfold len; lia).
  set (n := Z.to_nat (Z.min k (len full))).
  exists (take n full). unfold slice_to. fold n.
  split; [done|]. split.
  { unfold len. rewrite length_take, <- Hsize. unfold n, len. lia. }
  split.
  { apply (sublist_NoDup _ (Key <$> full));
      first [exact Hnd|apply fmap_sublist, sublist_take]. }
  rewrite <- (take_drop n full) in Hsorted.
  split.
  { apply StronglySorted_app_1_l in Hsorted. apply StronglySorted_Sorted in Hsorted.
    clear -Hsorted. induction Hsorted as [|a l _ IH Hhd]; constructor; [done|].
    destruct Hhd as [|b l Hab]; constructor.
    by apply Qle_bool_iff, Is_true_true. }
  split. { intros r Hr%elem_of_take_list. by apply Hscore. }
  intros r key vec q Hr Hkey Hnot Hcos.
  assert (Hin : key ∈ Key <$> full).
  { rewrite Hperm, Hkeys. apply list_elem_of_fmap. exists (key, vec).
    split; [done|]. by apply elem_of_map_to_list. }
  apply list_elem_of_fmap in Hin as (r' & -> & Hr').
  destruct (Hscore r' Hr') as (vec' & Hvec' & Hc'). rewrite Hkey in Hvec'.
  injection Hvec' as <-. rewrite Hcos in Hc'. injection Hc' as ->.
  rewrite <- (take_drop n full) in Hr'. apply elem_of_app in Hr' as [Hr'|Hr'].
  { destruct Hnot. apply list_elem_of_fmap. by exists r'. }
  pose proof (StronglySorted_app_1_elem_of _ _ _ r r' Hsorted Hr Hr') as Hle.
  by apply Qle_bool_iff, Is_true_true.
Qed.

End vector_search.

(** ** The search planner *)

Lemma foldl_invariant {A B} (P : B -> Prop) (f : B -> A -> B) (l : list A) (b : B) :
  P b -> (forall b a, P b -> a ∈ l -> P (f b a)) -> P (foldl f b l).
Proof.
  revert b. induction l as [|a l IH]; intros b Hb Hstep; cbn [foldl]; [done|].
  apply IH.
  - apply Hstep; [done|apply list_elem_of_here].
  - intros b' a' Hb' Ha'. apply Hstep; [done|by apply list_elem_of_further].
Qed.

Lemma truncate_elem {A} (x : A) (m : Z) (l : list A) : x ∈ truncate m l -> x ∈ l.
Proof.
  unfold truncate, slice_to. destruct (_ && _); [apply elem_of_take_list|done].
Qed.



Section combine.
Import Store.

Lemma combineResults_hits (Q3 : Q -> Q -> Q -> Prop)
    (text : list TrigramIndex.TextSearchResult)
    (vector : list VectorIndex.VectorSearchResult) (filters : list string) (s : t) :
  (forall h, h ∈ text -> Q3 (TrigramIndex.Score h) 0%Q 0%Q) ->
  (forall h ts vs c, h ∈ vector -> Q3 ts vs c ->
      Q3 ts (VectorIndex.Score h) (calculateCombinedScore ts (VectorIndex.Score h))) ->
  (forall h, h ∈ vector -> Q3 0%Q (VectorIndex.Score h) (VectorIndex.Score h)) ->
  let results := combineResults text vector filters s in
  NoDup (Key <$> results)
  /\ forall r, r ∈ results ->
       (exists entry, data s !! Key r = Some entry /\ RValue r = EValue entry)
       /\ Q3 (TextScore r) (VecScore r) (Combined r)
       /\ (filters <> [] -> Key r ∈ filters).
Proof.
  intros Htext Hboth Hvec. unfold combineResults. cbv zeta.
  match goal with
  | |- context [foldl ?f4 [] (map_to_list ?sc)] =>
      set (scores := sc); set (final := f4)
  end.
  assert (Hok : scores_ok Q3 filters scores).
  { unfold scores.
    match goal with
    | |- context [foldl ?f2 (foldl ?f1 ∅ text) vector] =>
        set (staged := foldl f2 (foldl f1 ∅ text) vector)
    end.
    assert (Hstaged : scores_ok Q3 [] staged).
    { unfold staged. apply foldl_invariant.
      - apply foldl_invariant.
        + intros key r Hr. by rewrite lookup_empty in Hr.
        + intros sc h Hsc Hh key r.
          destruct (decide (key = TrigramIndex.Key h)) as [->|Hne].
          * rewrite lookup_insert_eq. intros [= <-]. simpl. split; [done|].
            split; [by apply Htext|done].
          * rewrite lookup_insert_ne by done. apply Hsc.
      - intros sc h Hsc Hh key r.
        destruct (sc !! VectorIndex.Key h) as [result|] eqn:Hres.
        + destruct (decide (key = VectorIndex.Key h)) as [->|Hne].
          * rewrite lookup_insert_eq. intros [= <-]. simpl.
            destruct (Hsc _ _ Hres) as (Hk & HQ & _).
            split; [done|]. split; [by eapply Hboth|done].
          * rewrite lookup_insert_ne by done. apply Hsc.
        + destruct (decide (key = VectorIndex.Key h)) as [->|Hne].
          * rewrite lookup_insert_eq. intros [= <-]. simpl.
            split; [done|]. split; [by apply Hvec|done].
          * rewrite lookup_insert_ne by done. apply Hsc. }
    destruct (Z.ltb_spec 0 (len filters)) as [Hpos|Hzero].
    - apply (foldl_invariant (scores_ok Q3 filters)).
      + intros key r Hr. by rewrite lookup_empty in Hr.
      + intros filtered key Hf Hkey k r.
        destruct (staged !! key) as [result|] eqn:Hres; [|apply Hf].
        destruct (decide (k = key)) as [->|Hne].
        * rewrite lookup_insert_eq. intros [= <-].
          destruct (Hstaged _ _ Hres) as (Hk & HQ & _). done.
        * rewrite lookup_insert_ne by done. apply Hf.
    - assert (Hnil : filters = []).
      { destruct filters; [done|]. unfold len in Hzero. simpl in Hzero. lia. }
      by rewrite Hnil. }
  clearbody scores.
  assert (Hfinal : forall l acc,
            foldl final acc l
            = acc ++ omap (fun kr : string * SearchResult =>
                             match data s !! kr.1 with
                             | Some entry =>
                                 Some {| Key := Key kr.2; RValue := EValue entry;
                                         TextScore := TextScore kr.2;
                                         VecScore := VecScore kr.2;
                                         Combined := Combined kr.2 |}
                             | None => None
                             end) l).
  { induction l as [|[key result] l IH]; intros acc; cbn [foldl omap].
    - by rewrite app_nil_r.
    - rewrite IH. unfold final. simpl. destruct (data s !! key); [|done].
      by rewrite <- app_assoc. }
  rewrite Hfinal. cbn [app]. clear Hfinal. split.
  - assert (Hsub : forall l,
              Forall (fun kr : string * SearchResult => Key kr.2 = kr.1) l ->
              Key <$> omap (fun kr : string * SearchResult =>
                              match data s !! kr.1 with
                              | Some entry =>
                                  Some {| Key := Key kr.2; RValue := EValue entry;
                                          TextScore := TextScore kr.2;
                                          VecScore := VecScore kr.2;
                                          Combined := Combined kr.2 |}
                              | None => None
                              end) l `sublist_of` l.*1).
    { induction 1 as [|[key result] l Hk _ IH]; [done|]. simpl in Hk.
      rewrite (fmap_cons fst). cbn [omap list_omap fst snd].
      destruct (data s !! key) as [entry|].
      - rewrite fmap_cons. cbn [Key]. rewrite Hk. by constructor.
      - by constructor. }
    apply (sublist_NoDup _ (map_to_list scores).*1);
      [apply NoDup_fst_map_to_list|apply Hsub].
    apply Forall_forall. intros [key result] Hin%elem_of_map_to_list. simpl.
    by destruct (Hok _ _ Hin).
  - intros r (kr & Hkr & Hr)%list_elem_of_omap. destruct kr as [key result].
    apply elem_of_map_to_list in Hkr. destruct (Hok _ _ Hkr) as (Hk & HQ & Hf).
    simpl in Hr. destruct (data s !! key) as [entry|] eqn:Hd; [|done].
    injection Hr as <-. simpl. rewrite Hk. eauto.
Qed.



End combine.

Section planner_results.
Context {root : Sqrt}.
Import Store.

Lemma Search_returned (query : SearchQuery) (s : t) (results : list SearchResult) err :
  Search query s = Ret (results, err) ->
  (exists e, err = Some e /\ results = [])
  \/ (err = None
      /\ exists vectorResults filterResults,
           vector_stage query s = Ret (vectorResults, None)
           /\ filter_stage query s = Ret (filterResults, None)
           /\ results = truncate (MaxResults query)
                          (sortSearchResults
                             (combineResults (text_stage query s) vectorResults
                                filterResults s))).
Proof.
  unfold Search. destruct (Lock s) as [s'| | |]; simpl; try done.
  destruct (vector_stage query s) as [[vectorResults [e|]]| | |]; simpl; try done.
  { intros [= <- <-]. left. eauto. }
  destruct (filter_stage query s) as [[filterResults [e|]]| | |]; simpl; try done.
  { intros [= <- <-]. left. eauto. }
  intros [= <- <-]. right. eauto 10.
Qed.


Lemma text_stage_hits (query : SearchQuery) (s : t) h :
  h ∈ text_stage query s ->
  Text query <> EmptyString
  /\ exists field idx,
       IndexManager.text (indexes s) !! field = Some idx
       /\ h ∈ TrigramIndex.FuzzySearch (Text query) (MinScore query) (MaxResults query) idx.
Proof.
  unfold text_stage. destruct (String.eqb_spec (Text query) EmptyString) as [Heq|Hne].
  { by intros ?%elem_of_nil. }
  intros Hh. split; [done|]. revert Hh.
  apply (foldl_invariant
           (fun acc => h ∈ acc ->
              exists field idx,
                IndexManager.text (indexes s) !! field = Some idx
                /\ h ∈ TrigramIndex.FuzzySearch (Text query) (MinScore query)
                       (MaxResults query) idx)).
  - by intros ?%elem_of_nil.
  - intros acc [field idx] IH Hin%elem_of_map_to_list [Hacc|Hnew]%elem_of_app; eauto.
Qed.

Lemma FuzzySearch_min_score query minScore maxResults idx h :
  h ∈ TrigramIndex.FuzzySearch query minScore maxResults idx ->
  (minScore <= TrigramIndex.Score h)%Q.
Proof.
  unfold TrigramIndex.FuzzySearch. intros Hh%truncate_elem.
  apply list_elem_of_filter in Hh as [Hh _].
  by apply Qle_bool_iff, Is_true_true.
Qed.

Lemma vector_stage_no_vector (query : SearchQuery) (s : t) :
  Vector query = [] -> vector_stage query s = Ret ([], None).
Proof. intros Hv. unfold vector_stage. by rewrite Hv. Qed.

(** X14.  A search without a vector.  Every result of a [Store.Search] whose
    query has no vector has combined score 0 and vector score 0 (the
    combined score is only computed for vector hits, so the final sort
    orders nothing), and its text score is at least [MinScore]. *)
Theorem text_only_search_scores (query : SearchQuery) (s : t)
    (results : list SearchResult) (err : error) :
  Vector query = [] ->
  Search query s = Ret (results, err) ->
  forall r, r ∈ results ->
    Combined r = 0%Q /\ VecScore r = 0%Q /\ (MinScore query <= TextScore r)%Q.
Proof.
  intros Hvec [(e & He & ->)|(_ & vectorResults & filterResults & Hv & Hf & ->)]%Search_returned.
  { by intros r ?%elem_of_nil. }
  rewrite vector_stage_no_vector in Hv by done. injection Hv as <-.
  intros r Hr%truncate_elem. unfold sortSearchResults in Hr.
  rewrite merge_sort_Permutation in Hr.
  destruct (combineResults_hits
              (fun ts vs c => c = 0%Q /\ vs = 0%Q /\ (MinScore query <= ts)%Q)
              (text_stage query s) [] filterResults s) as [_ Hhits].
  - intros h (_ & field & idx & _ & Hh%FuzzySearch_min_score)%text_stage_hits. done.
  - by intros h ts vs c ?%elem_of_nil.
  - by intros h ?%elem_of_nil.
  - by destruct (Hhits r Hr) as (_ & HQ & _).
Qed.

Lemma vector_loop_mismatch (vector : list Q) (k : Z)
    (idxs : list (string * VectorIndex.t)) (acc : list VectorIndex.VectorSearchResult) :
  0 <= k ->
  Forall (fun kv => vector_wf kv.2) idxs ->
  Exists (fun kv => VectorIndex.dim kv.2 <> len vector) idxs ->
  exists kv, kv ∈ idxs /\ VectorIndex.dim kv.2 <> len vector
             /\ vector_loop vector k idxs acc
                = Ret ([], Some ("vector search error: "
                                 +:+ VectorIndex.mismatch "query" (VectorIndex.dim kv.2)
                                       (len vector))).
Proof.
  intros Hk Hwf Hex. revert acc.
  induction Hwf as [|[field vi] idxs Hvi Hwf IH]; intros acc.
  { by apply Exists_nil in Hex. }
  simpl in Hvi. cbn [vector_loop].
  destruct (decide (VectorIndex.dim vi = len vector)) as [Heq|Hne].
  - apply Exists_cons in Hex as [Hex|Hex]; [done|].
    destruct (VectorIndex_Search_shape vi vector k Hvi (eq_sym Heq) Hk)
      as (results & -> & _). simpl.
    destruct (IH Hex (acc ++ results)) as (kv & Hin & Hd & ->).
    exists kv. split; [by apply list_elem_of_further|done].
  - exists (field, vi). split; [apply list_elem_of_here|]. split; [done|].
    unfold VectorIndex.Search.
    rewrite (proj2 (Z.eqb_neq (len vector) (VectorIndex.dim vi))) by done. done.
Qed.

(** X15.  A query vector of the wrong dimension fails the whole search.  On
    an unlocked store whose vector indexes hold vectors of their dimension,
    for a query with a non-empty vector and a non-negative [MaxResults]: if
    some vector index has another dimension than the query vector,
    [Store.Search] returns no result and the error of such an index, also
    when the query has a text that would match. *)
Theorem vector_query_dimension_error (query : SearchQuery) (s : t) :
  locked s = false -> vectors_wf (indexes s) ->
  0 <= MaxResults query -> Vector query <> [] ->
  (exists field vi, IndexManager.vectors (indexes s) !! field = Some vi
                    /\ VectorIndex.dim vi <> len (Vector query)) ->
  exists field vi,
    IndexManager.vectors (indexes s) !! field = Some vi
    /\ VectorIndex.dim vi <> len (Vector query)
    /\ Search query s
       = Ret ([], Some ("vector search error: "
                        +:+ VectorIndex.mismatch "query" (VectorIndex.dim vi)
                              (len (Vector query)))).
Proof.
  intros Hl Hwf Hk Hv (field & vi & Hvi & Hd).
  destruct (vector_loop_mismatch (Vector query) (MaxResults query)
              (map_to_list (IndexManager.vectors (indexes s))) []) as ([f v] & Hin & Hne & Hloop).
  - done.
  - apply Forall_forall. intros [f v] Hin%elem_of_map_to_list. by apply (Hwf f).
  - apply Exists_exists. exists (field, vi). split; [by apply elem_of_map_to_list|done].
  - exists f, v. apply elem_of_map_to_list in Hin. split; [done|]. split; [done|].
    unfold Search, Lock. rewrite Hl. cbn [mbind outcome_bind obind].
    unfold vector_stage.
    assert (Hpos : (0 <? len (Vector query)) = true).
    { apply Z.ltb_lt. destruct (Vector query); [done|]. unfold len. simpl. lia. }
    rewrite Hpos, Hloop. done.
Qed.
End planner_results.

Section unindexed_filters.
Context {root : Sqrt}.

Lemma search_fields_unindexed (im : IndexManager.t) (query : gmap string Value) :
  (forall field, is_Some (query !! field) -> IndexManager.trees im !! field = None) ->
  IndexManager.search_fields im query = Ret (∅, true).
Proof.
  intros Hun. unfold IndexManager.search_fields.
  assert (Hl : Forall (fun kv : string * Value => IndexManager.trees im !! kv.1 = None)
                 (map_to_list query)).
  { apply Forall_forall. intros [field value] Hin%elem_of_map_to_list. simpl.
    apply Hun. eauto. }
  induction Hl as [|[field value] l Hf _ IH]; [done|].
  cbn [forM]. simpl in Hf. rewrite Hf. exact IH.
Qed.

Lemma filter_stage_unindexed (query : Store.SearchQuery) (s : Store.t) :
  (forall field, is_Some (Store.Filters query !! field) ->
                 IndexManager.trees (Store.indexes s) !! field = None) ->
  Store.filter_stage query s = Ret ([], None).
Proof.
  intros Hun.
  unfold Store.filter_stage. destruct (0 <? size (Store.Filters query))%nat; [|done].
  unfold IndexManager.Search. rewrite search_fields_unindexed by done.
  simpl. by rewrite elements_empty.
Qed.

(** X16.  Filters on fields without ordered index are ignored.  If no field
    named in the filters has an ordered index, the filter stage yields the
    empty key list without error, and [Store.Search] returns what it
    returns for the same query without filters. *)
Theorem unindexed_filters_ignored (query : Store.SearchQuery) (s : Store.t) :
  (forall field, is_Some (Store.Filters query !! field) ->
                 IndexManager.trees (Store.indexes s) !! field = None) ->
  Store.filter_stage query s = Ret ([], None)
  /\ Store.Search query s = Store.Search (without_filters query) s.
Proof.
  intros Hun. pose proof (filter_stage_unindexed query s Hun) as Hf.
  split; [done|]. by apply Search_empty_filter_result.
Qed.
End unindexed_filters.

(** ** Writes and the text indexes; start-up *)

Section set_text.
Context {root : Sqrt}.

Lemma update_text_lookup key m ts field :
  IndexManager.update_text key m ts !! field
  = (fun idx => match m !! field with
                | Some (VString text) => TrigramIndex.Update key text idx
                | _ => idx
                end) <$> ts !! field.
Proof.
  unfold IndexManager.update_text. rewrite map_lookup_imap.
  destruct (ts !! field) as [idx|]; [|done]. simpl.
  destruct (m !! field) as [[]|]; done.
Qed.

Lemma Set_text_index key value clock elapsed s s' err field :
  Store.Set_ key value clock elapsed s = Ret (s', err) ->
  IndexManager.text (Store.indexes s') !! field
  = (fun idx => match text_field field value with
                | Some text => TrigramIndex.Update key text idx
                | None => idx
                end) <$> IndexManager.text (Store.indexes s) !! field.
Proof.
  unfold Store.Set_, Store.Lock. destruct (Store.locked s); simpl; [done|].
  unfold IndexManager.Update.
  destruct value as [| | | | | | |m]; simpl;
    try (intros [= <- _]; simpl; by destruct (IndexManager.text _ !! field)).
  destruct (IndexManager.update_trees key m _) as [trees'| | |]; simpl; try done.
  intros [= <- _]. simpl. rewrite update_text_lookup.
  destruct (IndexManager.text _ !! field); [|done]. simpl.
  destruct (m !! field) as [[]|]; done.
Qed.

(** X17.  An overwrite does not retract indexed text.  Let a field have a
    text index, and let [Set] store under a key first a document with a
    string in that field and then a value without one (no mapping, no such
    field, or no string there).  Then the text index still is the one the
    first write made: it remembers the first text for the key, while the
    document map holds the second value. *)
Theorem overwrite_keeps_indexed_text key field text idx value1 value2
    clock1 elapsed1 clock2 elapsed2 s s1 s2 err1 err2 :
  IndexManager.text (Store.indexes s) !! field = Some idx ->
  text_field field value1 = Some text ->
  text_field field value2 = None ->
  Store.Set_ key value1 clock1 elapsed1 s = Ret (s1, err1) ->
  Store.Set_ key value2 clock2 elapsed2 s1 = Ret (s2, err2) ->
  IndexManager.text (Store.indexes s2) !! field = Some (TrigramIndex.Update key text idx)
  /\ TrigramIndex.docs (TrigramIndex.Update key text idx) !! key = Some text
  /\ Store.data s2 !! key
     = Some {| EValue := value2; Timestamp := Unix clock2; TTL := 0 |}.
Proof.
  intros Hidx Hv1 Hv2 Hs1 Hs2.
  rewrite (Set_text_index _ _ _ _ _ _ _ field Hs2), (Set_text_index _ _ _ _ _ _ _ field Hs1).
  rewrite Hidx, Hv1, Hv2. simpl. split; [done|]. split.
  - apply lookup_insert_eq.
  - apply Set_effect in Hs2 as (_ & _ & _ & ->). apply lookup_insert_eq.
Qed.
End set_text.

Section startup.
Context {root : Sqrt} {codec : Codec}.

Lemma FuzzySearch_new query minScore maxResults :
  TrigramIndex.FuzzySearch query minScore maxResults TrigramIndex.NewTrigramIndex = [].
Proof.
  unfold TrigramIndex.FuzzySearch, TrigramIndex.Search.
  assert (Hc : forall l, TrigramIndex.count_matches TrigramIndex.NewTrigramIndex l = ∅).
  { intros l. unfold TrigramIndex.count_matches. induction l as [|g l IH] using rev_ind.
    - done.
    - rewrite foldl_app. cbn [foldl]. simpl. rewrite lookup_empty. exact IH. }
  rewrite Hc, map_to_list_empty. cbn [fmap list_fmap].
  change (merge_sort TrigramIndex.by_score []) with (@nil TrigramIndex.TextSearchResult).
  change (truncate 0 (@nil TrigramIndex.TextSearchResult)) with (@nil TrigramIndex.TextSearchResult).
  rewrite filter_nil. unfold truncate, slice_to. destruct (_ && _); [apply take_nil|done].
Qed.

Lemma VectorIndex_Search_new (query : list Q) (k : Z) :
  len query = 384 -> 0 <= k ->
  VectorIndex.Search query k (VectorIndex.NewVectorIndex 384) = Ret ([], None).
Proof.
  intros Hq Hk.
  destruct (VectorIndex_Search_shape (VectorIndex.NewVectorIndex 384) query k)
    as (results & -> & Hlen & _); [apply NewVectorIndex_wf|done..|].
  simpl in Hlen. rewrite map_size_empty in Hlen.
  destruct results; [done|]. unfold len in Hlen. simpl in Hlen. lia.
Qed.

Lemma createDefaultIndexes_new (s : Store.t) :
  Store.indexes s = IndexManager.NewIndexManager ->
  createDefaultIndexes s = (Store.set_indexes default_indexes s, None).
Proof.
  intros Hidx. destruct s as [l mm d dirty st im]. simpl in Hidx. subst im.
  reflexivity.
Qed.

(** X18.  Start-up leaves the loaded documents unindexed.  [main] opens the
    store and then creates the default indexes.  For every store that
    [NewStore] returns, [createDefaultIndexes] succeeds and keeps the
    documents; the indexes then are three empty text indexes (title,
    description, tags) and one empty vector index of 384 dimensions
    (embedding), and no ordered index, whatever the file held; and a
    [Store.Search] whose vector is empty, or has 384 components with a
    non-negative [MaxResults], returns no result. *)
Theorem restart_leaves_indexes_empty file opts clock s err :
  Store.NewStore file opts clock = Ret (Some s, err) ->
  (createDefaultIndexes s).2 = None
  /\ Store.data (createDefaultIndexes s).1 = Store.data s
  /\ Store.indexes (createDefaultIndexes s).1 = default_indexes
  /\ forall query,
       Store.Vector query = []
       \/ len (Store.Vector query) = 384 /\ 0 <= Store.MaxResults query ->
       Store.Search query (createDefaultIndexes s).1 = Ret ([], None).
Proof.
  intros Hnew. destruct (NewStore_indexes _ _ _ _ _ Hnew) as [-> Hidx].
  destruct (NewStore_inv _ _ _ _ Hnew) as (_ & _ & Hl & _ & _).
  rewrite createDefaultIndexes_new by done. simpl.
  split; [done|]. split; [by destruct s|]. split; [by destruct s|].
  intros query Hq.
  set (s' := Store.set_indexes default_indexes s).
  assert (Hl' : Store.locked s' = false) by (by destruct s).
  assert (Hi' : Store.indexes s' = default_indexes) by (by destruct s).
  assert (Htext : Store.text_stage query s' = []).
  { unfold Store.text_stage. destruct (String.eqb _ _); [done|]. rewrite Hi'.
    apply (foldl_invariant (fun acc => acc = [])); [done|].
    intros acc [field idx] -> Hin%elem_of_map_to_list. simpl.
    assert (idx = TrigramIndex.NewTrigramIndex) as ->.
    { simpl in Hin. repeat (apply lookup_insert_Some in Hin as [[_ <-]|[_ Hin]]; [done|]).
      by apply lookup_singleton_Some in Hin as [_ <-]. }
    apply FuzzySearch_new. }
  assert (Hvec : Store.vector_stage query s' = Ret ([], None)).
  { unfold Store.vector_stage. rewrite Hi'. simpl. rewrite map_to_list_singleton.
    destruct Hq as [->|[Hlen Hk]]; [done|]. rewrite Hlen. simpl.
    by rewrite VectorIndex_Search_new. }
  assert (Hfil : Store.filter_stage query s' = Ret ([], None)).
  { apply filter_stage_unindexed. intros field _. by rewrite Hi'. }
  unfold Store.Search, Store.Lock. rewrite Hl'. cbn [mbind outcome_bind obind].
  rewrite Htext, Hvec. cbn [mbind outcome_bind obind]. rewrite Hfil.
  cbn [mbind outcome_bind obind]. unfold Store.combineResults. simpl.
  rewrite map_to_list_empty. simpl.
  change (Store.sortSearchResults []) with (@nil Store.SearchResult).
  unfold truncate, slice_to. destruct (_ && _); [by rewrite take_nil|done].
Qed.
End startup.

(** ** Stores without ordered indexes *)

Section unordered.
Context {root : Sqrt}.

Lemma update_trees_empty key m : IndexManager.update_trees key m ∅ = Ret ∅.
Proof. unfold IndexManager.update_trees. by rewrite map_to_list_empty. Qed.

Lemma IndexManager_Update_unordered key value im :
  IndexManager.trees im = ∅ ->
  exists im', IndexManager.Update key value im = Ret (im', None)
              /\ IndexManager.trees im' = ∅.
Proof.
  intros Hno. unfold IndexManager.Update. destruct value; eauto.
  rewrite Hno, update_trees_empty. simpl. eauto.
Qed.

Lemma gc_loop_unordered now (l : list (string * Entry)) s0 n0 s1 n1 :
  IndexManager.trees (Store.indexes s0) = ∅ ->
  forM (gc_step now) l (s0, n0) = Ret (s1, n1) ->
  IndexManager.trees (Store.indexes s1) = ∅.
Proof.
  revert s0 n0. induction l as [|[key entry] l IH]; intros s0 n0 Hno; cbn [forM gc_step].
  - by intros [= <- _].
  - destruct (expired now entry); cbn [mbind outcome_bind obind]; [|by apply IH].
    rewrite IndexManager_Remove_without_trees by done. cbn [mbind outcome_bind obind].
    by apply IH.
Qed.

Lemma unordered_set_returns key value clock elapsed (s : Store.t) :
  Store.locked s = false -> IndexManager.trees (Store.indexes s) = ∅ ->
  exists s', Store.Set_ key value clock elapsed s = Ret (s', None)
             /\ Store.locked s' = false
             /\ IndexManager.trees (Store.indexes s') = ∅.
Proof.
  intros Hl Hno. unfold Store.Set_, Store.Lock. rewrite Hl.
  cbn [mbind outcome_bind obind].
  destruct (IndexManager_Update_unordered key value (Store.indexes s) Hno)
    as (im' & Hup & Hno').
  simpl. rewrite Hup. simpl. eauto.
Qed.

Lemma unordered_delete_returns key (s : Store.t) :
  Store.locked s = false -> IndexManager.trees (Store.indexes s) = ∅ ->
  exists s', Store.Delete key s = Ret s'
             /\ Store.locked s' = false
             /\ IndexManager.trees (Store.indexes s') = ∅.
Proof.
  intros Hl Hno. unfold Store.Delete, Store.Lock. rewrite Hl.
  cbn [mbind outcome_bind obind]. simpl.
  destruct (Store.data s !! key); [|eauto].
  rewrite IndexManager_Remove_without_trees by done. simpl. eauto.
Qed.

(** X19.  Without ordered indexes the store operations return.  On an
    unlocked store that has no ordered index, [Set], [SetWithTTL],
    [Delete] and [gcExpiredEntries] return, the writes without error; each
    leaves the store unlocked and without ordered index, as does
    [CreateIndex] for every type other than btree.  So these calls never
    panic or block as long as no btree index is created. *)
Theorem unordered_store_operations_return (s : Store.t) :
  Store.locked s = false -> IndexManager.trees (Store.indexes s) = ∅ ->
  (forall key value clock elapsed,
      exists s', Store.Set_ key value clock elapsed s = Ret (s', None)
                 /\ Store.locked s' = false
                 /\ IndexManager.trees (Store.indexes s') = ∅)
  /\ (forall key value ttl clock,
        exists s', Store.SetWithTTL key value ttl clock s = Ret (s', None)
                   /\ Store.locked s' = false
                   /\ IndexManager.trees (Store.indexes s') = ∅)
  /\ (forall key,
        exists s', Store.Delete key s = Ret s'
                   /\ Store.locked s' = false
                   /\ IndexManager.trees (Store.indexes s') = ∅)
  /\ (forall clock,
        exists s', Store.gcExpiredEntries clock s = Ret s'
                   /\ Store.locked s' = false
                   /\ IndexManager.trees (Store.indexes s') = ∅)
  /\ (forall field indexType,
        indexType <> "btree" ->
        Store.locked (Store.CreateIndex field indexType s).1 = false
        /\ IndexManager.trees (Store.indexes (Store.CreateIndex field indexType s).1) = ∅).
Proof.
  intros Hl Hno. split; [|split; [|split; [|split]]].
  - intros key value clock elapsed. by apply unordered_set_returns.
  - intros key value ttl clock. unfold Store.SetWithTTL, Store.Lock. rewrite Hl.
    cbn [mbind outcome_bind obind].
    destruct (IndexManager_Update_unordered key value (Store.indexes s) Hno)
      as (im' & Hup & Hno').
    simpl. rewrite Hup. simpl. eauto.
  - intros key. by apply unordered_delete_returns.
  - intros clock. unfold Store.gcExpiredEntries, Store.Lock. rewrite Hl.
    cbn [mbind outcome_bind obind]. rewrite gc_loop_unfold.
    destruct (gc_loop_returns (Unix clock)
                (map_to_list (Store.data (Store.set_locked true s)))
                (Store.set_locked true s) 0) as (s1 & n1 & Hloop); [done|].
    rewrite Hloop. cbn [mbind outcome_bind obind].
    pose proof (gc_loop_unordered _ _ (Store.set_locked true s) _ _ _ Hno Hloop) as Hno1.
    eexists. split; [done|]. destruct (0 <? n1); simpl; done.
  - intros field indexType Hbt. unfold Store.CreateIndex, IndexManager.AddIndex.
    rewrite (proj2 (String.eqb_neq indexType "btree")) by done.
    destruct (String.eqb indexType "vector"); [done|].
    destruct (String.eqb indexType "text"); done.
Qed.
End unordered.

(** ** Ordered indexes *)

Section ordered.

Lemma search_loop_monotone (f : nat -> outcome bool) (p n : nat) :
  (forall h, (h < n)%nat -> f h = Ret (p <=? h)%nat) ->
  forall fuel i j,
    (i <= p)%nat -> (p <= j)%nat -> (j <= n)%nat -> (j - i <= fuel)%nat ->
    BTree.search_loop fuel f i j = Ret p.
Proof.
  intros Hf. induction fuel as [|fuel IH]; intros i j Hi Hj Hn Hfuel; cbn [BTree.search_loop].
  - f_equal. lia.
  - destruct (Nat.ltb_spec i j) as [Hlt|Hge]; [|f_equal; lia].
    assert (Hh : (i <= (i + j) / 2)%nat /\ ((i + j) / 2 < j)%nat).
    { pose proof (Nat.div_mod_eq (i + j) 2) as Hdm.
      pose proof (Nat.mod_upper_bound (i + j) 2 ltac:(lia)) as Hmod. lia. }
    rewrite Hf by lia. cbn [mbind outcome_bind obind].
    destruct (Nat.leb_spec p ((i + j) / 2)) as [Hle|Hgt]; cbn [negb].
    + apply IH; lia.
    + apply IH; lia.
Qed.

Lemma sorted_decompose (kvs : list (string * Z)) (v : Z) :
  StronglySorted Z.lt kvs.*2 ->
  exists l1 mid l2,
    kvs = l1 ++ mid ++ l2
    /\ Forall (fun kv => kv.2 < v) l1 /\ Forall (fun kv => v < kv.2) l2
    /\ (mid = [] \/ exists k, mid = [(k, v)]).
Proof.
  induction kvs as [|[k w] kvs IH]; intros Hs.
  - exists [], [], []. split; [done|]. split; [constructor|]. split; [constructor|by left].
  - rewrite fmap_cons in Hs. apply StronglySorted_inv in Hs as [Hs Hall].
    assert (Hgt : forall c, c <= w -> Forall (fun kv : string * Z => c < kv.2) kvs).
    { intros c Hc. apply Forall_forall. intros [k' w'] Hin.
      assert (Hw : w' ∈ kvs.*2) by (apply list_elem_of_fmap; by exists (k', w')).
      rewrite Forall_forall in Hall. apply Hall in Hw. simpl in *. lia. }
    destruct (Z.lt_trichotomy w v) as [Hlt|[Heq|Hgt']].
    + destruct (IH Hs) as (l1 & mid & l2 & -> & H1 & H2 & Hmid).
      exists ((k, w) :: l1), mid, l2. split; [done|]. split; [by constructor|done].
    + subst w. exists [], [(k, v)], kvs. split; [done|]. split; [constructor|]. split.
      * apply Hgt. lia.
      * right. by exists k.
    + exists [], [], ((k, w) :: kvs). split; [done|]. split; [constructor|]. split.
      * constructor; [done|]. apply Hgt. lia.
      * by left.
Qed.

Lemma insert_int_decomposed key v (l1 mid l2 : list (string * Z)) :
  Forall (fun kv => kv.2 < v) l1 -> Forall (fun kv => v < kv.2) l2 ->
  (mid = [] \/ exists k, mid = [(k, v)]) ->
  insert_int key v (l1 ++ mid ++ l2) = l1 ++ (key, v) :: l2.
Proof.
  intros H1 H2 Hmid. unfold insert_int. rewrite !filter_app.
  assert (Hf1 : filter (fun kv : string * Z => kv.2 < v) l1 = l1) by (by apply filter_all).
  assert (Hf2 : filter (fun kv : string * Z => v < kv.2) l2 = l2) by (by apply filter_all).
  assert (Hn1 : filter (fun kv : string * Z => v < kv.2) l1 = []).
  { clear -H1. induction H1 as [|[k w] l Hw _ IH]; [done|].
    rewrite filter_cons_False by (simpl in *; lia). done. }
  assert (Hn2 : filter (fun kv : string * Z => kv.2 < v) l2 = []).
  { clear -H2. induction H2 as [|[k w] l Hw _ IH]; [done|].
    rewrite filter_cons_False by (simpl in *; lia). done. }
  rewrite Hf1, Hf2, Hn1, Hn2.
  destruct Hmid as [->|[k ->]].
  - by rewrite !filter_nil, app_nil_r.
  - rewrite !filter_cons_False by (simpl; lia). by rewrite !filter_nil, app_nil_r.
Qed.

Lemma find_int key v (l1 mid l2 : list (string * Z)) :
  Forall (fun kv => kv.2 < v) l1 -> Forall (fun kv => v < kv.2) l2 ->
  (mid = [] \/ exists k, mid = [(k, v)]) ->
  BTree.find (BTree.mkItem key (VInt v)) (int_tree (l1 ++ mid ++ l2))
  = Ret (length l1, bool_decide (mid <> [])).
Proof.
  intros H1 H2 Hmid. unfold BTree.find, BTree.sort_Search.
  set (tr := int_tree (l1 ++ mid ++ l2)).
  set (p := length (l1 ++ mid)).
  assert (Hlen : length tr = (p + length l2)%nat).
  { unfold tr, int_tree, p. rewrite length_fmap, !length_app. lia. }
  assert (Hlook : forall h kv, (l1 ++ mid ++ l2) !! h = Some kv ->
            tr !! h = Some (BTree.mkItem kv.1 (VInt kv.2))).
  { intros h kv Hkv. unfold tr, int_tree. by rewrite list_lookup_fmap, Hkv. }
  assert (Hlow : forall h kv, (l1 ++ mid) !! h = Some kv -> kv.2 <= v).
  { intros h kv [Hin|Hin]%list_elem_of_lookup_2%elem_of_app.
    - rewrite Forall_forall in H1. apply H1 in Hin. lia.
    - destruct Hmid as [->|[k ->]]; [by apply elem_of_nil in Hin|].
      apply list_elem_of_singleton in Hin as ->. simpl. lia. }
  rewrite (search_loop_monotone _ p (length tr)); try lia.
  2:{ intros h Hh. rewrite Hlen in Hh.
      destruct (Nat.leb_spec p h) as [Hge|Hlt].
      - destruct (lookup_lt_is_Some_2 l2 (h - p)) as [kv Hkv]; [lia|].
        rewrite (Hlook h kv).
        2:{ rewrite app_assoc, lookup_app_r by (fold p; lia). by fold p. }
        unfold BTree.Less. simpl. f_equal. apply Z.ltb_lt.
        rewrite Forall_forall in H2. apply H2. by eapply list_elem_of_lookup_2.
      - destruct (lookup_lt_is_Some_2 (l1 ++ mid) h) as [kv Hkv]; [by fold p|].
        rewrite (Hlook h kv).
        2:{ rewrite app_assoc, lookup_app_l by (fold p; lia). done. }
        unfold BTree.Less. simpl. f_equal. apply Z.ltb_ge. by eapply Hlow. }
  cbn [mbind outcome_bind obind].
  destruct Hmid as [->|[k ->]].
  - rewrite bool_decide_eq_false_2 by (by intros []).
    unfold p. rewrite app_nil_r.
    destruct l1 as [|kv0 l1' _] using rev_ind; [done|].
    rewrite length_app. simpl. replace (length l1' + 1)%nat with (S (length l1')) by lia.
    rewrite (Hlook (length l1') kv0).
    2:{ rewrite <- !app_assoc. rewrite lookup_app_r by lia.
        by rewrite Nat.sub_diag. }
    unfold BTree.Less. simpl.
    assert (Hkv0 : kv0.2 < v).
    { rewrite Forall_forall in H1. apply H1. apply elem_of_app. right.
      apply list_elem_of_here. }
    by rewrite (proj2 (Z.ltb_lt _ _) Hkv0).
  - rewrite bool_decide_eq_true_2 by done.
    unfold p. rewrite length_app. simpl.
    replace (length l1 + 1)%nat with (S (length l1)) by lia.
    rewrite (Hlook (length l1) (k, v)).
    2:{ rewrite lookup_app_r by lia. by rewrite Nat.sub_diag. }
    unfold BTree.Less. simpl. by rewrite Z.ltb_irrefl.
Qed.

Lemma ReplaceOrInsert_int key v (l1 mid l2 : list (string * Z)) :
  Forall (fun kv => kv.2 < v) l1 -> Forall (fun kv => v < kv.2) l2 ->
  (mid = [] \/ exists k, mid = [(k, v)]) ->
  BTree.ReplaceOrInsert (BTree.mkItem key (VInt v)) (int_tree (l1 ++ mid ++ l2))
  = Ret (int_tree (l1 ++ (key, v) :: l2)).
Proof.
  intros H1 H2 Hmid. unfold BTree.ReplaceOrInsert.
  destruct (int_tree (l1 ++ mid ++ l2)) as [|x tr] eqn:Htr.
  { destruct l1; [|done]. destruct Hmid as [->|[k ->]]; [|done]. by destruct l2. }
  rewrite <- Htr. rewrite find_int by done. cbn [mbind outcome_bind obind]. f_equal.
  unfold int_tree. destruct Hmid as [->|[k ->]].
  - rewrite bool_decide_eq_false_2 by (by intros []). simpl.
    rewrite !fmap_app. rewrite take_app_length', drop_app_length' by (by rewrite length_fmap).
    by rewrite fmap_cons.
  - rewrite bool_decide_eq_true_2 by done.
    rewrite !fmap_app, !fmap_cons.
    rewrite insert_app_r_alt by (rewrite length_fmap; lia).
    rewrite length_fmap, Nat.sub_diag. done.
Qed.

(** X20.  An ordered index keeps one key per value.  Items are compared by
    their values only, so on a tree of fewer than 63 integer-valued items
    in ascending order of value, [ReplaceOrInsert] of the item (key, v)
    returns the tree whose pairs are those with a smaller value, then
    (key, v), then those with a greater value: the tree stays in ascending
    order, and a pair that held the value v before is replaced, whatever
    its key. *)
Theorem ordered_index_one_key_per_value (kvs : list (string * Z)) (key : string) (v : Z) :
  StronglySorted Z.lt kvs.*2 -> (length kvs < 63)%nat ->
  BTree.ReplaceOrInsert (BTree.mkItem key (VInt v)) (int_tree kvs)
  = Ret (int_tree (insert_int key v kvs))
  /\ StronglySorted Z.lt (insert_int key v kvs).*2
  /\ (forall k w, (k, w) ∈ insert_int key v kvs <->
                  k = key /\ w = v \/ w <> v /\ (k, w) ∈ kvs).
Proof.
  intros Hs _. destruct (sorted_decompose kvs v Hs) as (l1 & mid & l2 & -> & H1 & H2 & Hmid).
  split; [|split].
  - rewrite insert_int_decomposed by done. by apply ReplaceOrInsert_int.
  - rewrite insert_int_decomposed by done.
    rewrite !fmap_app in Hs. rewrite fmap_app, fmap_cons. simpl.
    apply StronglySorted_app_2.
    + intros a b Ha Hb. apply list_elem_of_fmap in Ha as ([ka wa] & -> & Ha).
      rewrite Forall_forall in H1. apply H1 in Ha. simpl in *.
      apply elem_of_cons in Hb as [->|Hb]; [done|].
      apply list_elem_of_fmap in Hb as ([kb wb] & -> & Hb).
      rewrite Forall_forall in H2. apply H2 in Hb. simpl in *. lia.
    + by apply StronglySorted_app_1_l in Hs.
    + constructor.
      * apply StronglySorted_app_1_r, StronglySorted_app_1_r in Hs. done.
      * apply Forall_forall. intros b ([kb wb] & -> & Hb)%list_elem_of_fmap.
        rewrite Forall_forall in H2. by apply H2 in Hb.
  - intros k w. unfold insert_int. rewrite elem_of_app, elem_of_cons, !list_elem_of_filter.
    simpl. split.
    + intros [[Hlt Hin]|[[= -> ->]|[Hgt Hin]]]; [right|by left|right]; split; try done; lia.
    + intros [[-> ->]|[Hne Hin]]; [right; by left|].
      destruct (Z.lt_trichotomy w v) as [?|[?|?]]; [by left|done|right; by right].
Qed.

Lemma Less_kind_mismatch (i than : BTree.indexItem) (a : kind) :
  kind_of (BTree.value i) = Some a -> kind_of (BTree.value than) <> Some a ->
  BTree.Less i than = Panic BTree.conversion_panic.
Proof.
  unfold BTree.Less. destruct (BTree.value i), (BTree.value than); simpl;
    intros [= <-] Hne; try done.
Qed.

Lemma ReplaceOrInsert_kind_mismatch (item : BTree.indexItem) (tr : BTree.t) (a : kind) :
  kind_of (BTree.value item) = Some a -> tr <> [] ->
  Forall (fun x => kind_of (BTree.value x) <> Some a) tr ->
  BTree.ReplaceOrInsert item tr = Panic BTree.conversion_panic.
Proof.
  intros Hk Hne Hall. unfold BTree.ReplaceOrInsert. destruct tr as [|x tr]; [done|].
  unfold BTree.find, BTree.sort_Search. set (t := x :: tr).
  assert (Hlen : (0 < length t)%nat) by (simpl; lia).
  destruct (length t) as [|n] eqn:Hn; [lia|]. cbn [BTree.search_loop].
  rewrite (proj2 (Nat.ltb_lt 0 (S n))) by lia.
  destruct (lookup_lt_is_Some_2 t ((0 + S n) / 2)) as [y Hy].
  { rewrite Hn. apply Nat.Div0.div_lt_upper_bound; lia. }
  rewrite Hy. rewrite (Less_kind_mismatch item y a); [done|done|].
  rewrite Forall_forall in Hall. apply Hall. by eapply list_elem_of_lookup_2.
Qed.
End ordered.

Section mixed_types.
Context {root : Sqrt}.

(** X21.  Values of another kind in an ordered field.  Let a field have a
    non-empty ordered index none of whose items has a value of the kind
    (string, int or float64) of a new value.  Then [ReplaceOrInsert] of an
    item with the new value panics in [Less], and [Set] of a mapping that
    has the new value in that field does not return. *)
Theorem set_mixed_kinds_never_returns key field (m : gmap string Value) fieldValue
    (tr : BTree.t) (a : kind) clock elapsed (s : Store.t) :
  IndexManager.trees (Store.indexes s) !! field = Some tr ->
  m !! field = Some fieldValue ->
  kind_of fieldValue = Some a -> tr <> [] ->
  Forall (fun x => kind_of (BTree.value x) <> Some a) tr ->
  (exists msg, BTree.ReplaceOrInsert (BTree.mkItem key fieldValue) tr = Panic msg)
  /\ forall r, Store.Set_ key (VMap m) clock elapsed s <> Ret r.
Proof.
  intros Htr Hm Hk Hne Hall.
  assert (Hp : BTree.ReplaceOrInsert (BTree.mkItem key fieldValue) tr
               = Panic BTree.conversion_panic)
    by (by apply (ReplaceOrInsert_kind_mismatch _ _ a)).
  split; [eauto|]. intros r. unfold Store.Set_, Store.Lock.
  destruct (Store.locked s); [done|]. cbn [mbind outcome_bind obind].
  unfold IndexManager.Update. simpl.
  destruct (IndexManager.update_trees key m _) as [trs| | |] eqn:Hloop; simpl; try done.
  unfold IndexManager.update_trees in Hloop.
  assert (Hin : (field, tr) ∈ map_to_list (IndexManager.trees (Store.indexes s)))
    by (by apply elem_of_map_to_list).
  destruct (forM_ret_inv _ _ _ _ _ Hloop Hin) as (s1 & s2 & Hbody).
  simpl in Hbody. by rewrite Hm, Hp in Hbody.
Qed.
End mixed_types.

(** ** Filters over an ordered index *)

Section ordered_filter.

Lemma field_matches_scan (v : Z) (l : list (string * Z)) (acc : gset string) :
  forM (fun item fieldResults =>
          same ← interface_eq (BTree.value item) (VInt v);
          Ret (if same : bool then {[BTree.key item]} ∪ fieldResults else fieldResults))
       (int_tree l) acc
  = Ret (list_to_set (filter (fun kv => kv.2 = v) l).*1 ∪ acc).
Proof.
  revert acc. induction l as [|[k w] l IH]; intros acc.
  - simpl. f_equal. set_solver.
  - unfold int_tree. rewrite fmap_cons. fold (int_tree l). cbn [forM]. simpl.
    rewrite IH. f_equal. destruct (Z.eqb_spec w v) as [->|Hne].
    + rewrite filter_cons_True by done. rewrite fmap_cons. simpl. set_solver.
    + rewrite filter_cons_False by done. done.
Qed.

Lemma filter_eq_decomposed v (l1 mid l2 : list (string * Z)) :
  Forall (fun kv => kv.2 < v) l1 -> Forall (fun kv => v < kv.2) l2 ->
  (mid = [] \/ exists k, mid = [(k, v)]) ->
  filter (fun kv => kv.2 = v) (l1 ++ mid ++ l2) = mid
  /\ filter (fun kv => kv.2 = v) (mid ++ l2) = mid.
Proof.
  intros H1 H2 Hmid. rewrite !filter_app.
  assert (Hn1 : filter (fun kv : string * Z => kv.2 = v) l1 = []).
  { clear -H1. induction H1 as [|[k w] l Hw _ IH]; [done|].
    rewrite filter_cons_False by (simpl in *; lia). done. }
  assert (Hn2 : filter (fun kv : string * Z => kv.2 = v) l2 = []).
  { clear -H2. induction H2 as [|[k w] l Hw _ IH]; [done|].
    rewrite filter_cons_False by (simpl in *; lia). done. }
  rewrite Hn1, Hn2, app_nil_r. simpl.
  destruct Hmid as [->|[k ->]]; [done|]. by rewrite filter_cons_True.
Qed.

Lemma field_matches_int (v : Z) (kvs : list (string * Z)) :
  StronglySorted Z.lt kvs.*2 ->
  (length (filter (fun kv => kv.2 = v) kvs) <= 1)%nat
  /\ IndexManager.field_matches (VInt v) (int_tree kvs)
     = Ret (list_to_set (filter (fun kv => kv.2 = v) kvs).*1).
Proof.
  intros Hs. destruct (sorted_decompose kvs v Hs) as (l1 & mid & l2 & -> & H1 & H2 & Hmid).
  destruct (filter_eq_decomposed v l1 mid l2 H1 H2 Hmid) as [Hf Hf'].
  split.
  - rewrite Hf. destruct Hmid as [->|[k ->]]; simpl; lia.
  - unfold IndexManager.field_matches, BTree.AscendGreaterOrEqual.
    rewrite find_int by done. cbn [mbind outcome_bind obind].
    unfold int_tree at 1. rewrite fmap_app, drop_app_length' by (by rewrite length_fmap).
    fold (int_tree (mid ++ l2)).
    rewrite field_matches_scan, Hf, Hf'. f_equal. set_solver.
Qed.

(** X22.  An equality filter over an ordered index.  If the ordered index of
    a field holds integer-valued items in ascending order of value, the
    filter search for the value v on that field returns without error the
    keys of the items whose value is v, of which there is at most one. *)
Theorem ordered_filter_finds_value (im : IndexManager.t) (field : string)
    (kvs : list (string * Z)) (v : Z) :
  IndexManager.trees im !! field = Some (int_tree kvs) ->
  StronglySorted Z.lt kvs.*2 ->
  (length (filter (fun kv => kv.2 = v) kvs) <= 1)%nat
  /\ IndexManager.Search {[ field := VInt v ]} im
     = Ret ((filter (fun kv => kv.2 = v) kvs).*1, None).
Proof.
  intros Htr Hs. destruct (field_matches_int v kvs Hs) as [Hlen Hm]. split; [done|].
  unfold IndexManager.Search, IndexManager.search_fields.
  rewrite map_to_list_singleton. cbn [forM]. rewrite Htr.
  cbn [mbind outcome_bind obind]. rewrite Hm. cbn [mbind outcome_bind obind].
  f_equal. f_equal.
  destruct (filter (fun kv : string * Z => kv.2 = v) kvs) as [|[k w] [|? ?]];
    simpl in *; [by rewrite elements_empty| |lia].
  rewrite union_empty_r_L. apply elements_singleton.
Qed.
End ordered_filter.

(** ** Creating and removing indexes *)

Section index_administration.

Lemma RemoveIndex_unknown (field indexType : string) (im : IndexManager.t) :
  ~ known_type indexType ->
  IndexManager.RemoveIndex field indexType im
  = (im, Some ("unknown index type: " +:+ indexType)).
Proof.
  intros Hun. unfold IndexManager.RemoveIndex.
  destruct (String.eqb_spec indexType "btree") as [->|_]; [destruct Hun; left; done|].
  destruct (String.eqb_spec indexType "vector") as [->|_]; [destruct Hun; right; left; done|].
  destruct (String.eqb_spec indexType "text") as [->|_]; [destruct Hun; right; right; done|].
  reflexivity.
Qed.

Lemma RemoveIndex_absent (field indexType : string) (im : IndexManager.t) :
  known_type indexType -> ~ index_present field indexType im ->
  IndexManager.RemoveIndex field indexType im
  = (im, Some ("index not found: " +:+ field +:+ " (" +:+ indexType +:+ ")")).
Proof.
  intros Hk Hab. unfold IndexManager.RemoveIndex.
  destruct Hk as [ -> | [ -> | -> ] ]; simpl.
  - destruct (IndexManager.trees im !! field) eqn:Hl; [|done].
    destruct Hab. left. rewrite Hl. eauto.
  - destruct (IndexManager.vectors im !! field) eqn:Hl; [|done].
    destruct Hab. right; left. rewrite Hl. eauto.
  - destruct (IndexManager.text im !! field) eqn:Hl; [|done].
    destruct Hab. right; right. rewrite Hl. eauto.
Qed.

Lemma RemoveIndex_present (field indexType : string) (im : IndexManager.t) :
  index_present field indexType im ->
  (IndexManager.RemoveIndex field indexType im).2 = None
  /\ ~ index_present field indexType (IndexManager.RemoveIndex field indexType im).1.
Proof.
  unfold IndexManager.RemoveIndex.
  intros [[-> [x Hx]]|[[-> [x Hx]]|[-> [x Hx]]]]; simpl; rewrite Hx; simpl;
    (split; [done|]).
  - intros [[_ [y Hy]]|[[Hne _]|[Hne _]]]; try discriminate Hne.
    simpl in Hy. by rewrite lookup_delete_eq in Hy.
  - intros [[Hne _]|[[_ [y Hy]]|[Hne _]]]; try discriminate Hne.
    simpl in Hy. by rewrite lookup_delete_eq in Hy.
  - intros [[Hne _]|[[Hne _]|[_ [y Hy]]]]; try discriminate Hne.
    simpl in Hy. by rewrite lookup_delete_eq in Hy.
Qed.

Lemma AddIndex_RemoveIndex (field indexType : string) (im : IndexManager.t) :
  known_type indexType -> ~ index_present field indexType im ->
  IndexManager.RemoveIndex field indexType (IndexManager.AddIndex field indexType im).1
  = (im, None).
Proof.
  intros Hk Hab. destruct im as [trs vs ts].
  unfold IndexManager.RemoveIndex, IndexManager.AddIndex, IndexManager.add_absent.
  destruct Hk as [ -> | [ -> | -> ] ]; simpl.
  - destruct (trs !! field) eqn:Hl.
    { destruct Hab. left. simpl. rewrite Hl. eauto. }
    rewrite lookup_insert_eq. by rewrite delete_insert_eq, delete_id.
  - destruct (vs !! field) eqn:Hl.
    { destruct Hab. right; left. simpl. rewrite Hl. eauto. }
    rewrite lookup_insert_eq. by rewrite delete_insert_eq, delete_id.
  - destruct (ts !! field) eqn:Hl.
    { destruct Hab. right; right. simpl. rewrite Hl. eauto. }
    rewrite lookup_insert_eq. by rewrite delete_insert_eq, delete_id.
Qed.

(** X23.  The outcomes of [RemoveIndex].  For a type other than btree, vector
    and text it returns the unknown-index-type error, and for a known type
    without an index on the field the index-not-found error, leaving the
    store unchanged in both cases.  If the index exists it is removed
    without error and the documents are kept.  Creating an absent index and
    removing it again gives back the store as it was. *)
Theorem remove_index_outcome (field indexType : string) (s : Store.t) :
  (~ known_type indexType ->
   Store.RemoveIndex field indexType s
   = (s, Some ("unknown index type: " +:+ indexType)))
  /\ (known_type indexType -> ~ index_present field indexType (Store.indexes s) ->
      Store.RemoveIndex field indexType s
      = (s, Some ("index not found: " +:+ field +:+ " (" +:+ indexType +:+ ")"))
      /\ Store.RemoveIndex field indexType (Store.CreateIndex field indexType s).1
         = (s, None))
  /\ (index_present field indexType (Store.indexes s) ->
      (Store.RemoveIndex field indexType s).2 = None
      /\ ~ index_present field indexType
             (Store.indexes (Store.RemoveIndex field indexType s).1)
      /\ Store.data (Store.RemoveIndex field indexType s).1 = Store.data s).
Proof.
  unfold Store.RemoveIndex, Store.CreateIndex. split; [|split].
  - intros Hun. rewrite RemoveIndex_unknown by done. by rewrite set_indexes_same.
  - intros Hk Hab. split.
    + rewrite RemoveIndex_absent by done. by rewrite set_indexes_same.
    + pose proof (AddIndex_RemoveIndex field indexType (Store.indexes s) Hk Hab) as Hrt.
      destruct (IndexManager.AddIndex field indexType (Store.indexes s)) as [im err].
      simpl in *. destruct s; simpl in *. by rewrite Hrt.
  - intros Hp. destruct (RemoveIndex_present field indexType (Store.indexes s) Hp) as [He Hn].
    destruct (IndexManager.RemoveIndex field indexType (Store.indexes s)) as [im err].
    simpl in *. by destruct s.
Qed.
End index_administration.

(** ** A flush that has to grow the file *)

Section flush_growth.
Context {codec : Codec}.

(** [Close] holds the lock when it calls [sync]. *)
Lemma Close_never_returns fuel clock s bs :
  must_grow (clock O) s bs ->
  Store.Close fuel clock s = Block \/ Store.Close fuel clock s = Spin.
Proof.
  intros Hg. unfold Store.Close, Store.Lock. destruct (Store.locked s); [by left|].
  cbn [mbind outcome_bind obind].
  destruct (sync_locked_never_returns fuel clock (Store.set_locked true s) bs)
    as [-> | ->]; [by apply must_grow_locked|by destruct s|by left|by right].
Qed.

Lemma Close_blocks fuel clock s bs :
  must_grow (clock O) s bs -> 0 < len (Store.mm s) -> len bs <= 2 ^ 62 ->
  (1 <= fuel)%nat ->
  Store.Close fuel clock s = Block.
Proof.
  intros Hg Hpos Hbs Hfuel. unfold Store.Close, Store.Lock.
  destruct (Store.locked s); [done|]. cbn [mbind outcome_bind obind].
  rewrite (sync_locked_blocks fuel clock (Store.set_locked true s) bs);
    [done|by apply must_grow_locked|by destruct s|by destruct s|done|done].
Qed.

(** The entries that [sync] encodes do not depend on the clock reading when
    no entry has a TTL, as after [Set] alone. *)
Lemma cleanData_no_ttl now (d : gmap string Entry) :
  map_Forall (fun _ entry => TTL entry = 0) d -> Store.cleanData now d = d.
Proof.
  intros Hd. unfold Store.cleanData. apply map_filter_id.
  intros key entry Hin. simpl. unfold live_at_sync.
  by rewrite (Hd key entry Hin).
Qed.

(** X24.  A flush that has to grow the file.  Let the store be dirty and
    the encoding of its entries live at the clock reading of [sync] be
    longer than the mapped region.  Then [Close], which holds the store
    lock, never returns: it blocks or runs forever.  [Sync] and a tick of
    the periodic task do not hold the lock; they never return if the file
    has to grow at the next clock reading as well, the one of the [sync]
    that [resize] calls, and this is the case whenever no entry of the
    store has a TTL.  For a non-empty region and encodings of at most 2^62
    bytes the calls block on the store lock. *)
Theorem flush_that_must_grow_never_returns fuel clock synced collected elapsed s bs :
  must_grow (clock O) s bs ->
  (Store.Close fuel clock s = Block \/ Store.Close fuel clock s = Spin)
  /\ (0 < len (Store.mm s) -> len bs <= 2 ^ 62 -> (1 <= fuel)%nat ->
      Store.Close fuel clock s = Block)
  /\ (forall bs', must_grow (clock 1%nat) s bs' ->
        (Store.Sync fuel clock s = Block \/ Store.Sync fuel clock s = Spin)
        /\ (Store.periodic fuel clock synced collected elapsed s = Block
            \/ Store.periodic fuel clock synced collected elapsed s = Spin)
        /\ (0 < len (Store.mm s) -> len bs <= 2 ^ 62 -> len bs' <= 2 ^ 62 ->
            (2 <= fuel)%nat ->
            Store.Sync fuel clock s = Block
            /\ Store.periodic fuel clock synced collected elapsed s = Block))
  /\ (map_Forall (fun _ entry => TTL entry = 0) (Store.data s) ->
      must_grow (clock 1%nat) s bs).
Proof.
  intros Hg. split; [by apply (Close_never_returns fuel clock s bs)|].
  split; [by apply Close_blocks|]. split.
  - intros bs' Hg'. split; [by apply (sync_never_returns fuel clock s bs bs')|]. split.
    + unfold Store.periodic.
      destruct (sync_never_returns fuel clock s bs bs' Hg Hg') as [-> | ->];
        [by left|by right].
    + intros Hpos Hbs Hbs' Hfuel.
      destruct (sync_blocks fuel clock s bs bs' Hg Hg' Hpos Hbs Hbs' Hfuel)
        as (k & _ & _ & Hb).
      split; [exact Hb|]. unfold Store.periodic. by rewrite Hb.
  - intros Hno. destruct Hg as (Hd & He & Hl). split; [done|]. split; [|done].
    rewrite cleanData_no_ttl in He |- * by done. done.
Qed.
End flush_growth.

(** ** The asynchronous cleanup started by a read *)

Section async_cleanup.
Context {root : Sqrt}.

(** X25.  The cleanup a read starts deletes whatever the key holds when it
    runs.  On an unlocked store without ordered index, [Get] of a key whose
    entry has expired reports absence and starts [Delete(key)]
    asynchronously.  If a [Set] of the key comes first, it succeeds and
    stores the new entry, which has no TTL; the [Delete] that then runs
    returns and removes that new entry. *)
Theorem late_cleanup_deletes_new_entry key entry clock elapsed value clock1 elapsed1
    (s : Store.t) :
  Store.locked s = false -> IndexManager.trees (Store.indexes s) = ∅ ->
  Store.data s !! key = Some entry -> expired (Unix clock) entry = true ->
  exists s0 s1 s2,
    Store.Get key clock elapsed s = Ret ((None, true), s0)
    /\ Store.Set_ key value clock1 elapsed1 s0 = Ret (s1, None)
    /\ Store.data s1 !! key
       = Some {| EValue := value; Timestamp := Unix clock1; TTL := 0 |}
    /\ Store.Delete key s1 = Ret s2
    /\ Store.data s2 !! key = None.
Proof.
  intros Hl Hno Hk He.
  exists (Store.updateReadStats elapsed s).
  assert (Hget : Store.Get key clock elapsed s
                 = Ret ((None, true), Store.updateReadStats elapsed s)).
  { rewrite Get_result by done. unfold lookup_live. by rewrite Hk, He. }
  assert (Hl0 : Store.locked (Store.updateReadStats elapsed s) = false) by done.
  assert (Hno0 : IndexManager.trees (Store.indexes (Store.updateReadStats elapsed s)) = ∅)
    by done.
  destruct (unordered_set_returns key value clock1 elapsed1 _ Hl0 Hno0)
    as (s1 & Hset & Hl1 & Hno1).
  destruct (unordered_delete_returns key s1 Hl1 Hno1) as (s2 & Hdel & _).
  exists s1, s2. split; [done|]. split; [done|]. split.
  - by apply Set_effect in Hset as (_ & _ & _ & ->); rewrite lookup_insert_eq.
  - split; [done|].
    unfold Store.Delete, Store.Lock in Hdel. rewrite Hl1 in Hdel.
    cbn [mbind outcome_bind obind] in Hdel. simpl in Hdel.
    destruct (Store.data s1 !! key) eqn:Hk1.
    + rewrite IndexManager_Remove_without_trees in Hdel by done. simpl in Hdel.
      injection Hdel as <-. simpl. apply lookup_delete_eq.
    + injection Hdel as <-. done.
Qed.
End async_cleanup.

(** ** Instances of the further conditional theorems *)

(** A read after the write of one document. *)
Lemma get_after_set_witness :
  exists s'',
    Store.Get "x" 200000000000 0%Q roomy_store
    = Ret ((Some {| EValue := alpha_doc; Timestamp := Unix 100000000000; TTL := 0 |},
            false), s'').
Proof.
  assert (Hset : Store.Set_ (root := isqrt) "x" alpha_doc 100000000000 0%Q (empty_store 64)
                 = Ret (roomy_store, None)) by (vm_compute; reflexivity).
  exact (proj1 (get_after_set "x" alpha_doc 100000000000 0%Q (empty_store 64) roomy_store
                  None Hset 200000000000 0%Q)).
Defined.

(** The deletion of the one document of a store. *)
Lemma delete_removes_key_witness :
  Store.data deleted_store = delete "x" (Store.data roomy_store)
  /\ Store.mm deleted_store = Store.mm roomy_store.
Proof.
  assert (Hdel : Store.Delete "x" roomy_store = Ret deleted_store)
    by (vm_compute; reflexivity).
  pose proof (delete_removes_key "x" roomy_store deleted_store Hdel) as (Hd & Hmm & _).
  exact (conj Hd Hmm).
Defined.


(** A duration of minus five seconds. *)
Lemma negative_ttl_never_flushed_witness :
  (exists entry s'',
      Store.Get "x" 900000000000 0%Q negative_ttl_store = Ret ((Some entry, false), s'')
      /\ EValue entry = alpha_doc /\ TTL entry < 0)
  /\ Store.cleanData (Unix 100000000000) (Store.data negative_ttl_store) !! "x" = None.
Proof.
  assert (Hset : Store.SetWithTTL (root := isqrt) "x" alpha_doc (-5000000000) 100000000000
                   (empty_store 64) = Ret (negative_ttl_store, None))
    by (vm_compute; reflexivity).
  assert (Httl : - 2 ^ 63 <= -5000000000 <= - 1000000000) by (vm_compute; split; discriminate).
  assert (Hclock : 0 <= 100000000000 < 2 ^ 63) by (vm_compute; split; [discriminate|reflexivity]).
  pose proof (negative_ttl_never_flushed "x" alpha_doc (-5000000000) 100000000000
                (empty_store 64) negative_ttl_store Httl Hclock Hset) as [Hget Hclean].
  split; [exact (Hget 900000000000 0%Q)|].
  apply Hclean. vm_compute. discriminate.
Defined.

(** A new index, one document, and its own text as the query. *)
Lemma trigram_search_finds_text_witness :
  exists r,
    r ∈ TrigramIndex.Search "hello" 0
          (TrigramIndex.Update "k1" "Hello" TrigramIndex.NewTrigramIndex)
    /\ TrigramIndex.Key r = "k1" /\ (TrigramIndex.Score r == 1)%Q
    /\ TrigramIndex.Text r = "Hello".
Proof.
  apply (proj1 (trigram_search_finds_text TrigramIndex.NewTrigramIndex "k1" "Hello" "hello"
                  NewTrigramIndex_coherent (fun g H => H))).
Defined.

(** The removal of the one document of an index. *)
Lemma trigram_removed_never_found_witness :
  ("k1" ∉ (TrigramIndex.Key <$>
             TrigramIndex.Search "hello" 0
               (TrigramIndex.Remove "k1" (text_history [CallUpdate "k1" "hello"]))))
  /\ ("k1" ∉ (TrigramIndex.Key <$>
                TrigramIndex.FuzzySearch "hello" 0%Q 0
                  (TrigramIndex.Remove "k1" (text_history [CallUpdate "k1" "hello"])))).
Proof.
  apply (trigram_removed_never_found (text_history [CallUpdate "k1" "hello"]) "k1" "hello"
           0%Q 0 (proj1 (text_history_inv [CallUpdate "k1" "hello"]))).
Defined.



Lemma text_only_search_scores_witness :
  Store.Vector red_query = []
  /\ forall r, r ∈ red_hits ->
       Store.Combined r = 0%Q /\ Store.VecScore r = 0%Q
       /\ (Store.MinScore red_query <= Store.TextScore r)%Q.
Proof.
  assert (Hs : Store.Search (root := isqrt) red_query tagged_store = Ret (red_hits, None))
    by (vm_compute; reflexivity).
  split; [reflexivity|].
  exact (text_only_search_scores red_query tagged_store red_hits None eq_refl Hs).
Defined.

(** A vector of three components against the index of 384 dimensions. *)
Lemma vector_query_dimension_error_witness :
  exists field vi,
    IndexManager.vectors (Store.indexes embedding_store) !! field = Some vi
    /\ VectorIndex.dim vi <> len (Store.Vector short_vector_query)
    /\ Store.Search (root := isqrt) short_vector_query embedding_store
       = Ret ([], Some ("vector search error: "
                        +:+ VectorIndex.mismatch "query" (VectorIndex.dim vi)
                              (len (Store.Vector short_vector_query)))).
Proof.
  apply (vector_query_dimension_error (root := isqrt) short_vector_query embedding_store).
  - reflexivity.
  - apply (CreateIndex_wf "embedding" "vector" (empty_store 64)), NewIndexManager_wf.
  - vm_compute. discriminate.
  - discriminate.
  - exists "embedding", (VectorIndex.NewVectorIndex 384).
    split; [vm_compute; reflexivity|vm_compute; discriminate].
Defined.

(** A filter on "color" where only "tag" has an ordered index. *)
Lemma unindexed_filters_ignored_witness :
  Store.filter_stage color_query tagged_store = Ret ([], None)
  /\ Store.Search (root := isqrt) color_query tagged_store
     = Store.Search (root := isqrt) (without_filters color_query) tagged_store.
Proof.
  apply (unindexed_filters_ignored (root := isqrt) color_query tagged_store).
  intros field [x Hx].
  change (Store.Filters color_query) with ({[ "color" := VString "blue" ]} : gmap string Value)
    in Hx.
  apply lookup_singleton_Some in Hx as [<- _].
  vm_compute. reflexivity.
Defined.

(** A titled document overwritten by a plain string. *)
Lemma overwrite_keeps_indexed_text_witness :
  IndexManager.text (Store.indexes titled_plain) !! "title"
  = Some (TrigramIndex.Update "x" "alpha" TrigramIndex.NewTrigramIndex)
  /\ TrigramIndex.docs (TrigramIndex.Update "x" "alpha" TrigramIndex.NewTrigramIndex) !! "x"
     = Some "alpha"
  /\ Store.data titled_plain !! "x"
     = Some {| EValue := VString "plain"; Timestamp := Unix 200000000000; TTL := 0 |}.
Proof.
  apply (overwrite_keeps_indexed_text (root := isqrt) "x" "title" "alpha"
           TrigramIndex.NewTrigramIndex alpha_doc (VString "plain")
           100000000000 0%Q 200000000000 0%Q titled_store titled_alpha titled_plain
           None None).
  - vm_compute. reflexivity.
  - vm_compute. reflexivity.
  - reflexivity.
  - vm_compute. reflexivity.
  - vm_compute. reflexivity.
Defined.

(** The start-up on a new 64-byte file. *)
Lemma restart_leaves_indexes_empty_witness :
  (createDefaultIndexes (empty_store 64)).2 = None
  /\ Store.data (createDefaultIndexes (empty_store 64)).1 = Store.data (empty_store 64)
  /\ Store.indexes (createDefaultIndexes (empty_store 64)).1 = default_indexes.
Proof.
  pose proof (restart_leaves_indexes_empty (root := isqrt) (codec := alpha_codec)
                [] small_options 0 (empty_store 64) None
                (NewStore_new_file (root := isqrt) (codec := alpha_codec) 0))
    as (He & Hd & Hi & _).
  exact (conj He (conj Hd Hi)).
Defined.

(** The empty store has no ordered index. *)
Lemma unordered_store_operations_return_witness :
  (forall key value clock elapsed,
      exists s', Store.Set_ (root := isqrt) key value clock elapsed (empty_store 64)
                 = Ret (s', None)
                 /\ Store.locked s' = false
                 /\ IndexManager.trees (Store.indexes s') = ∅)
  /\ (forall key,
        exists s', Store.Delete key (empty_store 64) = Ret s'
                   /\ Store.locked s' = false
                   /\ IndexManager.trees (Store.indexes s') = ∅).
Proof.
  pose proof (unordered_store_operations_return (root := isqrt) (empty_store 64)
                eq_refl eq_refl) as (Hset & _ & Hdel & _).
  exact (conj Hset Hdel).
Defined.

(** A second key with the value 5 takes the place of the first. *)
Lemma ordered_index_one_key_per_value_witness :
  BTree.ReplaceOrInsert (BTree.mkItem "c" (VInt 5)) (int_tree [("a", 1); ("b", 5)])
  = Ret (int_tree (insert_int "c" 5 [("a", 1); ("b", 5)])).
Proof.
  apply (proj1 (ordered_index_one_key_per_value [("a", 1); ("b", 5)] "c" 5
                  ltac:(repeat constructor) ltac:(vm_compute; lia))).
Defined.

(** An integer tag where the ordered index holds a string. *)
Lemma set_mixed_kinds_never_returns_witness :
  (exists msg,
      BTree.ReplaceOrInsert (BTree.mkItem "k2" (VInt 1)) [BTree.mkItem "k1" (VString "red")]
      = Panic msg)
  /\ forall r,
       Store.Set_ (root := isqrt) "k2" (VMap {[ "tag" := VInt 1 ]}) 200000000000 0%Q
         tagged_store <> Ret r.
Proof.
  apply (set_mixed_kinds_never_returns (root := isqrt) "k2" "tag" {[ "tag" := VInt 1 ]}
           (VInt 1) [BTree.mkItem "k1" (VString "red")] KInt 200000000000 0%Q tagged_store).
  - vm_compute. reflexivity.
  - vm_compute. reflexivity.
  - reflexivity.
  - discriminate.
  - repeat constructor. discriminate.
Defined.

(** The filter n = 5 over an ordered index holding the values 1 and 5. *)
Lemma ordered_filter_finds_value_witness :
  (length (filter (fun kv : string * Z => kv.2 = 5%Z) [("a", 1%Z); ("b", 5%Z)]) <= 1)%nat
  /\ IndexManager.Search {[ "n" := VInt 5 ]} numbered_indexes
     = Ret ((filter (fun kv : string * Z => kv.2 = 5) [("a", 1); ("b", 5)]).*1, None).
Proof.
  apply (ordered_filter_finds_value numbered_indexes "n" [("a", 1); ("b", 5)] 5).
  - vm_compute. reflexivity.
  - repeat constructor.
Defined.

(** The flush of the document that lives until 101 s, on its 16-byte file,
    when every clock reading is 101 s: the entry is live at the reading of
    [sync] and at the one of the [sync] inside [resize]. *)
Lemma flush_that_must_grow_never_returns_witness :
  Store.Close (codec := brief_codec) 2 (fun _ => 101000000000) brief_store = Block
  /\ Store.Sync (codec := brief_codec) 2 (fun _ => 101000000000) brief_store = Block
  /\ Store.periodic (codec := brief_codec) 2 (fun _ => 101000000000)
       101000000000 101000000000 0%Q brief_store = Block.
Proof.
  assert (Hg : must_grow (codec := brief_codec) 101000000000 brief_store brief_yaml)
    by (repeat split; vm_compute; reflexivity).
  assert (Hpos : 0 < len (Store.mm brief_store)) by (vm_compute; reflexivity).
  assert (Hbs : len brief_yaml <= 2 ^ 62) by (vm_compute; discriminate).
  pose proof (flush_that_must_grow_never_returns (codec := brief_codec)
                2 (fun _ => 101000000000) 101000000000 101000000000 0%Q
                brief_store brief_yaml Hg) as (_ & Hclose & Hsync & _).
  split; [apply Hclose; [exact Hpos|exact Hbs|lia]|].
  apply (Hsync brief_yaml Hg); [exact Hpos|exact Hbs|exact Hbs|lia].
Defined.

(** A read at 200 s of the document that lived until 101 s, a new write at
    201 s, and then the cleanup the read started. *)
Lemma late_cleanup_deletes_new_entry_witness :
  exists s0 s1 s2,
    Store.Get "x" 200000000000 0%Q short_lived_store = Ret ((None, true), s0)
    /\ Store.Set_ (root := isqrt) "x" (VString "new") 201000000000 0%Q s0 = Ret (s1, None)
    /\ Store.data s1 !! "x"
       = Some {| EValue := VString "new"; Timestamp := Unix 201000000000; TTL := 0 |}
    /\ Store.Delete "x" s1 = Ret s2
    /\ Store.data s2 !! "x" = None.
Proof.
  apply (late_cleanup_deletes_new_entry (root := isqrt) "x"
           {| EValue := alpha_doc; Timestamp := 100; TTL := 1 |}
           200000000000 0%Q (VString "new") 201000000000 0%Q short_lived_store).
  - reflexivity.
  - reflexivity.
  - vm_compute. reflexivity.
  - vm_compute. reflexivity.
Defined.
